(** * SSBC-GE: precision/recall curve processing and aggregation

    A shallow embedding of the curve-processing core of [src/compute.py]
    ([Main._evaluate_and_plot], [Plot.__init__], [Plot.mean_and_std]) together
    with the numpy / scikit-learn / scipy routines those methods call.

    Numbers.  The program computes on IEEE-754 [float64] arrays.  They are
    embedded as exact rationals extended with the IEEE special values, so
    that [0/0] is a genuine not-a-number and [x/0] a signed infinity, while
    the finite part of the arithmetic is exact (no rounding).  Every place
    in the program where a special value can be created or tested
    ([np.isfinite], [argmax], the [0/0] of recall and of F1) is therefore
    modelled; rounding error is not. *)

From Stdlib Require Import QArith Qcanon.
From stdpp Require Import base decidable option numbers list sorting gmap strings.

Local Open Scope Qc_scope.

(** ** Floating-point values *)

Inductive float : Type :=
  | Fin (q : Qc)
  | Inf (neg : bool)
  | NaN.

#[global] Instance float_eq_dec : EqDecision float.
Proof. solve_decision. Defined.

#[global] Instance float_inhabited : Inhabited float := populate (Fin 0).

Definition qc (n : Z) (d : positive) : Qc := Q2Qc (n # d).
Definition of_nat (n : nat) : float := Fin (Qc_of_Z (Z.of_nat n)).

Notation "n // d" := (Fin (qc n d)) (at level 30, no associativity).

Definition f0 : float := Fin 0.
Definition f1_ : float := Fin 1.
Definition f2 : float := Fin 2.

Definition np_isnan (x : float) : bool :=
  match x with NaN => true | _ => false end.

Definition np_isfinite (x : float) : bool :=
  match x with Fin _ => true | _ => false end.

Definition fneg (x : float) : float :=
  match x with
  | Fin a => Fin (- a)
  | Inf s => Inf (negb s)
  | NaN => NaN
  end.

Definition fadd (x y : float) : float :=
  match x, y with
  | NaN, _ | _, NaN => NaN
  | Fin a, Fin b => Fin (a + b)
  | Inf s, Fin _ | Fin _, Inf s => Inf s
  | Inf s, Inf t => if bool_decide (s = t) then Inf s else NaN
  end.

Definition fsub (x y : float) : float := fadd x (fneg y).

(** Sign of a finite value: [None] for zero, otherwise [Some true] when negative. *)
Definition Qc_sign (a : Qc) : option bool :=
  if decide (a = 0) then None
  else if decide (a < 0) then Some true else Some false.

Definition fmul (x y : float) : float :=
  match x, y with
  | NaN, _ | _, NaN => NaN
  | Fin a, Fin b => Fin (a * b)
  | Inf s, Fin a | Fin a, Inf s =>
      match Qc_sign a with
      | None => NaN
      | Some t => Inf (xorb s t)
      end
  | Inf s, Inf t => Inf (xorb s t)
  end.

Definition fdiv (x y : float) : float :=
  match x, y with
  | NaN, _ | _, NaN => NaN
  | Fin a, Fin b =>
      if decide (b = 0) then
        match Qc_sign a with
        | None => NaN
        | Some s => Inf s
        end
      else Fin (a / b)
  | Fin _, Inf _ => Fin 0
  | Inf s, Fin b =>
      match Qc_sign b with
      | None => Inf s
      | Some t => Inf (xorb s t)
      end
  | Inf _, Inf _ => NaN
  end.

(** IEEE comparisons: every comparison with not-a-number is false. *)
Definition fltb (x y : float) : bool :=
  match x, y with
  | NaN, _ | _, NaN => false
  | Fin a, Fin b => bool_decide (a < b)
  | Fin _, Inf s => negb s
  | Inf s, Fin _ => s
  | Inf s, Inf t => s && negb t
  end.

Definition feqb (x y : float) : bool :=
  match x, y with
  | NaN, _ | _, NaN => false
  | _, _ => bool_decide (x = y)
  end.

Definition fleb (x y : float) : bool := fltb x y || feqb x y.
Definition fgeb (x y : float) : bool := fleb y x.
Definition fgtb (x y : float) : bool := fltb y x.
Definition fneb (x y : float) : bool := negb (feqb x y).

(** Truth value of a number ([if x:], [np.any], [np.where]): nonzero. *)
Definition truthy (x : float) : bool := fneb x f0.

(** Square root.  Exact on squares of rationals (where the exact model and
    a correctly rounded square root agree); otherwise truncated at
    [2^-53] relative to the denominator. *)
Definition Qsqrt (q : Q) : Q :=
  let n := Qnum q in
  let d := Zpos (Qden q) in
  let rn := Z.sqrt n in
  let rd := Z.sqrt d in
  if ((rn * rn =? n) && (rd * rd =? d))%Z then rn # Z.to_pos rd
  else Z.sqrt (n * d * 2 ^ 106) # (Qden q * 2 ^ 53).

Definition fsqrt (x : float) : float :=
  match x with
  | NaN => NaN
  | Inf s => if s then NaN else Inf false
  | Fin a => if decide (a < 0) then NaN else Fin (Q2Qc (Qsqrt a))
  end.

Definition b2f (b : bool) : float := if b then f1_ else f0.

(** ** Exceptions *)

Inductive exn : Type :=
  | IndexError
  | TypeError
  | ValueError (msg : string).

#[global] Instance exn_eq_dec : EqDecision exn.
Proof. solve_decision. Defined.

Inductive result (A : Type) : Type :=
  | Ok (a : A)
  | Raise (e : exn).
Arguments Ok {A} a.
Arguments Raise {A} e.

#[global] Instance result_eq_dec {A} `{EqDecision A} : EqDecision (result A).
Proof. solve_decision. Defined.

Definition rbind {A B} (m : result A) (k : A → result B) : result B :=
  match m with
  | Ok a => k a
  | Raise e => Raise e
  end.

Notation "'let?' x := m 'in' k" := (rbind m (λ x, k))
  (at level 10, x pattern, m at level 100, k at level 200).

(** A list comprehension whose body may raise. *)
Fixpoint for_each {A B} (f : A → result B) (l : list A) : result (list B) :=
  match l with
  | [] => Ok []
  | a :: l' =>
      let? b := f a in
      let? bs := for_each f l' in
      Ok (b :: bs)
  end.

(** ** numpy array primitives

    One-dimensional arrays are lists.  [a[idx]] with an index array is
    [np_take]; every index array the program builds is a sub-list of a
    permutation of [range(len(a))], so the out-of-range case of the total
    lookup is never reached (lemmas [argsort_lt], [np_split_concat]). *)

Definition np_take {A} `{Inhabited A} (a : list A) (idx : list nat) : list A :=
  (λ i, a !!! i) <$> idx.

(** [np.delete(arr, obj)]: [keep = ones(N); keep[obj] = False; arr[keep]]. *)
Definition np_delete {A} `{Inhabited A} (arr : list A) (obj : list nat) : list A :=
  np_take arr (filter (λ i, i ∉ obj) (seq 0 (length arr))).

Definition np_any (a : list float) : bool := existsb truthy a.
Definition np_any_bool (a : list bool) : bool := existsb id a.

(** Python slice [a[st:en]] for [0 <= st]. *)
Definition slice {A} (a : list A) (st en : nat) : list A :=
  take (en - st) (drop st a).

(** [np.split(ary, indices)]: [div_points = [0] + indices + [N]] and the
    pieces are [ary[div_points[i]:div_points[i+1]]]. *)
Definition np_split {A} (ary : list A) (indices : list nat) : list (list A) :=
  let div_points := 0%nat :: indices ++ [length ary] in
  zip_with (slice ary) div_points (tail div_points).

(** Element-wise binary operation with numpy broadcasting of 1-d shapes. *)
Definition broadcast (f : float → float → float) (a b : list float)
  : result (list float) :=
  if decide (length a = length b) then Ok (zip_with f a b)
  else match a, b with
       | [x], _ => Ok (f x <$> b)
       | _, [y] => Ok ((λ x, f x y) <$> a)
       | _, _ => Raise (ValueError "operands could not be broadcast together")
       end.

(** *** Sorting

    The order used by numpy's sorts puts not-a-number last:
    [LT(a, b) = a < b || (b != b && a == a)]. *)
Definition np_lt (a b : float) : bool :=
  fltb a b || (np_isnan b && negb (np_isnan a)).

(** Stable insertion sort using only a strict comparison, as Python's
    [list.sort] and numpy's stable kinds do. *)
Fixpoint insert_by {A} (lt : A → A → bool) (x : A) (l : list A) : list A :=
  match l with
  | [] => [x]
  | y :: l' => if lt y x then y :: insert_by lt x l' else x :: l
  end.

Definition stable_sort_by {A} (lt : A → A → bool) (l : list A) : list A :=
  foldr (insert_by lt) [] l.

(** [sorted(l, key=key)] on float keys. *)
Definition py_sorted {A} (key : A → float) (l : list A) : list A :=
  stable_sort_by (λ x y, fltb (key x) (key y)) l.

(** [np.argsort(a, kind="mergesort")]; also what the default kind does on
    short arrays, where it falls back to insertion sort. *)
Definition stable_argsort (a : list float) : list nat :=
  stable_sort_by (λ i j, np_lt (a !!! i) (a !!! j)) (seq 0 (length a)).

(** [np.argsort(a)] with the default, non-stable kind: some permutation of
    the indices that sorts [a]; the order of tied entries is left open. *)
Class Argsort := {
  argsort : list float → list nat;
  argsort_perm : ∀ a, argsort a ≡ₚ seq 0 (length a);
  argsort_sorted : ∀ a,
    StronglySorted (λ x y, np_lt y x = false) (np_take a (argsort a))
}.

(** [np.unique(ar, return_index=True)[1]]:
    [perm = ar.argsort(kind="mergesort"); aux = ar[perm];
     mask[:1] = True; mask[1:] = aux[1:] != aux[:-1]; perm[mask]]. *)
Fixpoint unique_mask (prev : float) (aux : list float) : list bool :=
  match aux with
  | [] => []
  | x :: aux' => fneb x prev :: unique_mask x aux'
  end.

Definition np_unique_mask (aux : list float) : list bool :=
  match aux with
  | [] => []
  | x :: aux' => true :: unique_mask x aux'
  end.

(** Boolean-mask indexing [a[mask]]. *)
Fixpoint np_compress {A} (mask : list bool) (a : list A) : list A :=
  match mask, a with
  | m :: mask', x :: a' =>
      if m then x :: np_compress mask' a' else np_compress mask' a'
  | _, _ => []
  end.

Definition np_unique_index (ar : list float) : list nat :=
  let perm := stable_argsort ar in
  let aux := np_take ar perm in
  np_compress (np_unique_mask aux) perm.

(** [a.argmax()]: the loop of numpy's [DOUBLE_argmax]:
    [mp = ip[0]; if isnan(mp) return 0;
     for i in 1..n-1: if !(ip[i] <= mp) { mp = ip[i]; idx = i; if isnan(mp) break }]. *)
Fixpoint argmax_loop (mp : float) (idx i : nat) (ip : list float) : nat :=
  match ip with
  | [] => idx
  | x :: ip' =>
      if fleb x mp then argmax_loop mp idx (S i) ip'
      else if np_isnan x then i
      else argmax_loop x i (S i) ip'
  end.

Definition np_argmax (a : list float) : result nat :=
  match a with
  | [] => Raise (ValueError "attempt to get an argmax of an empty sequence")
  | x :: a' => Ok (if np_isnan x then 0%nat else argmax_loop x 0 1 a')
  end.

Fixpoint cumsum_from (acc : float) (a : list float) : list float :=
  match a with
  | [] => []
  | y :: a' => fadd acc y :: cumsum_from (fadd acc y) a'
  end.

Definition np_cumsum (a : list float) : list float :=
  match a with
  | [] => []
  | x :: a' => x :: cumsum_from x a'
  end.

(** [np.linspace(0, 1, num)]. *)
Definition np_linspace01 (num : nat) : list float :=
  match num with
  | 0%nat => []
  | 1%nat => [f0]
  | _ => (λ i, fdiv (of_nat i) (of_nat (num - 1))) <$> seq 0 num
  end.

(** ** scikit-learn: [sklearn.metrics.precision_recall_curve]

    The library routine called at line 166, in the form it has in the
    0.2x releases the program was written against: recall is [tps / tps[-1]]
    (not-a-number when the ground truth has no positive, which is the case
    the program's [errstate] guard and [isfinite] repair are there for) and
    the curve stops when full recall is attained. *)

(** [np.where(np.diff(y_score))[0]] *)
Fixpoint distinct_value_indices_from (i : nat) (y_score : list float) : list nat :=
  match y_score with
  | x :: (y :: _) as rest =>
      (if truthy (fsub y x) then [i] else []) ++ distinct_value_indices_from (S i) rest
  | _ => []
  end.

Definition distinct_value_indices := distinct_value_indices_from 0.

(** [_binary_clf_curve(y_true, y_score)] without sample weights; the
    positive label of a boolean [y_true] is [True]. *)
Definition _binary_clf_curve (y_true : list bool) (y_score : list float)
  : result (list float * list float * list float) :=
  if negb (bool_decide (length y_true = length y_score)) then
    Raise (ValueError "Found input variables with inconsistent numbers of samples")
  else if negb (forallb np_isfinite y_score) then
    Raise (ValueError "Input contains NaN, infinity or a value too large")
  else if bool_decide (y_score = []) then
    (* [threshold_idxs = [-1]] indexes the empty cumulative sum *)
    Raise IndexError
  else
    let desc_score_indices := reverse (stable_argsort y_score) in
    let y_score := np_take y_score desc_score_indices in
    let y_true := np_take (b2f <$> y_true) desc_score_indices in
    let threshold_idxs := distinct_value_indices y_score ++ [length y_true - 1]%nat in
    let tps := np_take (np_cumsum y_true) threshold_idxs in
    let fps := zip_with (λ k t, fsub (fadd f1_ (of_nat k)) t) threshold_idxs tps in
    Ok (fps, tps, np_take y_score threshold_idxs).

(** [a.searchsorted(v)] (side left) on an ascending array. *)
Fixpoint np_searchsorted (a : list float) (v : float) : nat :=
  match a with
  | [] => 0
  | x :: a' => if np_lt x v then S (np_searchsorted a' v) else 0
  end.

(** [a[slice(last_ind, None, -1)]] *)
Definition rev_upto {A} (last_ind : nat) (a : list A) : list A :=
  reverse (take (S last_ind) a).

Definition precision_recall_curve (y_true : list bool) (probas_pred : list float)
  : result (list float * list float * list float) :=
  let? (fps, tps, thresholds) := _binary_clf_curve y_true probas_pred in
  let precision := zip_with fdiv tps (zip_with fadd tps fps) in
  let precision := (λ p, if np_isnan p then f0 else p) <$> precision in
  let tps_last := tps !!! (length tps - 1)%nat in
  let recall := (λ t, fdiv t tps_last) <$> tps in
  let last_ind := np_searchsorted tps tps_last in
  Ok (rev_upto last_ind precision ++ [f1_],
      rev_upto last_ind recall ++ [f0],
      rev_upto last_ind thresholds).

(** ** The [evaluation.segmentation] module

    [compute.py] imports its metric classes from [evaluation.segmentation],
    which is not part of the sources at hand.  What each metric computes is
    taken as a parameter; how an accumulator folds an observation is
    modelled below. *)

Class Segmentation := {
  (** [IoU]: intersection over union of two masks, [(reference, measurement)] *)
  iou_compute : list bool → list bool → float;
  (** [AUC]: area under the curve given by [(precisions, recalls)] *)
  auc_compute : list float → list float → float;
  (** precision and recall of a binarised prediction, [(gt, bin_)] *)
  precision_compute : list bool → list bool → float;
  recall_compute : list bool → list bool → float;
  (** the remaining metrics of the binarised modality *)
  other_compute : list (list bool → list bool → float);
  (** [F()(precision=p, recall=r)] *)
  F : float → float → float
}.

(** Modelled from the spec: the Metric Accumulator of [evaluation.segmentation]
    (section 4.1): a running mean and an observation count, the most recent
    observation being retained for [last()]. *)
Record Metric : Type := {
  count : nat;
  mean : float;
  last_obs : option float
}.

#[global] Instance Metric_eq_dec : EqDecision Metric.
Proof. solve_decision. Defined.

Definition Metric_new : Metric := {| count := 0; mean := f0; last_obs := None |}.

(** [update(value)]: [new_mean = old_mean + (value - old_mean) / new_count]. *)
Definition update (m : Metric) (value : float) : Metric :=
  let new_count := S (count m) in
  {| count := new_count;
     mean := fadd (mean m) (fdiv (fsub value (mean m)) (of_nat new_count));
     last_obs := Some value |}.

(** [last()]: the most recent observation if retained, else the running mean. *)
Definition Metric_last (m : Metric) : float := default (mean m) (last_obs m).

(** [BinaryIntensitySegmentationEvaluation] *)
Record PredEval : Type := {
  pe_f1score : Metric;
  pe_precision : Metric;
  pe_recall : Metric;
  pe_iou : Metric;
  pe_auc : Metric
}.

(** [BinarySegmentationEvaluation], iterable over its metrics *)
Record BinEval : Type := {
  be_precision : Metric;
  be_recall : Metric;
  be_others : list Metric
}.

#[global] Instance PredEval_eq_dec : EqDecision PredEval.
Proof. solve_decision. Defined.
#[global] Instance BinEval_eq_dec : EqDecision BinEval.
Proof. solve_decision. Defined.

(** ** [class Plot] *)

Record Plot : Type := {
  recall : list float;
  precision : list float;
  threshold : option (list float);
  f1 : list float;
  f1_point : option (float * float);
  bin_point : option (float * float)
}.

#[global] Instance Plot_eq_dec : EqDecision Plot.
Proof. solve_decision. Defined.

(** [a[i]] on a one-dimensional array, [0 <= i]. *)
Definition getitem {A} (a : list A) (i : nat) : result A :=
  match a !! i with
  | Some x => Ok x
  | None => Raise IndexError
  end.

(** [2 * precision * recall / (precision + recall)] on arrays (lines 185, 242). *)
Definition f1_formula (precision recall : list float) : result (list float) :=
  let? num := broadcast fmul (fmul f2 <$> precision) recall in
  let? den := broadcast fadd precision recall in
  broadcast fdiv num den.

(** [Plot.__init__] (lines 238-253). *)
Definition Plot_init (recall precision : list float)
    (threshold f1 : option (list float)) (f1_point bin_point : option (float * float))
  : result Plot :=
  let? f1 := match f1 with
             | None => f1_formula precision recall
             | Some f1 => Ok f1
             end in
  (* Edge case *)
  if decide (length recall < 2)%nat then
    let? r0 := getitem recall 0 in
    let? p0 := getitem precision 0 in
    if truthy r0 then
      Ok {| recall := [f0; r0]; precision := [f0; p0];
            threshold := threshold; f1 := f1;
            f1_point := f1_point; bin_point := bin_point |}
    else
      Ok {| recall := [f0; f1_]; precision := [p0; f0];
            threshold := threshold; f1 := f1;
            f1_point := f1_point; bin_point := bin_point |}
  else
    Ok {| recall := recall; precision := precision;
          threshold := threshold; f1 := f1;
          f1_point := f1_point; bin_point := bin_point |}.

(** ** [Main._evaluate_and_plot] (lines 152-208) *)

Section evaluate.
Context `{!Argsort, !Segmentation}.

(** Lines 171-175: the index groups of equal recall holding more than one
    point. *)
Definition duplicate_groups (recalls : list float) : list (list nat) :=
  let idx_sort := argsort recalls in
  let sorted_recalls_array := np_take recalls idx_sort in
  let idx_start := np_unique_index sorted_recalls_array in
  filter (λ x, 1 < length x)%nat (np_split idx_sort (tail idx_start)).

(** Lines 176-180: everything but the one with maximum precision value. *)
Definition to_delete (recalls precisions : list float) : list nat :=
  let duplicates := duplicate_groups recalls in
  let duplicates :=
    (λ duplicate,
       let s := py_sorted (λ idx, precisions !!! idx) duplicate in
       take (length s - 1) s) <$> duplicates in
  mjoin duplicates.

(** Lines 169-183 on the raw curve [(precisions, recalls, thresholds)];
    returns the three arrays in the same order. *)
Definition suppress_duplicates (precisions recalls thresholds : list float)
  : list float * list float * list float :=
  let recalls := (λ r, if np_isfinite r then r else f0) <$> recalls in
  match duplicate_groups recalls with
  | [] => (precisions, recalls, thresholds)
  | _ =>
      let to_delete := to_delete recalls precisions in
      (np_delete precisions to_delete,
       np_delete recalls to_delete,
       np_delete thresholds to_delete)
  end.

(** Lines 164-183: the deduplicated curve of a (repaired) prediction. *)
Definition pr_curve (gt : list bool) (pred : list float)
  : result (list float * list float * list float) :=
  let? (precisions, recalls, thresholds) := precision_recall_curve gt pred in
  let thresholds := thresholds ++ [f1_] in
  Ok (suppress_duplicates precisions recalls thresholds).

(** Lines 164-208, on the arrays the three names refer to after the
    edge-case repair.  Nothing here writes to them. *)
Definition evaluate_arrays (pred : list float) (bin_ gt : list bool)
  : result (PredEval * BinEval * Plot) :=
  let? (precisions, recalls, thresholds) := pr_curve gt pred in
  (* Find threshold with the best F1-score and update scores at this index *)
  let? f1scores := f1_formula precisions recalls in
  let? idx := np_argmax f1scores in
  let? f1_idx := getitem f1scores idx in
  let? p_idx := getitem precisions idx in
  let? r_idx := getitem recalls idx in
  let? t_idx := getitem thresholds idx in
  let mask := (λ p, fgeb p t_idx) <$> pred in
  let pred_eval :=
    {| pe_f1score := update Metric_new f1_idx;
       pe_precision := update Metric_new p_idx;
       pe_recall := update Metric_new r_idx;
       pe_iou := update Metric_new (iou_compute gt mask);
       pe_auc := update Metric_new (auc_compute precisions recalls) |} in
  (* Binarised prediction *)
  let bin_eval :=
    {| be_precision := update Metric_new (precision_compute gt bin_);
       be_recall := update Metric_new (recall_compute gt bin_);
       be_others := (λ c, update Metric_new (c gt bin_)) <$> other_compute |} in
  let? plot :=
    Plot_init recalls precisions (Some thresholds) (Some f1scores)
      (Some (r_idx, p_idx))
      (Some (Metric_last (be_recall bin_eval), Metric_last (be_precision bin_eval))) in
  Ok (pred_eval, bin_eval, plot).
End evaluate.

(** ** Arrays as shared objects

    The three arguments of [_evaluate_and_plot] are references to arrays
    owned by the caller.  The store maps references to arrays; a Python
    name is a reference, rebinding a name ([pred = pred.copy()]) changes
    the reference it holds, and an item assignment ([pred[0] = .5]) writes
    through the reference into the store. *)

Inductive ndarray : Type :=
  | FloatArray (a : list float)
  | BoolArray (a : list bool).

#[global] Instance ndarray_eq_dec : EqDecision ndarray.
Proof. solve_decision. Defined.

Abbreviation loc := positive (only parsing).
Abbreviation store := (gmap positive ndarray) (only parsing).

Definition M (A : Type) : Type := store → result A * store.

Definition ret {A} (a : A) : M A := λ h, (Ok a, h).
Definition lift {A} (r : result A) : M A := λ h, (r, h).
Definition bind {A B} (m : M A) (k : A → M B) : M B :=
  λ h, match m h with
       | (Ok a, h') => k a h'
       | (Raise e, h') => (Raise e, h')
       end.

Notation "x <- m ;; k" := (bind m (λ x, k))
  (at level 100, m at next level, right associativity).

(** Reading the array behind a reference; a reference to an array of the
    other element type is outside the data model. *)
Definition load_float (l : loc) : M (list float) :=
  λ h, match h !! l with
       | Some (FloatArray a) => (Ok a, h)
       | _ => (Raise TypeError, h)
       end.

Definition load_bool (l : loc) : M (list bool) :=
  λ h, match h !! l with
       | Some (BoolArray a) => (Ok a, h)
       | _ => (Raise TypeError, h)
       end.

(** [a.copy()]: a new array object with the same contents. *)
Definition np_copy (l : loc) : M loc :=
  λ h, match h !! l with
       | Some a => let l' := fresh (dom h) in (Ok l', <[l' := a]> h)
       | None => (Raise TypeError, h)
       end.

(** [a[i] = v]: in place; [IndexError] out of range. *)
Definition setitem_float (l : loc) (i : nat) (v : float) : M unit :=
  λ h, match h !! l with
       | Some (FloatArray a) =>
           if decide (i < length a)%nat
           then (Ok (), <[l := FloatArray (<[i := v]> a)]> h)
           else (Raise IndexError, h)
       | _ => (Raise TypeError, h)
       end.

Definition setitem_bool (l : loc) (i : nat) (v : bool) : M unit :=
  λ h, match h !! l with
       | Some (BoolArray a) =>
           if decide (i < length a)%nat
           then (Ok (), <[l := BoolArray (<[i := v]> a)]> h)
           else (Raise IndexError, h)
       | _ => (Raise TypeError, h)
       end.

Section evaluate_and_plot.
Context `{!Argsort, !Segmentation}.

Definition _evaluate_and_plot (pred bin_ gt : loc) : M (PredEval * BinEval * Plot) :=
  (* Edge case *)
  pred_a <- load_float pred;;
  pred <- (if negb (np_any pred_a) then
             pred <- np_copy pred;;
             _ <- setitem_float pred 0 (1 // 2);;
             ret pred
           else ret pred);;
  bin_a <- load_bool bin_;;
  bin_ <- (if negb (np_any_bool bin_a) then
             bin_ <- np_copy bin_;;
             _ <- setitem_bool bin_ 0 true;;
             ret bin_
           else ret bin_);;
  pred_a <- load_float pred;;
  bin_a <- load_bool bin_;;
  gt_a <- load_bool gt;;
  lift (evaluate_arrays pred_a bin_a gt_a).

(** [evaluate] of the specification: one call of [_evaluate_and_plot] on
    a store holding exactly the three input arrays. *)
Definition input_store (pred : list float) (bin_ gt : list bool) : store :=
  <[1%positive := FloatArray pred]>
    (<[2%positive := BoolArray bin_]> (<[3%positive := BoolArray gt]> ∅)).

Definition evaluate (pred : list float) (bin_ gt : list bool)
  : result (PredEval * BinEval * Plot) :=
  (_evaluate_and_plot 1 2 3 (input_store pred bin_ gt)).1.
End evaluate_and_plot.

(** ** scipy: [scipy.interpolate.interp1d(x, y)(x_new)]

    Linear kind, [assume_sorted=False], default [fill_value], hence
    [bounds_error=True]. *)

Definition below_msg : string := "A value in x_new is below the interpolation range.".
Definition above_msg : string := "A value in x_new is above the interpolation range.".

(** [binary_search_with_guess] of numpy for a key within [arr[0], arr[-1]]:
    the index [j] with [arr[j] <= key < arr[j+1]]. *)
Fixpoint linear_search (key : float) (arr : list float) : nat :=
  match arr with
  | [] => 0
  | a :: arr' => if fgeb key a then S (linear_search key arr') else 0
  end.

(** One element of [np.interp(x, xp, fp)]. *)
Definition np_interp1 (xp fp : list float) (x_val : float) : float :=
  let lenxp := length xp in
  if np_isnan x_val then x_val
  else if fgtb x_val (xp !!! (lenxp - 1)%nat) then fp !!! (lenxp - 1)%nat
  else if fltb x_val (xp !!! 0%nat) then fp !!! 0%nat
  else
    let j := (linear_search x_val xp - 1)%nat in
    if decide (j = lenxp - 1)%nat then fp !!! j
    else if feqb (xp !!! j) x_val then fp !!! j
    else
      let slope := fdiv (fsub (fp !!! S j) (fp !!! j)) (fsub (xp !!! S j) (xp !!! j)) in
      let res := fadd (fmul slope (fsub x_val (xp !!! j))) (fp !!! j) in
      if np_isnan res then
        let res := fadd (fmul slope (fsub x_val (xp !!! S j))) (fp !!! S j) in
        if np_isnan res && feqb (fp !!! j) (fp !!! S j) then fp !!! j else res
      else res.

Section aggregate.
Context `{!Argsort, !Segmentation}.

Definition interp1d (x y x_new : list float) : result (list float) :=
  if negb (bool_decide (length y = length x)) then
    Raise (ValueError "x and y arrays must be equal in length along interpolation axis.")
  else
    let ind := argsort x in
    let x := np_take x ind in
    let y := np_take y ind in
    if bool_decide (length x < 2)%nat then
      Raise (ValueError "x and y arrays must have at least 2 entries")
    else
      let y_new := np_interp1 x y <$> x_new in
      if existsb (λ v, fltb v (x !!! 0%nat)) x_new then
        Raise (ValueError below_msg)
      else if existsb (λ v, fgtb v (x !!! (length x - 1)%nat)) x_new then
        Raise (ValueError above_msg)
      else Ok y_new.

(** [np.vstack(rows)] of equal-length rows: the matrix as its list of rows. *)
Definition np_vstack (rows : list (list float)) : result (list (list float)) :=
  match rows with
  | [] => Raise (ValueError "need at least one array to concatenate")
  | r :: rs =>
      if forallb (λ r', bool_decide (length r' = length r)) rs then Ok rows
      else Raise (ValueError "all the input array dimensions except for the concatenation axis must match exactly")
  end.

(** [m.sum(0)], [m.mean(0)] and [m.std(0)] of a matrix with at least one row. *)
Definition sum0 (m : list (list float)) : list float :=
  match m with
  | [] => []
  | r :: rs => foldl (zip_with fadd) r rs
  end.

Definition mean0 (m : list (list float)) : list float :=
  (λ s, fdiv s (of_nat (length m))) <$> sum0 m.

Definition std0 (m : list (list float)) : list float :=
  let arrmean := mean0 m in
  let x := (λ r, zip_with fsub r arrmean) <$> m in
  let x := (λ r, zip_with fmul r r) <$> x in
  (λ s, fsqrt (fdiv s (of_nat (length m)))) <$> sum0 x.

(** Line 270: [np.vstack([plot.bin_point for plot in plots])].  Markers
    that are all absent stack to an object array of [None]; a mix of
    absent and present markers has rows of different widths. *)
Definition bin_points_vstack (plots : list Plot) : result (list (option (float * float))) :=
  match plots with
  | [] => Raise (ValueError "need at least one array to concatenate")
  | _ =>
      if forallb (λ p, bool_decide (is_Some (bin_point p))) plots
         || forallb (λ p, bool_decide (bin_point p = None)) plots
      then Ok (bin_point <$> plots)
      else Raise (ValueError "all the input array dimensions except for the concatenation axis must match exactly")
  end.

(** Line 280: [bin_points.mean(0)]; [None] cannot be added. *)
Definition bin_points_mean (bin_points : list (option (float * float)))
  : result (float * float) :=
  match bin_points with
  | None :: _ => Raise TypeError
  | _ =>
      match mean0 ((λ p, match p with
                         | Some (r, q) => [r; q]
                         | None => []
                         end) <$> bin_points) with
      | [r; q] => Ok (r, q)
      | _ => Raise TypeError
      end
  end.

(** Lines 264-269: precision of every curve interpolated to the grid. *)
Definition interp_precision (plots : list Plot) (interp : list float)
  : result (list (list float)) :=
  let? rows := for_each (λ plot, interp1d (recall plot) (precision plot) interp) plots in
  np_vstack rows.

(** [Plot.mean_and_std] (lines 256-283). *)
Definition mean_and_std (plots : list Plot) (interp : nat + list float)
  : result (Plot * Plot * Plot) :=
  let interp := match interp with
                | inl num => np_linspace01 num
                | inr grid => grid
                end in
  (* Interpolate precision to linspace recall for mean computation *)
  let? precision := interp_precision plots interp in
  let? bin_points := bin_points_vstack plots in
  (* Compute mean graph and standard deviations *)
  let mean := mean0 precision in
  let std := std0 precision in
  (* Find max F1 point on mean graph *)
  let? idx := np_argmax (zip_with (λ p r, F p r) mean interp) in
  let? r_idx := getitem interp idx in
  let? m_idx := getitem mean idx in
  let? bin_mean := bin_points_mean bin_points in
  let? mean_plot := Plot_init interp mean None None (Some (r_idx, m_idx)) (Some bin_mean) in
  let? lower := Plot_init interp (zip_with fsub mean std) None None None None in
  let? upper := Plot_init interp (zip_with fadd mean std) None None None None in
  Ok (mean_plot, lower, upper).
End aggregate.

(** Closed equations between values of the model are decided by evaluation. *)
Ltac by_eval :=
  lazymatch goal with
  | |- ?P => apply (bool_decide_unpack P); vm_compute; exact I
  end.

(** Modelled from the spec: the metric functions of [evaluation.segmentation]
    (section 4.1 and the glossary), used where the model is run on concrete
    inputs: IoU is [|A∩B|/|A∪B|]; AUC is the trapezoidal integral of
    precision over the points ordered by recall; precision and recall of a
    mask are [TP/(TP+FP)] and [TP/(TP+FN)]; F1 is [2PR/(P+R)]. *)
Definition count_true (l : list bool) : nat := length (filter (λ b, b = true) l).

Fixpoint trapz (ys xs : list float) : float :=
  match xs, ys with
  | x1 :: ((x2 :: _) as xs'), y1 :: ((y2 :: _) as ys') =>
      fadd (fmul (fsub x2 x1) (fdiv (fadd y1 y2) f2)) (trapz ys' xs')
  | _, _ => f0
  end.

Definition spec_metrics : Segmentation := {|
  iou_compute a b :=
    fdiv (of_nat (count_true (zip_with andb a b))) (of_nat (count_true (zip_with orb a b)));
  auc_compute precisions recalls :=
    let ind := stable_argsort recalls in
    trapz (np_take precisions ind) (np_take recalls ind);
  precision_compute gt b :=
    fdiv (of_nat (count_true (zip_with andb gt b))) (of_nat (count_true b));
  recall_compute gt b :=
    fdiv (of_nat (count_true (zip_with andb gt b))) (of_nat (count_true gt));
  other_compute := [];
  F p r := fdiv (fmul (fmul f2 p) r) (fadd p r)
|}.

(** ** Reading the images ([Main._open_img], [_load_gt], [_read_image])

    [pathlib] and [PIL.Image] are taken as parameters.  A path is tested
    with [is_file]; an image has a size, and [np.array] of an image of one
    8-bit band (the modes ["L"] and ["1"] the program converts to) has one
    value below 256 per pixel.  [Image.open] is taken to succeed on a file
    that exists. *)
Class Imaging := {
  path : Type;
  path_eq_dec :: EqDecision path;
  (** [p.is_file()] *)
  is_file : path → bool;
  (** [p.with_suffix(ext)] *)
  with_suffix : path → string → path;
  (** [base / f.relative_to(root)]; [relative_to] raises [ValueError]
      when [f] is not below [root] *)
  rebase : path → path → path → result path;
  image : Type;
  Image_open : path → image;
  Image_size : image → nat * nat;
  Image_resize : image → nat * nat → image;
  Image_convert : image → string → image;
  (** [np.array(img).flatten()] *)
  pixels : image → list N;
  Image_resize_size : ∀ img size, Image_size (Image_resize img size) = size;
  Image_convert_size : ∀ img mode, Image_size (Image_convert img mode) = Image_size img;
  pixels_length : ∀ img mode,
    mode = "L" ∨ mode = "1" →
    length (pixels (Image_convert img mode))
    = ((Image_size img).1 * (Image_size img).2)%nat;
  pixels_range : ∀ img mode,
    mode = "L" ∨ mode = "1" →
    Forall (λ v, v < 256)%N (pixels (Image_convert img mode))
}.

Definition of_N (v : N) : float := Fin (Qc_of_Z (Z.of_N v)).

Section loader.
Context `{!Imaging}.

(** The attributes of [self] the loader reads: [self.resize], and the
    directories [self._predictions], [self._binarised] and
    [self.gt/self._test]. *)
Variable resize : option (nat * nat).
Variables _predictions _binarised gt_test : path.

(** [_open_img(f, convert)] with a mode given (lines 117-123); an empty
    size counts as no size ([if self.resize:]). *)
Definition _open_img (f : path) (convert : string) : image :=
  let img := Image_open f in
  let img := match resize with
             | Some size => Image_resize img size
             | None => img
             end in
  Image_convert img convert.

(** [_load_gt(gt_sample)] (line 126), a sample being given by its file. *)
Definition _load_gt (f : path) : list bool :=
  (λ v, bool_decide (v ≠ 0%N)) <$> pixels (_open_img f "1").

(** Lines 132-138 and 140-146: the [for ... else] over the three
    suffixes, each applied to the path the previous round left. *)
Fixpoint try_suffixes (f : path) (exts : list string) : option path :=
  match exts with
  | [] => None
  | ext :: exts' =>
      let f := with_suffix f ext in
      if is_file f then Some f else try_suffixes f exts'
  end.

Definition find_file (f : path) : option path :=
  if is_file f then Some f else try_suffixes f [".jpg"; ".jpeg"; ".png"].

(** [_read_image(gt_sample)] (lines 128-150); [None] is Python's [None]. *)
Definition _read_image (f : path) : result (option (list float * list bool)) :=
  let? pred_f := rebase _predictions f gt_test in
  let? bin_f := rebase _binarised f gt_test in
  match find_file pred_f with
  | None => Ok None
  | Some pred_f =>
      match find_file bin_f with
      | None => Ok None
      | Some bin_f =>
          let pred := (λ v, fdiv (of_N v) (of_nat 255)) <$> pixels (_open_img pred_f "L") in
          let bin_ := (λ v, bool_decide (v ≠ 0%N)) <$> pixels (_open_img bin_f "1") in
          Ok (Some (pred, bin_))
      end
  end.
End loader.

(** ** One train/test configuration of [Main.__call__] (lines 91-108)

    [Parallel(n_jobs=-1)(delayed(f)(x) for x in xs)] is the list of the
    [f(x)] in the order of [xs], an exception of a call being raised to
    the caller.  The keys of a dictionary comprehension are the first
    occurrences of the keys it is given, in order. *)

Fixpoint dict_keys {K} `{EqDecision K} (l : list K) : list K :=
  match l with
  | [] => []
  | k :: l' => k :: filter (λ k', k' ≠ k) (dict_keys l')
  end.

(** [d[k]] for the dictionary built from the items [items]: the value of
    the last item with key [k]. *)
Definition dict_get {K V} `{EqDecision K} (items : list (K * V)) (k : K) : option V :=
  snd <$> last (filter (λ x, x.1 = k) items).

(** [dict(items)] as the list of its items. *)
Definition dict_of {K V} `{EqDecision K} (items : list (K * V)) : list (K * V) :=
  omap (λ k, (λ v, (k, v)) <$> dict_get items k) (dict_keys items.*1).

(** The arrays of the per-sample means of line 106, one array per metric
    of the probabilistic and of the binarised modality. *)
Record Evals : Type := {
  pred_means : list (list float);
  bin_means : list (list float)
}.

Definition pred_metrics (pe : PredEval) : list Metric :=
  [pe_f1score pe; pe_precision pe; pe_recall pe; pe_iou pe; pe_auc pe].

Definition bin_metrics (be : BinEval) : list Metric :=
  be_precision be :: be_recall be :: be_others be.

Section configuration.
Context `{!Argsort, !Segmentation, !Imaging}.
Variable resize : option (nat * nat).
Variables _predictions _binarised gt_test : path.

(** What is pickled for a configuration: the samples evaluated, the arrays
    of their scores, their curves, and the three aggregate curves. *)
Definition configuration (dataset : list path) (interp : nat)
  : result (list path * Evals * list Plot * (Plot * Plot * Plot)) :=
  let threshold := np_linspace01 interp in
  let gts := _load_gt resize in
  (* Read predictions *)
  let? results := for_each (_read_image resize _predictions _binarised gt_test) dataset in
  let pred_bin := zip dataset results in
  (* This will filter out non-existing predictions *)
  let pred_bin_gt : list (path * (list float * list bool * list bool)) :=
    dict_of
      (omap (λ sample,
               match dict_get pred_bin sample with
               | Some (Some (pred, bin_)) => Some (sample, (pred, bin_, gts sample))
               | _ => None
               end) dataset) in
  (* Evaluate predictions against the ground truths *)
  let? evals_and_plots :=
    for_each (λ x : path * (list float * list bool * list bool),
                let '(pred, bin_, gt) := x.2 in evaluate pred bin_ gt) pred_bin_gt in
  let? first := getitem evals_and_plots 0 in
  let evals :=
    {| pred_means :=
         (λ k, (λ ep : PredEval * BinEval * Plot,
                  mean (default Metric_new (pred_metrics ep.1.1 !! k)))
               <$> evals_and_plots)
         <$> seq 0 (length (pred_metrics first.1.1));
       bin_means :=
         (λ k, (λ ep : PredEval * BinEval * Plot,
                  mean (default Metric_new (bin_metrics ep.1.2 !! k)))
               <$> evals_and_plots)
         <$> seq 0 (length (bin_metrics first.1.2)) |} in
  let plots := (λ ep : PredEval * BinEval * Plot, ep.2) <$> evals_and_plots in
  let? mean_plot := mean_and_std plots (inr threshold) in
  Ok (pred_bin_gt.*1, evals, plots, mean_plot).
End configuration.

(** ** Extra keyword arguments ([process_command_line_options], lines
    223-229, and [GUI.confirm], lines 377-383)

    [ast.literal_eval] is a parameter: it returns a value, raises
    [ValueError], or raises another exception ([SyntaxError] on text that
    does not parse).  A value of the [extra] dictionary is a literal, a
    string, or what [argparse] stored. *)
Inductive literal (V : Type) : Type :=
  | Literal (v : V)
  | LiteralValueError
  | LiteralError (e : string).
Arguments Literal {V} v.
Arguments LiteralValueError {V}.
Arguments LiteralError {V} e.

Inductive extra_value (V : Type) : Type :=
  | EvalValue (v : V)
  | EvalString (s : string)
  | EvalOther (b : bool).
Arguments EvalValue {V} v.
Arguments EvalString {V} s.
Arguments EvalOther {V} b.

Section extra.
Context {V : Type} (literal_eval : string → literal V).

(** The [try ... except ValueError] of lines 225-228: the dictionary
    after the assignment, or the exception that is not caught. *)
Definition set_extra (extra : gmap string (extra_value V)) (key value : string)
  : gmap string (extra_value V) + string :=
  match literal_eval value with
  | Literal v => inl (<[key := EvalValue v]> extra)
  | LiteralValueError => inl (<[key := EvalString value]> extra)
  | LiteralError e => inr e
  end.

Fixpoint set_extras (extra : gmap string (extra_value V)) (pairs : list (string * string))
  : gmap string (extra_value V) + string :=
  match pairs with
  | [] => inl extra
  | (key, value) :: pairs' =>
      match set_extra extra key value with
      | inl extra' => set_extras extra' pairs'
      | inr e => inr e
      end
  end.

(** Lines 223-229; [pairs] is [self.extra.extra], the [-e] options in the
    order given ([None] when there is none), [extra] the dictionary
    besides that entry. *)
Definition process_extra (pairs : option (list (string * string)))
    (extra : gmap string (extra_value V)) : gmap string (extra_value V) + string :=
  match pairs with
  | None | Some [] => inl extra
  | Some pairs =>
      match set_extras extra pairs with
      | inl extra' => inl (delete "extra" extra')
      | inr e => inr e
      end
  end.

(** Lines 377-383 of [GUI.confirm]: the key/value rows of the form, rows
    with an empty key being skipped. *)
Definition confirm_extra (pairs : list (string * string))
    (extra : gmap string (extra_value V)) : gmap string (extra_value V) + string :=
  set_extras extra (filter (λ kv, kv.1 ≠ "") pairs).
End extra.

(** ** The key/value rows of the form ([ExtraFrame], [KWFrame], lines
    389-435)

    A row is a widget with an identity and the grid row it was last
    placed in; the frame has the list [pairs] of its rows, its two column
    labels, shown or not, and the grid row of its [+] button. *)
Record ExtraFrame : Type := {
  pairs : list (nat * Z);
  labels_shown : bool;
  add_btn_row : Z
}.

(** [ExtraFrame.__init__]: [add_btn.grid()] takes the first empty row. *)
Definition ExtraFrame_init : ExtraFrame :=
  {| pairs := []; labels_shown := false; add_btn_row := 0 |}.

(** [update_labels_and_button] (lines 406-413) *)
Definition update_labels_and_button (s : ExtraFrame) : ExtraFrame :=
  {| pairs := pairs s;
     labels_shown := bool_decide (pairs s ≠ []);
     add_btn_row := Z.of_nat (length (pairs s)) + 1 |}.

(** [add_pair] (lines 400-404), [pair_frame] being the new widget. *)
Definition add_pair (s : ExtraFrame) (pair_frame : nat) : ExtraFrame :=
  let pairs' := pairs s ++ [(pair_frame, 0%Z)] in
  let pairs' := pairs s ++ [(pair_frame, Z.of_nat (length pairs'))] in
  update_labels_and_button
    {| pairs := pairs'; labels_shown := labels_shown s; add_btn_row := add_btn_row s |}.

(** [list.index]: the position of the first row with that identity. *)
Fixpoint index_of (l : list (nat * Z)) (x : nat) : option nat :=
  match l with
  | [] => None
  | (y, _) :: l' => if decide (y = x) then Some 0%nat else S <$> index_of l' x
  end.

(** [KWFrame.remove] (lines 429-435) on the row [self]; [list.index]
    raises [ValueError] for a row that is not in the list. *)
Definition KWFrame_remove (s : ExtraFrame) (self : nat) : result ExtraFrame :=
  match index_of (pairs s) self with
  | None => Raise (ValueError "x not in list")
  | Some i =>
      let pairs' := take i (pairs s) ++ drop (S i) (pairs s) in
      let pairs' := take i pairs' ++ ((λ p : nat * Z, (p.1, p.2 - 1)%Z) <$> drop i pairs') in
      Ok (update_labels_and_button
            {| pairs := pairs'; labels_shown := labels_shown s;
               add_btn_row := add_btn_row s |})
  end.

(** ** The start directory of the file dialogs ([GUI._browse_dir], lines
    349-352)

    [os.path.dirname] of [posixpath]: [i = p.rfind('/') + 1; head = p[:i];
    if head and head != '/'*len(head): head = head.rstrip('/')]. *)
Definition sep : Ascii.ascii := Ascii.ascii_of_nat 47.

(** [p[:p.rfind('/') + 1]] *)
Fixpoint up_to_last_sep (p : list Ascii.ascii) : list Ascii.ascii :=
  match p with
  | [] => []
  | c :: p' =>
      match up_to_last_sep p' with
      | [] => if decide (c = sep) then [c] else []
      | head => c :: head
      end
  end.

(** [head.rstrip('/')] *)
Fixpoint lstrip_sep (p : list Ascii.ascii) : list Ascii.ascii :=
  match p with
  | [] => []
  | c :: p' => if decide (c = sep) then lstrip_sep p' else p
  end.

Definition rstrip_sep (head : list Ascii.ascii) : list Ascii.ascii :=
  reverse (lstrip_sep (reverse head)).

Definition dirname (p : list Ascii.ascii) : list Ascii.ascii :=
  let head := up_to_last_sep p in
  if bool_decide (head ≠ []) && negb (bool_decide (head = replicate (length head) sep))
  then rstrip_sep head
  else head.

(** The loop of lines 351-352, [isdir] being [os.path.isdir] on the file
    system at hand: the directory the dialog starts in, or [None] when the
    loop has not ended after [rounds] rounds. *)
Fixpoint browse_start (isdir : list Ascii.ascii → bool) (rounds : nat) (init_dir : list Ascii.ascii)
  : option (list Ascii.ascii) :=
  if isdir init_dir then Some init_dir
  else match rounds with
       | 0%nat => None
       | S rounds' => browse_start isdir rounds' (dirname init_dir)
       end.

(** [GUI._browse_file] (lines 358-361): the loop starts from the directory
    part of the entry. *)
Definition browse_file_start (isdir : list Ascii.ascii → bool) (rounds : nat)
    (entry : list Ascii.ascii) : option (list Ascii.ascii) :=
  browse_start isdir rounds (dirname entry).

(** ** The loop over the models and the train/test configurations
    ([Main.__call__], lines 66-115)

    Of the file system the loop sees the pickle files, given with their
    content, and the directories, given by [is_dir]; [compute] is the body
    of lines 91-108, which reads no pickle file.  [mkdir], [open] and
    [pickle.dump] are taken to succeed. *)
Class Layout := {
  Path : Type;
  Path_eq_dec :: EqDecision Path;
  Path_countable :: Countable Path;
  name : Type;
  (** [TRAIN_DATASETS] and the keys of [TEST_DATASETS] *)
  TRAIN_DATASETS : list name;
  TEST_DATASETS : list name;
  (** [model/train/test/'Predictions'] *)
  _predictions : Path → name → name → Path;
  (** [model/train/test/'Binarised'] *)
  _binarised : Path → name → name → Path;
  (** [model/f'Pickles/{train}_{test}.pkl'] *)
  save_f : Path → name → name → Path;
  (** [str(p)] *)
  str : Path → string
}.

Section configurations.
Context `{!Layout} {pickle : Type}.

(** [list(it.product(TRAIN_DATASETS, TEST_DATASETS))] *)
Definition tt_configs : list (name * name) :=
  train ← TRAIN_DATASETS; test ← TEST_DATASETS; [(train, test)].

(** Lines 85-108: the two directory tests, then the body. *)
Definition evaluate_configuration (is_dir : Path → bool)
    (compute : Path → name → name → result pickle) (model : Path) (tt : name * name)
  : result pickle :=
  if negb (is_dir (_predictions model tt.1 tt.2)) then
    Raise (ValueError (str (_predictions model tt.1 tt.2) +:+ " is not a directory."))
  else if negb (is_dir (_binarised model tt.1 tt.2)) then
    Raise (ValueError (str (_binarised model tt.1 tt.2) +:+ " is not a directory."))
  else compute model tt.1 tt.2.

(** Lines 78-115 for one configuration: the pickle files afterwards and the
    exception raised, if any; [overwrite] is the truth value of
    [self.extra.get('overwrite', False)]. *)
Definition one_configuration (overwrite : bool) (is_dir : Path → bool)
    (compute : Path → name → name → result pickle)
    (files : gmap Path pickle) (model : Path) (tt : name * name)
  : gmap Path pickle * option exn :=
  if negb overwrite && bool_decide (is_Some (files !! save_f model tt.1 tt.2)) then
    (files, None)
  else
    match evaluate_configuration is_dir compute model tt with
    | Ok r => (<[save_f model tt.1 tt.2 := r]> files, None)
    | Raise e => (files, Some e)
    end.

(** A [for] loop whose body changes the files and may raise. *)
Fixpoint for_files {C} (body : gmap Path pickle → C → gmap Path pickle * option exn)
    (files : gmap Path pickle) (l : list C) : gmap Path pickle * option exn :=
  match l with
  | [] => (files, None)
  | c :: l' =>
      match body files c with
      | (files', None) => for_files body files' l'
      | raised => raised
      end
  end.

(** Lines 66-115, [models] being [list(self.models.iterdir())]. *)
Definition evaluate_models (overwrite : bool) (is_dir : Path → bool)
    (compute : Path → name → name → result pickle)
    (files : gmap Path pickle) (models : list Path) : gmap Path pickle * option exn :=
  for_files
    (λ files model,
       for_files (λ files tt, one_configuration overwrite is_dir compute files model tt)
         files tt_configs)
    files models.
End configurations.

(** ** numpy: arithmetic in binary64

    The arrays of the program hold IEEE-754 binary64 numbers, and every
    sum, difference, product and quotient is rounded to the nearest such
    number, ties to the even significand.  [round64 q] is that number for
    a rational [q], the limits of the exponent range left aside: the
    product of an integer [m] below [2^53] and a power of two. *)
Definition round_half_even (a b : Z) : Z :=
  let q := (a / b)%Z in
  match (2 * (a mod b) ?= b)%Z with
  | Lt => q
  | Gt => (q + 1)%Z
  | Eq => if Z.even q then q else (q + 1)%Z
  end.

(** [n / d] for positive [n] and [d]. *)
Definition round64_pos (n d : Z) : Q :=
  let scaled (e : Z) : Z * Z :=
    if (0 <=? e)%Z then (n, d * 2 ^ e)%Z else (n * 2 ^ (- e), d)%Z in
  let k := (Z.log2 n - Z.log2 d - 52)%Z in
  let e := if ((scaled k).1 <? 2 ^ 52 * (scaled k).2)%Z then (k - 1)%Z else k in
  let m := round_half_even (scaled e).1 (scaled e).2 in
  if (0 <=? e)%Z then (m * 2 ^ e)%Z # 1 else m # Z.to_pos (2 ^ (- e)).

Definition round64 (q : Qc) : Qc :=
  match Qnum q with
  | Z0 => 0
  | Zpos n => Q2Qc (round64_pos (Zpos n) (Zpos (Qden q)))
  | Zneg n => - Q2Qc (round64_pos (Zpos n) (Zpos (Qden q)))
  end.

Definition fl (x : float) : float :=
  match x with
  | Fin q => Fin (round64 q)
  | _ => x
  end.

Definition add64 (x y : float) : float := fl (fadd x y).
Definition sub64 (x y : float) : float := fl (fsub x y).
Definition mul64 (x y : float) : float := fl (fmul x y).
Definition div64 (x y : float) : float := fl (fdiv x y).

(** [a.mean(0)] on one column of a matrix: the values are added one after
    the other, from the first row on, and the sum is divided by their
    number. *)
Definition mean64 (col : list float) : float :=
  match col with
  | [] => NaN
  | x :: xs => div64 (foldl add64 x xs) (of_nat (length col))
  end.

(** [a.var(0)] on one column: the mean of the squares of the deviations
    from the mean; [a.std(0)] is its square root. *)
Definition var64 (col : list float) : float :=
  let arrmean := mean64 col in
  mean64 ((λ x, let d := sub64 x arrmean in mul64 d d) <$> col).

(** * Vocabulary of the statements *)

Definition finite (x : float) : Prop := np_isfinite x = true.

(** Line 170: the repaired recall array. *)
Definition repair (recalls : list float) : list float :=
  (λ r, if np_isfinite r then r else f0) <$> recalls.

(** The labels in decreasing score order and the indices at which the
    score changes, as computed inside [_binary_clf_curve]. *)
Definition sorted_labels (y_true : list bool) (y_score : list float) : list bool :=
  np_take y_true (reverse (stable_argsort y_score)).

Definition threshold_idxs (y_score : list float) : list nat :=
  distinct_value_indices (np_take y_score (reverse (stable_argsort y_score)))
  ++ [length y_score - 1]%nat.

(** True positives among the [k+1] best-scored samples. *)
Definition tp_at (labels : list bool) (k : nat) : nat := count_true (take (S k) labels).

Definition prec_at (labels : list bool) (k : nat) : float :=
  fdiv (of_nat (tp_at labels k)) (of_nat (S k)).

Definition rec_at (labels : list bool) (k : nat) : float :=
  fdiv (of_nat (tp_at labels k)) (of_nat (count_true labels)).

Definition nq (n : nat) : Qc := Qc_of_Z (Z.of_nat n).

(** What is known of a raw curve [(precisions, recalls)], recall repaired. *)
Record raw_curve_ok (precisions recalls : list float) : Prop := {
  raw_length : length precisions = length recalls;
  raw_nonempty : (0 < length recalls)%nat;
  raw_recalls_finite : Forall finite recalls;
  raw_precisions_finite : Forall finite precisions;
  raw_nonneg : ∀ i, (i < length recalls)%nat →
     fleb f0 (recalls !!! i) = true ∧ fleb f0 (precisions !!! i) = true;
  raw_final : ∃ c, (c < length recalls)%nat ∧ recalls !!! c = f0 ∧ precisions !!! c = f1_;
  raw_no_ties : ∀ a b,
    (a < length recalls)%nat → (b < length recalls)%nat → a ≠ b →
    recalls !!! a = recalls !!! b → precisions !!! a = precisions !!! b →
    ∃ c, (c < length recalls)%nat ∧ recalls !!! c = recalls !!! a
         ∧ fltb (precisions !!! a) (precisions !!! c) = true;
  raw_sorted : StronglySorted (λ x y, fleb y x = true) recalls
}.

Definition F1_of (p r : float) : float := fdiv (fmul (fmul f2 p) r) (fadd p r).

(** The arrays the names [pred] and [bin_] refer to after lines 156-162. *)
Definition repaired_pred (pred : list float) : result (list float) :=
  if np_any pred then Ok pred
  else if decide (0 < length pred)%nat then Ok (<[0%nat := 1 // 2]> pred)
       else Raise IndexError.

Definition repaired_bin (bin_ : list bool) : result (list bool) :=
  if np_any_bool bin_ then Ok bin_
  else if decide (0 < length bin_)%nat then Ok (<[0%nat := true]> bin_)
       else Raise IndexError.

(** The error raised for a grid point outside the recall range. *)
Definition out_of_domain (e : exn) : Prop :=
  e = ValueError below_msg ∨ e = ValueError above_msg.

(** [g] lies within the recall range of the curve. *)
Definition in_range (x : list float) (g : float) : Prop :=
  ∃ r1 r2, r1 ∈ x ∧ r2 ∈ x ∧ fleb r1 g = true ∧ fleb g r2 = true.

(** A curve as the aggregator expects it: recall and precision of one
    length, at least two points, recall without special values. *)
Definition valid_curve (c : Plot) : Prop :=
  length (precision c) = length (recall c)
  ∧ (2 ≤ length (recall c))%nat
  ∧ Forall finite (recall c).

(** Line 258-261: the grid, given or materialised from a point count. *)
Definition grid_of (interp : nat + list float) : list float :=
  match interp with
  | inl num => np_linspace01 num
  | inr grid => grid
  end.

(** The curves the program produces. *)
Inductive produced `{!Argsort, !Segmentation} : Plot → Prop :=
  | produced_evaluate pred bin_ gt pe be plot :
      evaluate pred bin_ gt = Ok (pe, be, plot) → produced plot
  | produced_mean plots interp mean lower upper :
      mean_and_std plots interp = Ok (mean, lower, upper) → produced mean
  | produced_lower plots interp mean lower upper :
      mean_and_std plots interp = Ok (mean, lower, upper) → produced lower
  | produced_upper plots interp mean lower upper :
      mean_and_std plots interp = Ok (mean, lower, upper) → produced upper.

(** ** The scenarios of the specification *)

Definition scen1_gt : list bool := [true; true; false; false].
Definition scen1_pred : list float := [9 // 10; 8 // 10; 1 // 10; 2 // 10].
Definition scen1_bin : list bool := [true; true; false; false].

Definition scen2_gt : list bool := [false; false; false; false].
Definition scen2_pred : list float := [1 // 10; 2 // 10; 3 // 10; 4 // 10].
Definition scen2_bin : list bool := [false; false; false; false].

Definition scen3_c1 : Plot :=
  {| recall := [0 // 1; 1 // 1]; precision := [1 // 1; 0 // 1]; threshold := None;
     f1 := [0 // 1; 0 // 1]; f1_point := None; bin_point := Some (0 // 1, 0 // 1) |}.
Definition scen3_c2 : Plot :=
  {| recall := [0 // 1; 1 // 1]; precision := [1 // 2; 1 // 2]; threshold := None;
     f1 := [0 // 1; 2 // 3]; f1_point := None; bin_point := Some (0 // 1, 0 // 1) |}.
Definition scen3_grid : list float := [0 // 1; 1 // 2; 1 // 1].


(** [x] is a number of the interval [0, 1]. *)
Definition unit_interval (x : float) : Prop := ∃ q, x = Fin q ∧ 0 ≤ q ∧ q ≤ 1.

(** The curves emitted by [_evaluate_and_plot]. *)
Definition evaluated `{!Argsort, !Segmentation} (c : Plot) : Prop :=
  ∃ pred bin_ gt pe be, evaluate pred bin_ gt = Ok (pe, be, c).

(** The paths [find_file] tries, in order. *)
Fixpoint suffix_candidates `{!Imaging} (f : path) (exts : list string) : list path :=
  match exts with
  | [] => []
  | ext :: exts' => with_suffix f ext :: suffix_candidates (with_suffix f ext) exts'
  end.

Definition candidates `{!Imaging} (f : path) : list path :=
  f :: suffix_candidates f [".jpg"; ".jpeg"; ".png"].

(** What a value text is stored as. *)
Definition stored {V} (literal_eval : string → literal V) (value : string)
  : extra_value V :=
  match literal_eval value with
  | Literal v => EvalValue v
  | _ => EvalString value
  end.

(** [literal_eval] raises no exception but [ValueError] on the text. *)
Definition parses {V} (literal_eval : string → literal V) (value : string) : Prop :=
  ∀ e, literal_eval value ≠ LiteralError e.

(** One click: [+] with a new row widget, or [-] on a row. *)
Inductive frame_step (s : ExtraFrame) : ExtraFrame → Prop :=
  | step_add pair_frame :
      pair_frame ∉ (pairs s).*1 → frame_step s (add_pair s pair_frame)
  | step_remove self s' :
      KWFrame_remove s self = Ok s' → frame_step s s'.

(** The layout: the rows stand in the grid rows [1 .. n] in list order,
    the labels show when there is a row, and the [+] button stands below
    the last row (in row 0 as long as nothing was clicked). *)
Definition layout_ok (s : ExtraFrame) : Prop :=
  (pairs s).*2 = (λ i, Z.of_nat i) <$> seq 1 (length (pairs s))
  ∧ NoDup (pairs s).*1
  ∧ labels_shown s = bool_decide (pairs s ≠ [])
  ∧ (add_btn_row s = (Z.of_nat (length (pairs s)) + 1)%Z
     ∨ s = ExtraFrame_init).

(** A path made of separators only, such as [/]. *)
Definition all_sep (p : list Ascii.ascii) : Prop := p = replicate (length p) sep.

(** A number that is not negative. *)
Definition nonneg (x : float) : Prop := ∃ q, x = Fin q ∧ 0 ≤ q.

(** A [literal_eval] for running the model: ["1"] denotes the number 1,
    ["("] does not parse, any other text is no literal. *)
Definition test_literal_eval (s : string) : literal nat :=
  if decide (s = "1") then Literal 1%nat
  else if decide (s = "(") then LiteralError "SyntaxError"
  else LiteralValueError.

Section configurations_vocabulary.
Context `{!Layout} {pickle : Type}.

(** The configurations in the order the two loops visit them. *)
Definition configurations (models : list Path) : list (Path * (name * name)) :=
  model ← models; tt ← tt_configs; [(model, tt)].

(** The pickle file of a configuration. *)
Definition pickle_of (c : Path * (name * name)) : Path := save_f c.1 c.2.1 c.2.2.

(** The loop from some configuration on. *)
Definition evaluate_from (overwrite : bool) (is_dir : Path → bool)
    (compute : Path → name → name → result pickle)
    (files : gmap Path pickle) (cs : list (Path * (name * name)))
  : gmap Path pickle * option exn :=
  for_files (λ files c, one_configuration overwrite is_dir compute files c.1 c.2) files cs.

(** What a configuration leaves in its pickle file when it is computed. *)
Definition pickled (is_dir : Path → bool) (compute : Path → name → name → result pickle)
    (c : Path * (name * name)) : option pickle :=
  match evaluate_configuration is_dir compute c.1 c.2 with
  | Ok r => Some r
  | Raise _ => None
  end.
End configurations_vocabulary.

(** A layout of two train and one test data set, models and data sets
    given by their names. *)
Definition test_layout : Layout := {|
  Path := string; name := string;
  TRAIN_DATASETS := ["All"; "SMD"]; TEST_DATASETS := ["SLD"];
  _predictions model train test := model +:+ "/" +:+ train +:+ "/" +:+ test +:+ "/Predictions";
  _binarised model train test := model +:+ "/" +:+ train +:+ "/" +:+ test +:+ "/Binarised";
  save_f model train test := model +:+ "/Pickles/" +:+ train +:+ "_" +:+ test +:+ ".pkl";
  str p := p
|}.


(** * Properties *)

(** ** The primitives on small inputs *)

Example ex1 : fdiv (1 // 2) (1 // 4) = 2 // 1.
Proof. by_eval. Qed.
Example ex2 : fsqrt (1 // 16) = 1 // 4.
Proof. by_eval. Qed.
Example ex3 : stable_argsort [1//2; 0//1; 1//2; NaN; 0//1] = [1;4;0;2;3]%nat.
Proof. by_eval. Qed.
Example ex4 : np_unique_index [0//1; 0//1; 1//2; 1//2; 1//1] = [0;2;4]%nat.
Proof. by_eval. Qed.
Example ex5 : np_split [5;6;7;8;9]%nat [2;4]%nat = [[5;6];[7;8];[9]]%nat.
Proof. by_eval. Qed.
Example ex6 : np_cumsum [1//1; 0//1; 1//1] = [1//1; 1//1; 2//1].
Proof. by_eval. Qed.
Example ex7 : np_argmax [1//1; NaN; 3//1] = Ok 1%nat.
Proof. by_eval. Qed.
Example ex8 : np_linspace01 3 = [0//1; 1//2; 1//1].
Proof. by_eval. Qed.
Example ex9 :
  precision_recall_curve [true;true;false;false] [9//10; 8//10; 1//10; 2//10]
  = Ok ([1//1; 1//1; 1//1], [1//1; 1//2; 0//1], [8//10; 9//10]).
Proof. by_eval. Qed.
Example ex10 :
  precision_recall_curve [false;false;false;false] [1//10; 2//10; 3//10; 4//10]
  = Ok ([0//1; 1//1], [NaN; 0//1], [4//10]).
Proof. by_eval. Qed.
Example ex11 :
  precision_recall_curve [false;true;true;false;true] [1//2; 1//2; 1//10; 2//10;1//1]
  = Ok ([3//5; 1//2; 2//3; 1//1; 1//1], [1//1; 2//3; 2//3;1//3; 0//1], [1//10; 2//10; 1//2; 1//1]).
Proof. by_eval. Qed.

(** ** Order on floating-point values *)

Lemma finite_Fin q : finite (Fin q).
Proof. done. Qed.

Lemma finite_inv x : finite x → ∃ q, x = Fin q.
Proof. destruct x; [eauto|done..]. Qed.

Lemma fltb_Fin a b : fltb (Fin a) (Fin b) = true ↔ a < b.
Proof. simpl. apply bool_decide_eq_true. Qed.

Lemma feqb_Fin a b : feqb (Fin a) (Fin b) = true ↔ a = b.
Proof. simpl. rewrite bool_decide_eq_true. split; [by intros [= ->] | by intros ->]. Qed.

Lemma fleb_Fin a b : fleb (Fin a) (Fin b) = true ↔ a ≤ b.
Proof.
  unfold fleb. rewrite orb_true_iff, fltb_Fin, feqb_Fin. split.
  - intros [?| ->]; [by apply Qclt_le_weak | apply Qcle_refl].
  - intros H. destruct (Qcle_lt_or_eq _ _ H); auto.
Qed.

Lemma fneb_Fin a b : fneb (Fin a) (Fin b) = true ↔ a ≠ b.
Proof.
  unfold fneb. rewrite negb_true_iff, <- not_true_iff_false, feqb_Fin. done.
Qed.

Lemma np_lt_Fin a b : np_lt (Fin a) (Fin b) = fltb (Fin a) (Fin b).
Proof. unfold np_lt. simpl. by rewrite orb_false_r. Qed.

Lemma feqb_eq x y : feqb x y = true → x = y.
Proof. destruct x, y; simpl; try done; by intros ?%bool_decide_eq_true. Qed.

Lemma feqb_finite_refl x : finite x → feqb x x = true.
Proof. intros [q ->]%finite_inv. by apply feqb_Fin. Qed.

Lemma np_lt_asym x y : np_lt x y = true → np_lt y x = false.
Proof.
  destruct x as [a|[]|], y as [b|[]|]; try done.
  rewrite !np_lt_Fin. intros H%fltb_Fin. apply not_true_iff_false.
  intros H'%fltb_Fin. by destruct (Qclt_not_le _ _ H); apply Qclt_le_weak.
Qed.

Lemma np_lt_negtrans x y z :
  np_lt y x = false → np_lt z y = false → np_lt z x = false.
Proof.
  destruct x as [a|[]|], y as [b|[]|], z as [c|[]|]; try done.
  rewrite !np_lt_Fin, <- !not_true_iff_false, !fltb_Fin.
  intros H1%Qcnot_lt_le H2%Qcnot_lt_le. apply Qcle_not_lt. by etrans.
Qed.

(** ** Stable sorting *)

Section stable_sort.
Context {A : Type} (lt : A → A → bool).
Implicit Types (x : A) (l : list A).

Lemma insert_by_perm x l : insert_by lt x l ≡ₚ x :: l.
Proof.
  induction l as [|y l IH]; simpl; [done|].
  case_match; [|done]. rewrite IH. apply Permutation_swap.
Qed.

Lemma stable_sort_by_perm l : stable_sort_by lt l ≡ₚ l.
Proof.
  induction l as [|x l IH]; simpl; [done|].
  by rewrite insert_by_perm, IH.
Qed.

Lemma stable_sort_by_length l : length (stable_sort_by lt l) = length l.
Proof. by rewrite stable_sort_by_perm. Qed.

(** [le x y] when [y] is not strictly below [x]. *)
Definition not_gt x y : Prop := lt y x = false.

Hypothesis lt_asym : ∀ x y, lt x y = true → lt y x = false.
Hypothesis lt_negtrans : ∀ x y z, lt y x = false → lt z y = false → lt z x = false.

Lemma insert_by_sorted x l :
  StronglySorted not_gt l → StronglySorted not_gt (insert_by lt x l).
Proof.
  induction 1 as [|y l Hl IH Hy]; simpl.
  - repeat constructor.
  - destruct (lt y x) eqn:E.
    + constructor; [done|]. rewrite insert_by_perm. constructor; [|done].
      by apply lt_asym.
    + constructor; [by constructor|]. constructor; [done|].
      eapply Forall_impl; [exact Hy|]. intros z Hz. by eapply lt_negtrans.
Qed.

Lemma stable_sort_by_sorted l : StronglySorted not_gt (stable_sort_by lt l).
Proof.
  induction l as [|x l IH]; simpl; [constructor|]. by apply insert_by_sorted.
Qed.

(** A sorted list is left as it is. *)
Lemma stable_sort_by_id l : StronglySorted not_gt l → stable_sort_by lt l = l.
Proof.
  induction 1 as [|x l Hl IH Hx]; simpl; [done|]. rewrite IH.
  destruct l as [|y l]; simpl; [done|].
  apply Forall_cons in Hx as [Hxy _]. unfold not_gt in Hxy. by rewrite Hxy.
Qed.
End stable_sort.

Lemma stable_argsort_perm a : stable_argsort a ≡ₚ seq 0 (length a).
Proof. apply stable_sort_by_perm. Qed.

Lemma stable_argsort_sorted a :
  StronglySorted (λ x y, np_lt y x = false) (np_take a (stable_argsort a)).
Proof.
  unfold np_take, stable_argsort.
  eapply StronglySorted_fmap; [|apply stable_sort_by_sorted].
  - intros i j H. exact H.
  - intros i j. apply np_lt_asym.
  - intros i j k. apply np_lt_negtrans.
Qed.

(** The stable kind is one possible behaviour of [np.argsort]. *)
Definition stable_Argsort : Argsort :=
  {| argsort := stable_argsort;
     argsort_perm := stable_argsort_perm;
     argsort_sorted := stable_argsort_sorted |}.

(** ** Index arrays *)

Lemma np_take_length {A} `{Inhabited A} (a : list A) idx :
  length (np_take a idx) = length idx.
Proof. unfold np_take. by rewrite length_fmap. Qed.

Lemma np_take_seq {A} `{Inhabited A} (a : list A) :
  np_take a (seq 0 (length a)) = a.
Proof.
  apply list_eq. intros i. unfold np_take. rewrite list_lookup_fmap.
  destruct (decide (i < length a)%nat) as [Hi|Hi].
  - rewrite lookup_seq_lt by done. simpl.
    destruct (lookup_lt_is_Some_2 a i Hi) as [x Hx].
    by rewrite (list_lookup_total_correct _ _ _ Hx).
  - rewrite lookup_seq_ge by lia. rewrite lookup_ge_None_2 by lia. done.
Qed.

Lemma np_delete_nil {A} `{Inhabited A} (a : list A) : np_delete a [] = a.
Proof.
  unfold np_delete.
  assert (∀ l : list nat, filter (λ i, i ∉ []) l = l) as ->; [|apply np_take_seq].
  induction l as [|x l IH]; [done|].
  rewrite filter_cons_True by apply not_elem_of_nil. by rewrite IH.
Qed.

Section np_split.
Context {A : Type}.
Implicit Types (s : list A) (cuts : list nat).

Fixpoint pieces s (st : nat) cuts : list (list A) :=
  match cuts with
  | [] => [slice s st (length s)]
  | c :: cuts' => slice s st c :: pieces s c cuts'
  end.

Lemma np_split_pieces s cuts : np_split s cuts = pieces s 0 cuts.
Proof.
  unfold np_split. simpl. generalize 0%nat.
  induction cuts as [|c cuts IH]; intros st; simpl; [done|]. by rewrite IH.
Qed.

(** Walking along [s]: a set mask bit closes the current piece. *)
Fixpoint chunks_acc (cur : list A) (mask : list bool) s : list (list A) :=
  match mask, s with
  | m :: mask', x :: s' =>
      if m then cur :: chunks_acc [x] mask' s'
      else chunks_acc (cur ++ [x]) mask' s'
  | _, _ => [cur]
  end.

Lemma slice_end s st : slice s st (length s) = drop st s.
Proof. unfold slice. apply take_ge. rewrite length_drop. lia. Qed.

Lemma slice_snoc s st k x :
  (st ≤ k)%nat → s !! k = Some x → slice s st (S k) = slice s st k ++ [x].
Proof.
  intros Hk Hx. unfold slice. replace (S k - st)%nat with (S (k - st)) by lia.
  apply take_S_r. rewrite lookup_drop. by replace (st + (k - st))%nat with k by lia.
Qed.

Lemma slice_one s k x : s !! k = Some x → slice s k (S k) = [x].
Proof.
  intros Hx. rewrite (slice_snoc _ _ _ x) by done.
  unfold slice. by rewrite Nat.sub_diag, take_0.
Qed.

Lemma pieces_chunks s mask : ∀ st k,
  (st ≤ k)%nat → (k + length mask = length s)%nat →
  pieces s st (np_compress mask (seq k (length mask)))
  = chunks_acc (slice s st k) mask (drop k s).
Proof.
  induction mask as [|m mask IH]; intros st k Hst Hk; simpl in *.
  - replace k with (length s) by lia. by rewrite slice_end.
  - destruct (lookup_lt_is_Some_2 s k ltac:(lia)) as [x Hx].
    rewrite (drop_S _ _ _ Hx). destruct m; simpl.
    + rewrite (IH k (S k)) by lia. by rewrite (slice_one _ _ x).
    + rewrite (IH st (S k)) by lia. by rewrite (slice_snoc _ _ _ x).
Qed.
End np_split.

(** ** Runs of equal values in a sorted array *)

Lemma fltb_irrefl x : fltb x x = false.
Proof.
  destruct x as [a|[]|]; try done. apply not_true_iff_false.
  intros H%fltb_Fin. by apply Qclt_not_eq in H.
Qed.

Lemma np_le_neq_lt x y :
  finite x → finite y → np_lt y x = false → fneb y x = true → fltb x y = true.
Proof.
  intros [a ->]%finite_inv [b ->]%finite_inv.
  rewrite np_lt_Fin, <- not_true_iff_false, fltb_Fin, fneb_Fin, fltb_Fin.
  intros H1%Qcnot_lt_le H2. destruct (Qcle_lt_or_eq _ _ H1); [done|]. congruence.
Qed.

Section runs.
Context {A : Type} (val : A → float).
Implicit Types (s cur g : list A) (gs : list (list A)).

Fixpoint runs_acc cur (prev : float) s : list (list A) :=
  match s with
  | [] => [cur]
  | x :: s' =>
      if fneb (val x) prev then cur :: runs_acc [x] (val x) s'
      else runs_acc (cur ++ [x]) (val x) s'
  end.

Lemma chunks_runs s : ∀ cur prev,
  chunks_acc cur (unique_mask prev (val <$> s)) s = runs_acc cur prev s.
Proof.
  induction s as [|x s IH]; intros cur prev; simpl; [done|].
  by rewrite !IH.
Qed.

Lemma runs_acc_join s : ∀ cur prev, mjoin (runs_acc cur prev s) = cur ++ s.
Proof.
  induction s as [|x s IH]; intros cur prev; simpl.
  - by rewrite app_nil_r.
  - destruct (fneb (val x) prev); simpl; rewrite IH; [done|].
    by rewrite <- app_assoc.
Qed.

(** All members of a group carry one value. *)
Definition uniform g : Prop := g ≠ [] ∧ ∀ x y, x ∈ g → y ∈ g → val x = val y.

(** Every member of [g] lies strictly below every member of [g']. *)
Definition below g g' : Prop := ∀ x y, x ∈ g → y ∈ g' → fltb (val x) (val y) = true.

Lemma runs_acc_uniform s : ∀ cur prev,
  cur ≠ [] → (∀ x, x ∈ cur → val x = prev) →
  Forall uniform (runs_acc cur prev s).
Proof.
  induction s as [|x s IH]; intros cur prev Hne Hcur; simpl.
  - constructor; [|done]. split; [done|]. intros y z Hy Hz.
    by rewrite (Hcur y), (Hcur z).
  - destruct (fneb (val x) prev) eqn:E.
    + constructor.
      * split; [done|]. intros y z Hy Hz. by rewrite (Hcur y), (Hcur z).
      * apply IH; [done|]. by intros y ->%list_elem_of_singleton.
    + apply IH; [by destruct cur|].
      apply negb_false_iff, feqb_eq in E.
      intros y [Hy| ->%list_elem_of_singleton]%elem_of_app; [|done].
      by rewrite (Hcur y), E.
Qed.

Lemma runs_acc_below s : ∀ cur prev,
  (∀ x, x ∈ cur → val x = prev) →
  Forall (λ x, finite (val x)) (cur ++ s) →
  StronglySorted (λ x y, np_lt y x = false) (val <$> (cur ++ s)) →
  StronglySorted below (runs_acc cur prev s).
Proof.
  induction s as [|x s IH]; intros cur prev Hcur Hfin Hs; simpl.
  - repeat constructor.
  - destruct (fneb (val x) prev) eqn:E.
    + rewrite fmap_app in Hs. apply StronglySorted_app in Hs as (Hs12 & Hs1 & Hs2).
      apply Forall_app in Hfin as [Hfin1 Hfin2].
      constructor.
      * apply (IH [x]); [by intros y ->%list_elem_of_singleton|done..].
      * apply Forall_forall. intros g Hg c y Hc Hy.
        assert (y ∈ x :: s) as Hyxs.
        { change (x :: s) with ([x] ++ s). rewrite <- (runs_acc_join s [x] (val x)).
          apply list_elem_of_join. eauto. }
        assert (np_lt (val y) (val c) = false) as Hle.
        { apply Hs12; by apply list_elem_of_fmap_2. }
        assert (np_lt (val x) (val c) = false) as Hlex.
        { apply Hs12; apply list_elem_of_fmap_2; [done|]. by left. }
        rewrite Forall_forall in Hfin1, Hfin2.
        assert (fltb (val c) (val x) = true) as Hlt.
        { apply np_le_neq_lt; [auto|apply Hfin2, list_elem_of_here|done|].
          by rewrite (Hcur c). }
        apply elem_of_cons in Hyxs as [->|Hys]; [done|].
        assert (np_lt (val y) (val x) = false) as Hxy.
        { simpl in Hs2. apply StronglySorted_inv in Hs2 as [_ Hs2].
          rewrite Forall_forall in Hs2. by apply Hs2, list_elem_of_fmap_2. }
        destruct (finite_inv (val c)) as [qc Hqc]; [auto|].
        destruct (finite_inv (val x)) as [qx Hqx]; [apply Hfin2, list_elem_of_here|].
        destruct (finite_inv (val y)) as [qy Hqy]; [apply Hfin2; by right|].
        rewrite Hqc, Hqx, Hqy in *. rewrite np_lt_Fin, <- not_true_iff_false, fltb_Fin in Hxy.
        apply fltb_Fin. apply fltb_Fin in Hlt. apply Qcnot_lt_le in Hxy.
        by eapply Qclt_le_trans.
    + apply negb_false_iff, feqb_eq in E.
      apply IH.
      * intros y [Hy| ->%list_elem_of_singleton]%elem_of_app; [|done].
        by rewrite (Hcur y), E.
      * by rewrite <- app_assoc.
      * by rewrite <- app_assoc.
Qed.

Lemma below_same_group gs g g' x y :
  StronglySorted below gs → g ∈ gs → g' ∈ gs →
  x ∈ g → y ∈ g' → val x = val y → g = g'.
Proof.
  intros Hgs. revert g g'.
  assert (∀ g g', below g g' → x ∈ g → y ∈ g' → val x = val y → False) as Hd1.
  { intros g g' Hb Hx Hy Hxy. specialize (Hb x y Hx Hy).
    by rewrite Hxy, fltb_irrefl in Hb. }
  assert (∀ g g', below g' g → x ∈ g → y ∈ g' → val x = val y → False) as Hd2.
  { intros g g' Hb Hx Hy Hxy. specialize (Hb y x Hy Hx).
    by rewrite Hxy, fltb_irrefl in Hb. }
  induction Hgs as [|g0 gs Hgs IH Hg0]; intros g g' Hg Hg' Hx Hy Hxy.
  - by apply elem_of_nil in Hg.
  - rewrite Forall_forall in Hg0.
    apply elem_of_cons in Hg as [->|Hg], Hg' as [->|Hg']; [done| | |by eauto].
    + destruct (Hd1 g0 g'); auto.
    + destruct (Hd2 g g0); auto.
Qed.
End runs.

(** ** The groups of equal recall (lines 171-175) *)

Lemma sorted_seq (R : relation float) (v : list float) : ∀ pre,
  StronglySorted R v →
  StronglySorted (λ i j, R ((pre ++ v) !!! i) ((pre ++ v) !!! j))
    (seq (length pre) (length v)).
Proof.
  induction v as [|x v IH]; intros pre Hv; simpl; [constructor|].
  apply StronglySorted_inv in Hv as [Hv Hx]. constructor.
  - specialize (IH (pre ++ [x]) Hv).
    rewrite length_app, Nat.add_1_r, <- app_assoc in IH. exact IH.
  - apply Forall_forall. intros j [Hj1 Hj2]%elem_of_seq.
    rewrite list_lookup_total_middle by done.
    rewrite Forall_forall in Hx. apply Hx.
    replace j with (length (pre ++ [x]) + (j - S (length pre)))%nat
      by (rewrite length_app; simpl; lia).
    rewrite (assoc_L (++) pre [x] v : pre ++ x :: v = (pre ++ [x]) ++ v).
    rewrite lookup_total_app_r by lia.
    replace (length (pre ++ [x]) + (j - S (length pre)) - length (pre ++ [x]))%nat
      with (j - S (length pre))%nat by lia.
    apply list_elem_of_lookup_total_2. lia.
Qed.

Lemma stable_argsort_sorted_id v :
  StronglySorted (λ x y, np_lt y x = false) v → stable_argsort v = seq 0 (length v).
Proof.
  intros Hv. unfold stable_argsort. apply stable_sort_by_id.
  exact (sorted_seq _ v [] Hv).
Qed.

Lemma unique_mask_length prev aux : length (unique_mask prev aux) = length aux.
Proof. revert prev. induction aux as [|x aux IH]; intros prev; simpl; [done|]. by rewrite IH. Qed.

Section groups.
Context `{!Argsort}.
Variable recalls : list float.

Let val (i : nat) : float := recalls !!! i.

(** The pieces [np.split(idx_sort, idx_start[1:])], read off as the runs
    of equal recall along [idx_sort]. *)
Definition groups : list (list nat) :=
  match argsort recalls with
  | [] => [[]]
  | x :: s => runs_acc val [x] (val x) s
  end.

Lemma np_split_groups :
  let idx_sort := argsort recalls in
  np_split idx_sort (tail (np_unique_index (np_take recalls idx_sort))) = groups.
Proof.
  intros idx_sort. unfold groups, np_unique_index. fold idx_sort.
  rewrite stable_argsort_sorted_id by apply argsort_sorted.
  rewrite np_take_seq, np_split_pieces. fold idx_sort.
  destruct idx_sort as [|x s] eqn:E; [done|].
  change (np_take recalls (x :: s)) with (val x :: (val <$> s)).
  cbn [np_unique_mask length seq np_compress tail].
  rewrite <- (unique_mask_length (val x) (val <$> s)).
  rewrite (pieces_chunks (x :: s) _ 0 1); [|lia|].
  - rewrite (slice_one _ _ x) by done. simpl. rewrite drop_0. apply chunks_runs.
  - rewrite unique_mask_length, length_fmap. simpl. lia.
Qed.

Lemma duplicate_groups_eq :
  duplicate_groups recalls = filter (λ x, 1 < length x)%nat groups.
Proof. unfold duplicate_groups. by rewrite np_split_groups. Qed.

Lemma groups_join : mjoin groups = argsort recalls.
Proof.
  unfold groups. destruct (argsort recalls) as [|x s]; [done|].
  by rewrite runs_acc_join.
Qed.

Lemma groups_perm : mjoin groups ≡ₚ seq 0 (length recalls).
Proof. rewrite groups_join. apply argsort_perm. Qed.

Lemma groups_elem i : (i < length recalls)%nat ↔ ∃ g, i ∈ g ∧ g ∈ groups.
Proof.
  rewrite <- list_elem_of_join, groups_perm, elem_of_seq. lia.
Qed.

Lemma groups_NoDup g : g ∈ groups → NoDup g.
Proof.
  intros Hg. assert (NoDup (mjoin groups)) as Hnd.
  { rewrite groups_perm. apply NoDup_seq. }
  revert Hnd Hg. generalize groups. intros gs.
  induction gs as [|g0 gs IH]; simpl; [by intros _ ?%elem_of_nil|].
  intros (H1 & _ & H2)%NoDup_app [->|Hg]%elem_of_cons; auto.
Qed.

Hypothesis recalls_finite : Forall finite recalls.

Lemma val_finite i : (i < length recalls)%nat → finite (val i).
Proof.
  intros Hi. rewrite Forall_forall in recalls_finite.
  apply recalls_finite, list_elem_of_lookup_total_2, Hi.
Qed.

Lemma groups_same_recall g i j :
  g ∈ groups → i ∈ g → j ∈ g → recalls !!! i = recalls !!! j.
Proof.
  unfold groups. destruct (argsort recalls) as [|x s].
  - by intros ->%list_elem_of_singleton ?%elem_of_nil.
  - intros Hg Hi Hj.
    pose proof (runs_acc_uniform val s [x] (val x)) as Hu.
    rewrite Forall_forall in Hu. destruct (Hu ltac:(done)) with g as [_ Hg']; [|done|].
    + by intros y ->%list_elem_of_singleton.
    + by apply Hg'.
Qed.

Lemma groups_distinct g g' i j :
  g ∈ groups → g' ∈ groups → i ∈ g → j ∈ g' →
  recalls !!! i = recalls !!! j → g = g'.
Proof.
  pose proof argsort_perm recalls as Hp.
  pose proof argsort_sorted recalls as Hs.
  unfold groups. destruct (argsort recalls) as [|x s].
  - by intros ->%list_elem_of_singleton ->%list_elem_of_singleton.
  - apply (below_same_group val). apply runs_acc_below.
    + by intros y ->%list_elem_of_singleton.
    + simpl. apply Forall_forall. intros k Hk. apply val_finite.
      rewrite Hp in Hk. apply elem_of_seq in Hk. lia.
    + exact Hs.
Qed.
End groups.

(** ** The deleted and the retained points (lines 176-183) *)

Lemma init_last {A} (l : list A) w :
  last l = Some w → l = take (length l - 1) l ++ [w].
Proof.
  intros [l' ->]%last_Some. rewrite length_app. simpl.
  replace (length l' + 1 - 1)%nat with (length l') by lia.
  by rewrite take_app_length.
Qed.

Lemma fltb_asym_finite x y :
  finite x → finite y → fltb x y = true → fltb y x = false.
Proof.
  intros [a ->]%finite_inv [b ->]%finite_inv. rewrite <- !np_lt_Fin. apply np_lt_asym.
Qed.

Lemma fltb_negtrans_finite x y z :
  finite x → finite y → finite z →
  fltb y x = false → fltb z y = false → fltb z x = false.
Proof.
  intros [a ->]%finite_inv [b ->]%finite_inv [c ->]%finite_inv.
  rewrite <- !np_lt_Fin. apply np_lt_negtrans.
Qed.

Lemma fltb_false_fleb x y : finite x → finite y → fltb y x = false → fleb x y = true.
Proof.
  intros [a ->]%finite_inv [b ->]%finite_inv.
  rewrite <- not_true_iff_false, fltb_Fin, fleb_Fin. apply Qcnot_lt_le.
Qed.

Lemma lookup_total_finite (a : list float) i : Forall finite a → finite (a !!! i).
Proof.
  intros Ha. destruct (decide (i < length a)%nat).
  - rewrite Forall_forall in Ha. by apply Ha, list_elem_of_lookup_total_2.
  - by rewrite list_lookup_total_alt, lookup_ge_None_2 by lia.
Qed.

Section py_sorted.
Context {A : Type} (key : A → float).
Hypothesis key_finite : ∀ x, finite (key x).

Lemma py_sorted_perm l : py_sorted key l ≡ₚ l.
Proof. apply stable_sort_by_perm. Qed.

(** The last element of [sorted(l, key=key)] has the greatest key. *)
Lemma py_sorted_last l w x :
  last (py_sorted key l) = Some w → x ∈ l → fleb (key x) (key w) = true.
Proof.
  intros Hw Hx.
  pose proof (stable_sort_by_sorted (λ x y, fltb (key x) (key y))
    ltac:(intros; by apply fltb_asym_finite)
    ltac:(intros ???; by apply fltb_negtrans_finite) l) as Hs.
  fold (py_sorted key l) in Hs. rewrite <- (py_sorted_perm l) in Hx.
  apply last_Some in Hw as [l' Hl']. rewrite Hl' in Hs, Hx.
  apply StronglySorted_app in Hs as (Hs & _ & _).
  apply elem_of_app in Hx as [Hx| ->%list_elem_of_singleton].
  - apply fltb_false_fleb; [done..|]. apply (Hs x w Hx). by left.
  - unfold fleb. by rewrite feqb_finite_refl, orb_true_r.
Qed.
End py_sorted.

Section suppress.
Context `{!Argsort}.
Variables recalls precisions : list float.
Hypothesis recalls_finite : Forall finite recalls.
Hypothesis precisions_finite : Forall finite precisions.

Let key (idx : nat) : float := precisions !!! idx.

(** The point of a group that survives. *)
Definition winner (g : list nat) : option nat := last (py_sorted key g).

Lemma to_delete_elem i :
  i ∈ to_delete recalls precisions ↔
  ∃ g, g ∈ groups recalls ∧
       i ∈ take (length (py_sorted key g) - 1) (py_sorted key g).
Proof.
  unfold to_delete. rewrite duplicate_groups_eq, list_elem_of_join. split.
  - intros (l & Hi & (g & -> & Hg)%list_elem_of_fmap).
    apply list_elem_of_filter in Hg as [_ Hg]. eauto.
  - intros (g & Hg & Hi). eexists. split; [exact Hi|].
    apply (list_elem_of_fmap_2 (λ duplicate,
      let s := py_sorted (λ idx, precisions !!! idx) duplicate in
      take (length s - 1) s)).
    apply list_elem_of_filter. split; [|done].
    apply elem_of_take in Hi as (k & _ & Hk).
    unfold py_sorted in Hk. rewrite stable_sort_by_length in Hk. lia.
Qed.

Lemma winner_elem g w : winner g = Some w → w ∈ g.
Proof.
  intros Hw. rewrite <- (py_sorted_perm key g). by eapply last_Some_elem_of.
Qed.

Lemma winner_max g w i :
  winner g = Some w → i ∈ g → fleb (precisions !!! i) (precisions !!! w) = true.
Proof.
  apply (py_sorted_last key). intros x. by apply lookup_total_finite.
Qed.

Lemma winner_is_Some g : g ≠ [] → is_Some (winner g).
Proof.
  intros Hg. apply last_is_Some. intros E.
  apply Hg, Permutation_nil_r. by rewrite <- (py_sorted_perm key g), E.
Qed.

(** Within a group, everything but the winner is deleted. *)
Lemma group_split g w i :
  NoDup g → winner g = Some w → i ∈ g →
  (i ∈ take (length (py_sorted key g) - 1) (py_sorted key g) ↔ i ≠ w).
Proof.
  intros Hnd Hw Hi. pose proof (init_last _ _ Hw) as E.
  rewrite <- (py_sorted_perm key g) in Hnd, Hi. rewrite E in Hnd, Hi.
  apply NoDup_app in Hnd as (_ & Hnd & _).
  apply elem_of_app in Hi as [Hi| ->%list_elem_of_singleton].
  - split; [|done]. intros _ ->. apply (Hnd w Hi). by left.
  - split; [|done]. intros Hi _. apply (Hnd w Hi). by left.
Qed.

Lemma kept_iff i :
  (i < length recalls)%nat →
  i ∉ to_delete recalls precisions ↔ ∃ g, g ∈ groups recalls ∧ winner g = Some i.
Proof.
  intros Hi. rewrite to_delete_elem. split.
  - intros Hnot. apply groups_elem in Hi as (g & Hig & Hg).
    exists g. split; [done|].
    destruct (winner_is_Some g) as [w Hw]; [by intros ->; apply elem_of_nil in Hig|].
    destruct (decide (i = w)) as [->|Hne]; [done|]. destruct Hnot.
    exists g. split; [done|]. by apply (group_split g w); [apply (groups_NoDup recalls)|..].
  - intros (g & Hg & Hw) (g' & Hg' & Hi').
    assert (i ∈ g') as Hig'.
    { rewrite <- (py_sorted_perm key g').
      apply elem_of_take in Hi' as (k & Hk & _). by eapply list_elem_of_lookup_2. }
    pose proof (winner_elem _ _ Hw) as Hig.
    assert (g = g') as <- by (by eapply (groups_distinct recalls)).
    by apply (group_split g i) in Hi'; [|apply (groups_NoDup recalls)|..].
Qed.

(** The indices that survive [np.delete], in increasing order. *)
Definition kept : list nat :=
  filter (λ i, i ∉ to_delete recalls precisions) (seq 0 (length recalls)).

Lemma kept_elem i :
  i ∈ kept ↔ (i < length recalls)%nat ∧ ∃ g, g ∈ groups recalls ∧ winner g = Some i.
Proof.
  unfold kept. rewrite list_elem_of_filter, elem_of_seq. split.
  - intros [Hd Hi]. split; [lia|]. apply kept_iff; [lia|done].
  - intros [Hi Hg]. split; [|lia]. by apply kept_iff.
Qed.

(** Exactly one point of every recall value survives ... *)
Lemma kept_unique i j :
  i ∈ kept → j ∈ kept → recalls !!! i = recalls !!! j → i = j.
Proof.
  intros (_ & g & Hg & Hi)%kept_elem (_ & g' & Hg' & Hj)%kept_elem E.
  assert (g = g') as <-.
  { eapply (groups_distinct recalls); eauto using winner_elem. }
  congruence.
Qed.

(** ... and it is one of greatest precision among the points of that recall. *)
Lemma kept_max i :
  (i < length recalls)%nat →
  ∃ k, k ∈ kept ∧ recalls !!! k = recalls !!! i
       ∧ fleb (precisions !!! i) (precisions !!! k) = true.
Proof.
  intros Hi. pose proof Hi as (g & Hig & Hg)%groups_elem.
  destruct (winner_is_Some g) as [w Hw]; [by intros ->; apply elem_of_nil in Hig|].
  pose proof (winner_elem _ _ Hw) as Hwg.
  exists w. split_and!.
  - apply kept_elem. split; [|by eauto]. apply groups_elem. eauto.
  - by apply (groups_same_recall recalls g).
  - by eapply winner_max.
Qed.
End suppress.


Lemma repair_length recalls : length (repair recalls) = length recalls.
Proof. apply length_fmap. Qed.

Section suppress_duplicates.
Context `{!Argsort}.

Lemma suppress_duplicates_eq precisions recalls thresholds :
  length precisions = length recalls →
  length thresholds = length recalls →
  let idx := kept (repair recalls) precisions in
  suppress_duplicates precisions recalls thresholds
  = (np_take precisions idx, np_take (repair recalls) idx, np_take thresholds idx).
Proof.
  intros Hp Ht idx. unfold suppress_duplicates. fold (repair recalls).
  destruct (duplicate_groups (repair recalls)) eqn:E.
  - assert (to_delete (repair recalls) precisions = []) as Hd.
    { unfold to_delete. by rewrite E. }
    subst idx. unfold kept. rewrite Hd, repair_length.
    pose proof (np_delete_nil precisions) as H1.
    pose proof (np_delete_nil (repair recalls)) as H2.
    pose proof (np_delete_nil thresholds) as H3.
    unfold np_delete in H1, H2, H3.
    rewrite Hp in H1. rewrite repair_length in H2. rewrite Ht in H3.
    by rewrite H1, H2, H3.
  - unfold np_delete. subst idx. unfold kept. by rewrite Hp, Ht, repair_length.
Qed.
End suppress_duplicates.

(** ** The raw curve of [precision_recall_curve] *)

Lemma of_nat_add a b : fadd (of_nat a) (of_nat b) = of_nat (a + b).
Proof. unfold of_nat. simpl. by rewrite Nat2Z.inj_add, Z2Qc_inj_add. Qed.

Lemma of_nat_inj a b : of_nat a = of_nat b → a = b.
Proof. intros [= H]. by apply Nat2Z.inj. Qed.

Lemma dvi_cons i x y rest :
  distinct_value_indices_from i (x :: y :: rest)
  = (if truthy (fsub y x) then [i] else [])
    ++ distinct_value_indices_from (S i) (y :: rest).
Proof. done. Qed.

Lemma dvi_bounds y_score : ∀ i k,
  k ∈ distinct_value_indices_from i y_score → (i ≤ k < i + length y_score - 1)%nat.
Proof.
  induction y_score as [|x l IH]; intros i k.
  - by intros ?%elem_of_nil.
  - destruct l as [|y rest]; [by intros ?%elem_of_nil|].
    rewrite dvi_cons. intros [Hk|Hk]%elem_of_app.
    + destruct (truthy _); [|by apply elem_of_nil in Hk].
      apply list_elem_of_singleton in Hk as ->. simpl. lia.
    + apply IH in Hk. simpl in *. lia.
Qed.

Lemma dvi_sorted y_score : ∀ i,
  StronglySorted lt (distinct_value_indices_from i y_score).
Proof.
  induction y_score as [|x l IH]; intros i; [constructor|].
  destruct l as [|y rest]; [constructor|]. rewrite dvi_cons.
  destruct (truthy _); [|exact (IH _)].
  apply SSorted_cons; [exact (IH _)|].
  apply Forall_forall. intros k Hk%dvi_bounds. lia.
Qed.

Lemma b2f_of_nat b : b2f b = of_nat (count_true [b]).
Proof.
  destruct b; unfold of_nat, b2f, f1_, f0; f_equal; symmetry;
    [apply Z2Qc_inj_1 | apply Z2Qc_inj_0].
Qed.

Lemma count_true_cons b l : count_true (b :: l) = (count_true [b] + count_true l)%nat.
Proof.
  unfold count_true. change (b :: l) with ([b] ++ l).
  by rewrite filter_app, length_app.
Qed.

Lemma cumsum_from_lookup (l : list bool) : ∀ a j,
  (j < length l)%nat →
  cumsum_from (of_nat a) (b2f <$> l) !! j = Some (of_nat (a + count_true (take (S j) l))).
Proof.
  induction l as [|b l IH]; intros a j Hj; [simpl in Hj; lia|].
  rewrite fmap_cons. cbn [cumsum_from].
  rewrite b2f_of_nat, of_nat_add. destruct j as [|j].
  - done.
  - rewrite lookup_cons_ne_0 by done. cbn [pred]. rewrite IH by (simpl in Hj; lia).
    rewrite firstn_cons, (count_true_cons b (take (S j) l)). do 2 f_equal. lia.
Qed.

Lemma np_cumsum_lookup (l : list bool) k :
  (k < length l)%nat →
  np_cumsum (b2f <$> l) !!! k = of_nat (count_true (take (S k) l)).
Proof.
  intros Hk. apply list_lookup_total_correct.
  destruct l as [|b l]; [simpl in Hk; lia|].
  rewrite fmap_cons. cbn [np_cumsum]. rewrite b2f_of_nat. destruct k as [|k].
  - done.
  - rewrite lookup_cons_ne_0 by done. cbn [pred].
    rewrite cumsum_from_lookup by (simpl in Hk; lia).
    by rewrite firstn_cons, (count_true_cons b (take (S k) l)).
Qed.

Lemma count_true_take_le (l : list bool) k : (count_true (take k l) ≤ count_true l)%nat.
Proof.
  unfold count_true. rewrite <- (take_drop k l) at 2.
  rewrite filter_app, length_app. lia.
Qed.

Lemma count_true_take_mono (l : list bool) j k :
  (j ≤ k)%nat → (count_true (take j l) ≤ count_true (take k l))%nat.
Proof.
  intros Hjk. replace j with (j `min` k)%nat by lia.
  rewrite <- take_take. apply count_true_take_le.
Qed.

Lemma count_true_le_length (l : list bool) : (count_true l ≤ length l)%nat.
Proof. unfold count_true. apply length_filter. Qed.

Lemma sorted_labels_length y_true y_score :
  length (sorted_labels y_true y_score) = length y_score.
Proof.
  unfold sorted_labels. by rewrite np_take_length, length_reverse, stable_argsort_perm, length_seq.
Qed.

Lemma threshold_idxs_sorted y_score :
  y_score ≠ [] → StronglySorted lt (threshold_idxs y_score).
Proof.
  intros Hne. unfold threshold_idxs. apply StronglySorted_app; split_and!.
  - intros k j Hk%dvi_bounds ->%list_elem_of_singleton.
    rewrite np_take_length, length_reverse, stable_argsort_perm, length_seq in Hk. lia.
  - apply dvi_sorted.
  - repeat constructor.
Qed.

Lemma threshold_idxs_bound y_score :
  y_score ≠ [] → Forall (λ k, k < length y_score)%nat (threshold_idxs y_score).
Proof.
  intros Hne. assert (0 < length y_score)%nat by (destruct y_score; [done|simpl; lia]).
  unfold threshold_idxs. apply Forall_app. split.
  - apply Forall_forall. intros k Hk%dvi_bounds.
    rewrite np_take_length, length_reverse, stable_argsort_perm, length_seq in Hk. lia.
  - repeat constructor. lia.
Qed.

Lemma _binary_clf_curve_Ok y_true y_score fps tps thresholds :
  _binary_clf_curve y_true y_score = Ok (fps, tps, thresholds) →
  let labels := sorted_labels y_true y_score in
  let K := threshold_idxs y_score in
  y_score ≠ [] ∧ length y_true = length y_score ∧
  tps = (λ k, of_nat (tp_at labels k)) <$> K ∧
  fps = (λ k, fsub (fadd f1_ (of_nat k)) (of_nat (tp_at labels k))) <$> K ∧
  length thresholds = length K.
Proof.
  intros Hcurve labels K. unfold _binary_clf_curve in Hcurve.
  case_bool_decide as Hlen; cbn [negb] in Hcurve; [|done].
  destruct (forallb np_isfinite y_score); cbn [negb] in Hcurve; [|done].
  case_bool_decide as Hne; [done|].
  cbv zeta in Hcurve. injection Hcurve as <- <- <-.
  set (desc := reverse (stable_argsort y_score)).
  assert (Forall (λ i, i < length y_true)%nat desc) as Hdesc.
  { apply Forall_forall. intros i. unfold desc.
    rewrite elem_of_reverse, stable_argsort_perm, elem_of_seq. lia. }
  assert (np_take (b2f <$> y_true) desc = b2f <$> labels) as HL.
  { unfold labels, sorted_labels, np_take. fold desc. rewrite <- list_fmap_compose.
    apply Forall_fmap_ext_1. eapply Forall_impl; [exact Hdesc|].
    intros i Hi. unfold compose. by apply list_lookup_total_fmap. }
  assert (length (np_take (b2f <$> y_true) desc) = length y_score) as HLl.
  { unfold desc. by rewrite np_take_length, length_reverse, stable_argsort_perm, length_seq. }
  rewrite HLl.
  change (distinct_value_indices (np_take y_score desc) ++ [(length y_score - 1)%nat])
    with K.
  assert (np_take (np_cumsum (np_take (b2f <$> y_true) desc)) K
          = (λ k, of_nat (tp_at labels k)) <$> K) as Htps.
  { rewrite HL. unfold np_take. apply Forall_fmap_ext_1.
    eapply Forall_impl; [apply threshold_idxs_bound, Hne|].
    intros k Hk. simpl. apply np_cumsum_lookup.
    unfold labels. by rewrite sorted_labels_length. }
  rewrite Htps. split_and!; [done..| |].
  - by rewrite zip_with_fmap_r, zip_with_diag.
  - by rewrite np_take_length.
Qed.

Lemma tps_plus_fps t k :
  fadd (of_nat t) (fsub (fadd f1_ (of_nat k)) (of_nat t)) = of_nat (S k).
Proof.
  unfold of_nat, f1_. simpl. f_equal.
  rewrite Nat2Z.inj_succ, <- Z.add_1_l, Z2Qc_inj_add, Z2Qc_inj_1. ring.
Qed.

Lemma of_nat_S_neq_0 k : Qc_of_Z (Z.of_nat (S k)) ≠ 0.
Proof. rewrite <- Z2Qc_inj_0. intros H%Z2Qc_inj. lia. Qed.

Lemma prec_at_Fin labels k :
  prec_at labels k = Fin (Qc_of_Z (Z.of_nat (tp_at labels k)) / Qc_of_Z (Z.of_nat (S k))).
Proof.
  unfold prec_at, of_nat, fdiv. destruct (decide _) as [E|_]; [|done].
  by apply of_nat_S_neq_0 in E.
Qed.

Lemma StronglySorted_take {A} (R : relation A) (l : list A) n :
  StronglySorted R l → StronglySorted R (take n l).
Proof.
  intros H. rewrite <- (take_drop n l) in H. by apply StronglySorted_app in H as (_ & ? & _).
Qed.

Lemma zip_with_fmap_same {A B C D} (f : B → C → D) (g : A → B) (h : A → C) l :
  zip_with f (g <$> l) (h <$> l) = (λ x, f (g x) (h x)) <$> l.
Proof. induction l as [|x l IH]; [done|]. cbn. by rewrite IH. Qed.

Lemma precision_recall_curve_Ok y_true y_score precision recall thresholds :
  precision_recall_curve y_true y_score = Ok (precision, recall, thresholds) →
  let labels := sorted_labels y_true y_score in
  ∃ K, StronglySorted lt K ∧ Forall (λ k, k < length labels)%nat K ∧
       precision = (prec_at labels <$> reverse K) ++ [f1_] ∧
       recall = (rec_at labels <$> reverse K) ++ [f0] ∧
       length thresholds = length K.
Proof.
  intros Hcurve labels. unfold precision_recall_curve in Hcurve.
  destruct (_binary_clf_curve y_true y_score) as [[[fps tps] thr]|] eqn:E; [|done].
  apply _binary_clf_curve_Ok in E as (Hne & Hlen & -> & -> & Hthr).
  cbn [rbind] in Hcurve. cbv zeta in Hcurve. injection Hcurve as <- <- <-.
  fold labels. set (K := threshold_idxs y_score) in *.
  set (li := np_searchsorted _ _).
  assert (length labels = length y_score) as Hl by apply sorted_labels_length.
  assert (0 < length y_score)%nat by (destruct y_score; [done|simpl; lia]).
  exists (take (S li) K). split_and!.
  - apply StronglySorted_take, threshold_idxs_sorted, Hne.
  - apply Forall_take. rewrite Hl. apply threshold_idxs_bound, Hne.
  - f_equal. unfold rev_upto. rewrite !zip_with_fmap_same.
    rewrite <- list_fmap_compose, <- fmap_take, <- fmap_reverse.
    apply list_fmap_ext. intros _ k _. unfold compose.
    change (Fin (1 + Qc_of_Z (Z.of_nat k) + - Qc_of_Z (Z.of_nat (tp_at labels k))))
      with (fsub (fadd f1_ (of_nat k)) (of_nat (tp_at labels k))).
    rewrite tps_plus_fps. fold (prec_at labels k). by rewrite prec_at_Fin.
  - f_equal. unfold rev_upto.
    assert (((λ k, of_nat (tp_at labels k)) <$> K)
              !!! (length ((λ k, of_nat (tp_at labels k)) <$> K) - 1)%nat
            = of_nat (count_true labels)) as ->.
    { rewrite length_fmap. unfold K, threshold_idxs.
      rewrite length_app, Nat.add_sub, fmap_app.
      rewrite lookup_total_app_r by (by rewrite length_fmap).
      rewrite length_fmap, Nat.sub_diag. cbn [fmap list_fmap lookup_total list_lookup_total].
      unfold tp_at. do 2 f_equal. apply take_ge. lia. }
    rewrite <- list_fmap_compose, <- fmap_take, <- fmap_reverse.
    by apply list_fmap_ext.
  - unfold rev_upto. by rewrite length_reverse, !length_take, Hthr.
Qed.

(** *** The raw curve over the rationals

    A point of the raw curve is described by the index [k] of the
    threshold it belongs to, or is the final point [(precision 1, recall 0)]
    appended by [precision_recall_curve]. *)

Lemma nq_le a b : (a ≤ b)%nat → nq a ≤ nq b.
Proof. intros. unfold nq. rewrite <- Z2Qc_inj_le. lia. Qed.

Lemma nq_pos a : (0 < a)%nat → 0 < nq a.
Proof. intros. unfold nq. rewrite <- Z2Qc_inj_0, <- Z2Qc_inj_lt. lia. Qed.

Lemma nq_nonneg a : 0 ≤ nq a.
Proof. unfold nq. rewrite <- Z2Qc_inj_0, <- Z2Qc_inj_le. lia. Qed.

Lemma nq_inj a b : nq a = nq b → a = b.
Proof. intros H%Z2Qc_inj. lia. Qed.

Lemma nq_0 : nq 0 = 0.
Proof. apply Z2Qc_inj_0. Qed.

Lemma Qcdiv_nonneg a b : 0 ≤ a → 0 ≤ b → 0 ≤ a / b.
Proof.
  intros Ha Hb. unfold Qcdiv. destruct (decide (b = 0)) as [->|Hne].
  - replace (/ 0) with 0 by (by apply Qc_is_canon). by rewrite Qcmult_0_r.
  - apply Qcmult_nonneg_nonneg; [done|]. apply Qclt_le_weak, Qcinv_pos.
    destruct (Qcle_lt_or_eq _ _ Hb); [done|congruence].
Qed.

Lemma Qcdiv_le_mono a b c : 0 ≤ c → a ≤ b → a / c ≤ b / c.
Proof.
  intros Hc Hab. unfold Qcdiv. apply Qcmult_le_mono_nonneg_r; [|done].
  destruct (decide (c = 0)) as [->|Hne].
  - replace (/ 0) with 0 by (by apply Qc_is_canon). apply Qcle_refl.
  - apply Qclt_le_weak, Qcinv_pos. destruct (Qcle_lt_or_eq _ _ Hc); [done|congruence].
Qed.

Lemma Qcdiv_cancel_r a b c : c ≠ 0 → a / c = b / c → a = b.
Proof.
  intros Hc E. rewrite <- (Qcmult_div_r a c Hc), <- (Qcmult_div_r b c Hc). by rewrite E.
Qed.

Lemma Qcdiv_cancel_l a b c : a ≠ 0 → b ≠ 0 → c ≠ 0 → a / b = a / c → b = c.
Proof.
  intros Ha Hb Hc E.
  assert (b = a / (a / b)) as -> by (field; by split).
  rewrite E. field. by split.
Qed.

Lemma StronglySorted_reverse {A} (R : relation A) (l : list A) :
  StronglySorted R l → StronglySorted (flip R) (reverse l).
Proof.
  induction 1 as [|x l Hl IH Hx]; [constructor|].
  rewrite reverse_cons. apply StronglySorted_app. split_and!.
  - intros y z Hy ->%list_elem_of_singleton. rewrite elem_of_reverse in Hy.
    rewrite Forall_forall in Hx. by apply Hx.
  - done.
  - repeat constructor.
Qed.

Lemma StronglySorted_lt_NoDup (l : list nat) : StronglySorted lt l → NoDup l.
Proof.
  induction 1 as [|k l Hl IH Hk]; constructor; [|done].
  intros Hin. rewrite Forall_forall in Hk. specialize (Hk k Hin). lia.
Qed.

Section raw_curve.
Variable labels : list bool.
Variable K : list nat.
Hypothesis K_sorted : StronglySorted lt K.

Let tl : nat := count_true labels.

Definition pq (d : option nat) : Qc :=
  match d with
  | Some k => nq (tp_at labels k) / nq (S k)
  | None => 1
  end.

Definition rq (d : option nat) : Qc :=
  match d with
  | Some k => nq (tp_at labels k) / nq tl
  | None => 0
  end.

Definition descr : list (option nat) := (Some <$> reverse K) ++ [None].

Lemma tp_at_le k : (tp_at labels k ≤ tl)%nat.
Proof. apply count_true_take_le. Qed.

Lemma tp_at_mono j k : (j ≤ k)%nat → (tp_at labels j ≤ tp_at labels k)%nat.
Proof. intros. apply count_true_take_mono. lia. Qed.

Lemma raw_precision :
  (prec_at labels <$> reverse K) ++ [f1_] = (λ d, Fin (pq d)) <$> descr.
Proof.
  unfold descr. rewrite fmap_app, <- list_fmap_compose.
  apply (f_equal (λ l, l ++ [f1_])).
  apply list_fmap_ext. intros _ k _. unfold compose. by rewrite prec_at_Fin.
Qed.

Lemma rec_at_repair k :
  (if np_isfinite (rec_at labels k) then rec_at labels k else f0)
  = Fin (rq (Some k)).
Proof.
  unfold rec_at, of_nat, fdiv. fold (nq (tp_at labels k)) (nq (count_true labels)).
  fold tl. simpl. destruct (decide (nq tl = 0)) as [E|E]; simpl; [|done].
  assert (tl = 0)%nat as Htl by (apply nq_inj; by rewrite nq_0).
  pose proof (tp_at_le k). replace (tp_at labels k) with 0%nat by lia.
  rewrite Htl, nq_0. unfold Qc_sign. rewrite decide_True by done. simpl.
  unfold f0. f_equal; by apply Qc_is_canon.
Qed.

Lemma raw_recall :
  repair ((rec_at labels <$> reverse K) ++ [f0]) = (λ d, Fin (rq d)) <$> descr.
Proof.
  unfold descr, repair. rewrite !fmap_app, <- !list_fmap_compose.
  apply (f_equal (λ l, l ++ [f0])).
  apply list_fmap_ext. intros _ k _. unfold compose. apply rec_at_repair.
Qed.

Lemma K_NoDup : NoDup K.
Proof. by apply StronglySorted_lt_NoDup. Qed.

Lemma descr_NoDup : NoDup descr.
Proof.
  unfold descr. apply NoDup_app. split_and!.
  - apply (NoDup_fmap_2 _). rewrite reverse_Permutation. apply K_NoDup.
  - intros d (k & -> & _)%list_elem_of_fmap [=]%list_elem_of_singleton.
  - apply NoDup_singleton.
Qed.

Lemma descr_last : None ∈ descr.
Proof. unfold descr. apply elem_of_app. right. by left. Qed.

Lemma pq_nonneg d : 0 ≤ pq d.
Proof.
  destruct d as [k|]; simpl; [|done]. apply Qcdiv_nonneg; apply nq_nonneg.
Qed.

Lemma rq_nonneg d : 0 ≤ rq d.
Proof.
  destruct d as [k|]; simpl; [|done]. apply Qcdiv_nonneg; apply nq_nonneg.
Qed.

Lemma rq_Some_0 k : rq (Some k) = 0 → tp_at labels k = 0%nat.
Proof.
  simpl. intros E. unfold Qcdiv in E.
  destruct (decide (tl = 0)%nat) as [Htl|Htl].
  { pose proof (tp_at_le k). lia. }
  apply Qcmult_integral in E as [E|E].
  - apply nq_inj. by rewrite nq_0.
  - exfalso. pose proof (Qcinv_pos (nq tl) (nq_pos tl ltac:(lia))) as Hpos.
    rewrite E in Hpos. by apply Qclt_not_eq in Hpos.
Qed.

Lemma pq_Some_0 k : tp_at labels k = 0%nat → pq (Some k) = 0.
Proof. simpl. intros ->. rewrite nq_0. unfold Qcdiv. apply Qcmult_0_l. Qed.

(** Two different points of the raw curve that agree in recall and in
    precision have recall [0] and precision below that of the final point. *)
Lemma raw_ties d d' :
  d ≠ d' → rq d = rq d' → pq d = pq d' → rq d = 0 ∧ pq d < 1.
Proof.
  assert (∀ k, pq (Some k) = 1 → rq (Some k) = 0 → False) as Hfinal.
  { intros k Hp Hr. apply rq_Some_0 in Hr. rewrite (pq_Some_0 k Hr) in Hp.
    discriminate Hp. }
  destruct d as [k|], d' as [k'|]; intros Hne Hr Hp; [| | |done].
  - destruct (decide (tp_at labels k = 0)%nat) as [Hz|Hz].
    { split; [|by rewrite (pq_Some_0 k Hz)].
      simpl. rewrite Hz, nq_0. unfold Qcdiv. apply Qcmult_0_l. }
    exfalso. simpl in Hr, Hp.
    assert (tl ≠ 0)%nat as Htl by (pose proof (tp_at_le k); lia).
    assert (nq tl ≠ 0) as Htl' by (rewrite <- nq_0; by intros ?%nq_inj).
    apply Qcdiv_cancel_r in Hr; [|done]. apply nq_inj in Hr. rewrite <- Hr in Hp.
    apply Qcdiv_cancel_l in Hp.
    + apply nq_inj in Hp. apply Hne. f_equal. lia.
    + rewrite <- nq_0. by intros ?%nq_inj.
    + rewrite <- nq_0. by intros ?%nq_inj.
    + rewrite <- nq_0. by intros ?%nq_inj.
  - exfalso. by apply (Hfinal k).
  - exfalso. by apply (Hfinal k').
Qed.

(** Recall does not increase along the raw curve. *)
Lemma rq_sorted : StronglySorted (λ x y, y ≤ x) (rq <$> descr).
Proof.
  unfold descr. rewrite fmap_app. apply StronglySorted_app. split_and!.
  - intros x y Hx ->%list_elem_of_singleton.
    apply list_elem_of_fmap in Hx as (d & -> & _). apply rq_nonneg.
  - rewrite <- list_fmap_compose, fmap_reverse.
    apply (StronglySorted_reverse (λ x y, x ≤ y)).
    eapply StronglySorted_fmap; [|exact K_sorted].
    intros j k Hjk. unfold compose. simpl.
    apply Qcdiv_le_mono; [apply nq_nonneg|]. apply nq_le, tp_at_mono. lia.
  - repeat constructor.
Qed.
End raw_curve.

Lemma precision_recall_curve_descr y_true y_score precision recall thresholds :
  precision_recall_curve y_true y_score = Ok (precision, recall, thresholds) →
  ∃ labels D,
    precision = (λ d, Fin (pq labels d)) <$> D ∧
    repair recall = (λ d, Fin (rq labels d)) <$> D ∧
    length D = S (length thresholds) ∧
    NoDup D ∧ None ∈ D ∧
    StronglySorted (λ x y, y ≤ x) (rq labels <$> D).
Proof.
  intros (K & HK & _ & -> & -> & Hlen)%precision_recall_curve_Ok.
  exists (sorted_labels y_true y_score), (descr K). split_and!.
  - apply raw_precision.
  - apply raw_recall.
  - unfold descr. rewrite length_app, length_fmap, length_reverse, Hlen. simpl. lia.
  - by apply descr_NoDup.
  - apply descr_last.
  - by apply rq_sorted.
Qed.

(** ** The retained point is the only one of greatest precision *)

Lemma fleb_neq_fltb x y : finite x → finite y → fleb x y = true → x ≠ y → fltb x y = true.
Proof.
  intros [a ->]%finite_inv [b ->]%finite_inv Hle Hne.
  apply fleb_Fin in Hle. apply fltb_Fin.
  destruct (Qcle_lt_or_eq _ _ Hle); [done|]. congruence.
Qed.

Lemma fltb_fleb_contra x y : fltb x y = true → fleb y x = true → False.
Proof.
  destruct x as [a|[]|], y as [b|[]|]; try done.
  intros H1%fltb_Fin H2%fleb_Fin. by apply Qclt_not_le in H1.
Qed.

Lemma kept_lt `{!Argsort} recalls precisions k :
  k ∈ kept recalls precisions → (k < length recalls)%nat.
Proof. unfold kept. rewrite list_elem_of_filter, elem_of_seq. lia. Qed.

Section unique_max.
Context `{!Argsort}.
Variables recalls precisions : list float.
Hypothesis recalls_finite : Forall finite recalls.
Hypothesis precisions_finite : Forall finite precisions.

(** No two points of the curve tie in recall and in greatest precision. *)
Hypothesis no_ties : ∀ a b,
  (a < length recalls)%nat → (b < length recalls)%nat → a ≠ b →
  recalls !!! a = recalls !!! b → precisions !!! a = precisions !!! b →
  ∃ c, (c < length recalls)%nat ∧ recalls !!! c = recalls !!! a
       ∧ fltb (precisions !!! a) (precisions !!! c) = true.

Lemma kept_strict_max k :
  k ∈ kept recalls precisions ↔
  (k < length recalls)%nat ∧
  ∀ i, (i < length recalls)%nat → i ≠ k → recalls !!! i = recalls !!! k →
       fltb (precisions !!! i) (precisions !!! k) = true.
Proof.
  pose proof (kept_max recalls precisions recalls_finite precisions_finite) as Hmax.
  pose proof (kept_unique recalls precisions recalls_finite) as Huniq.
  split.
  - intros Hk. pose proof (kept_lt _ _ _ Hk) as Hkn.
    split; [done|]. intros i Hi Hne HR.
    destruct (Hmax i Hi) as (k' & Hk' & HR' & Hle).
    assert (k' = k) as -> by (apply Huniq; [done..|congruence]).
    apply fleb_neq_fltb; [by apply lookup_total_finite..|done|].
    intros HP.
    destruct (no_ties k i Hkn Hi ltac:(done) ltac:(done) ltac:(done))
      as (c & Hc & HRc & Hlt).
    destruct (Hmax c Hc) as (k'' & Hk'' & HR'' & Hle'').
    assert (k'' = k) as -> by (apply Huniq; [done..|congruence]).
    by eapply fltb_fleb_contra.
  - intros [Hkn Hstrict].
    destruct (Hmax k Hkn) as (k' & Hk' & HR' & Hle).
    destruct (decide (k' = k)) as [->|Hne]; [done|]. exfalso.
    pose proof (kept_lt _ _ _ Hk') as Hk'n.
    eapply fltb_fleb_contra; [|exact Hle]. by apply Hstrict.
Qed.
End unique_max.

Lemma filter_ext_in {A} (P Q : A → Prop) `{!∀ x, Decision (P x), !∀ x, Decision (Q x)}
    (l : list A) :
  (∀ x, x ∈ l → P x ↔ Q x) → filter P l = filter Q l.
Proof.
  induction l as [|x l IH]; intros Hext; [done|].
  rewrite !filter_cons. rewrite IH by (intros y Hy; apply Hext; by right).
  destruct (decide (P x)) as [HP|HP], (decide (Q x)) as [HQ|HQ]; try done.
  - destruct HQ. apply Hext; [by left|done].
  - destruct HP. apply Hext; [by left|done].
Qed.

(** The retained indices do not depend on how [np.argsort] orders ties. *)
Lemma kept_argsort_irrelevant (A1 A2 : Argsort) recalls precisions :
  Forall finite recalls → Forall finite precisions →
  (∀ a b,
    (a < length recalls)%nat → (b < length recalls)%nat → a ≠ b →
    recalls !!! a = recalls !!! b → precisions !!! a = precisions !!! b →
    ∃ c, (c < length recalls)%nat ∧ recalls !!! c = recalls !!! a
         ∧ fltb (precisions !!! a) (precisions !!! c) = true) →
  @kept A1 recalls precisions = @kept A2 recalls precisions.
Proof.
  intros HR HP Hties.
  pose proof (@kept_strict_max A1 recalls precisions HR HP Hties) as H1.
  pose proof (@kept_strict_max A2 recalls precisions HR HP Hties) as H2.
  unfold kept in *. apply filter_ext_in. intros k Hk.
  specialize (H1 k). specialize (H2 k).
  rewrite list_elem_of_filter in H1, H2.
  split; intros Hd.
  + apply H2. apply H1. by split.
  + apply H1. apply H2. by split.
Qed.

(** ** The deduplicated curve *)

Lemma precision_recall_curve_ok y_true y_score precision recall thresholds :
  precision_recall_curve y_true y_score = Ok (precision, recall, thresholds) →
  raw_curve_ok precision (repair recall)
  ∧ length (thresholds ++ [f1_]) = length recall.
Proof.
  intros (labels & D & -> & HR & Hlen & Hnd & Hlast & Hs)%precision_recall_curve_descr.
  assert (length recall = length D) as HlenR.
  { by rewrite <- repair_length, HR, length_fmap. }
  split; [|rewrite length_app; simpl; lia].
  rewrite HR.
  assert (∀ i, (i < length D)%nat → ∃ d, D !! i = Some d ∧
            ((λ d, Fin (rq labels d)) <$> D) !!! i = Fin (rq labels d) ∧
            ((λ d, Fin (pq labels d)) <$> D) !!! i = Fin (pq labels d)) as Hlook.
  { intros i Hi. destruct (lookup_lt_is_Some_2 D i Hi) as [d Hd]. exists d.
    split; [done|].
    split; apply list_lookup_total_correct; by rewrite list_lookup_fmap, Hd. }
  apply list_elem_of_lookup in Hlast as [c Hc].
  pose proof (lookup_lt_Some _ _ _ Hc) as Hcn.
  destruct (Hlook c Hcn) as (? & Hc' & HRc & HPc). rewrite Hc in Hc'. injection Hc' as <-.
  split.
  - by rewrite !length_fmap.
  - rewrite length_fmap. lia.
  - apply Forall_fmap, Forall_forall. by intros.
  - apply Forall_fmap, Forall_forall. by intros.
  - rewrite length_fmap. intros i (d & _ & -> & ->)%Hlook.
    split; apply fleb_Fin; [apply rq_nonneg | apply pq_nonneg].
  - rewrite length_fmap. exists c. by split_and!.
  - rewrite length_fmap. intros a b Ha Hb Hne.
    destruct (Hlook a Ha) as (d & Hd & -> & ->).
    destruct (Hlook b Hb) as (d' & Hd' & -> & ->).
    intros [= Hr] [= Hp].
    destruct (raw_ties labels d d') as [Hr0 Hp1]; [|done..|].
    { intros ->. apply Hne. by eapply NoDup_lookup. }
    exists c. split_and!; [done|by rewrite HRc, Hr0|].
    rewrite HPc. by apply fltb_Fin.
  - rewrite (list_fmap_compose (rq labels) Fin).
    eapply StronglySorted_fmap; [|exact Hs]. intros x y Hxy. by apply fleb_Fin.
Qed.

Section pr_curve.
Context `{!Argsort}.

Lemma pr_curve_eq gt pred precisions recalls thresholds :
  precision_recall_curve gt pred = Ok (precisions, recalls, thresholds) →
  let idx := kept (repair recalls) precisions in
  pr_curve gt pred
  = Ok (np_take precisions idx, np_take (repair recalls) idx,
        np_take (thresholds ++ [f1_]) idx).
Proof.
  intros Hprc idx. unfold pr_curve. rewrite Hprc. cbn [rbind]. f_equal.
  apply precision_recall_curve_ok in Hprc as [Hok Hlen].
  apply suppress_duplicates_eq; [|done].
  rewrite <- (repair_length recalls). apply (raw_length _ _ Hok).
Qed.

Lemma pr_curve_Raise gt pred e :
  precision_recall_curve gt pred = Raise e → pr_curve gt pred = Raise e.
Proof. intros Hprc. unfold pr_curve. by rewrite Hprc. Qed.
End pr_curve.

Lemma StronglySorted_filter {A} (R : relation A) (P : A → Prop)
    `{!∀ x, Decision (P x)} (l : list A) :
  StronglySorted R l → StronglySorted R (filter P l).
Proof.
  induction 1 as [|x l Hl IH Hx]; [constructor|].
  rewrite filter_cons. destruct (decide (P x)); [|done].
  constructor; [done|]. apply Forall_forall. intros y [_ Hy]%list_elem_of_filter.
  rewrite Forall_forall in Hx. by apply Hx.
Qed.

Lemma StronglySorted_seq j n : StronglySorted lt (seq j n).
Proof.
  revert j. induction n as [|n IH]; intros j; [constructor|].
  cbn [seq]. constructor; [apply IH|].
  apply Forall_forall. intros k Hk%elem_of_seq. lia.
Qed.

Lemma StronglySorted_elem_of {A} (R : relation A) (l : list A) :
  StronglySorted R l → StronglySorted (λ x y, R x y ∧ x ∈ l ∧ y ∈ l) l.
Proof.
  intros Hl.
  assert (∀ l' : list A, (∀ x, x ∈ l → x ∈ l') →
            StronglySorted (λ x y, R x y ∧ x ∈ l' ∧ y ∈ l') l) as Hgen; [|by apply Hgen].
  induction Hl as [|x l Hl IH Hx]; intros l' Hsub; [constructor|].
  constructor.
  - apply IH. intros y Hy. apply Hsub. by right.
  - apply Forall_forall. intros y Hy. rewrite Forall_forall in Hx.
    split_and!; [by apply Hx|apply Hsub; by left|apply Hsub; by right].
Qed.

Lemma StronglySorted_lookup_total {A} `{!Inhabited A} (R : relation A) (l : list A) i j :
  StronglySorted R l → (i < j)%nat → (j < length l)%nat → R (l !!! i) (l !!! j).
Proof.
  intros Hl. revert i j. induction Hl as [|x l Hl IH Hx]; intros i j Hij Hj.
  - simpl in Hj. lia.
  - destruct j as [|j]; [lia|]. simpl in Hj.
    destruct i as [|i].
    + change (R x (l !!! j)). rewrite Forall_forall in Hx. apply Hx.
      apply list_elem_of_lookup_total_2. lia.
    + change (R (l !!! i) (l !!! j)). apply IH; lia.
Qed.

Section dedup_facts.
Context `{!Argsort}.
Variables precisions recalls : list float.
Hypothesis Hok : raw_curve_ok precisions recalls.

Let idx := kept recalls precisions.

Lemma kept_sorted : StronglySorted lt idx.
Proof. apply StronglySorted_filter, StronglySorted_seq. Qed.

Lemma kept_nonempty : idx ≠ [].
Proof.
  destruct (kept_max recalls precisions (raw_recalls_finite _ _ Hok)
              (raw_precisions_finite _ _ Hok) 0 (raw_nonempty _ _ Hok))
    as (k & Hk & _).
  fold idx in Hk. intros E. rewrite E in Hk. by apply elem_of_nil in Hk.
Qed.

(** Recall is strictly decreasing along the deduplicated curve. *)
Lemma dedup_recall_decreasing :
  StronglySorted (λ x y, fltb y x = true) (np_take recalls idx).
Proof.
  unfold np_take.
  eapply StronglySorted_fmap; [|apply StronglySorted_elem_of, kept_sorted].
  intros i j (Hij & Hi & Hj). simpl.
  pose proof (kept_lt _ _ _ Hj) as Hjn.
  apply fleb_neq_fltb.
  - apply lookup_total_finite, (raw_recalls_finite _ _ Hok).
  - apply lookup_total_finite, (raw_recalls_finite _ _ Hok).
  - by apply (StronglySorted_lookup_total _ _ i j (raw_sorted _ _ Hok)).
  - intros E. symmetry in E.
    apply (kept_unique _ _ (raw_recalls_finite _ _ Hok) _ _ Hi Hj) in E. lia.
Qed.

(** No retained point has precision and recall both zero. *)
Lemma dedup_nonzero k :
  k ∈ idx → ∃ p r, precisions !!! k = Fin p ∧ recalls !!! k = Fin r
                   ∧ 0 ≤ p ∧ 0 ≤ r ∧ 0 < p + r.
Proof.
  intros Hk. pose proof (kept_lt _ _ _ Hk) as Hkn.
  destruct (raw_nonneg _ _ Hok k Hkn) as [Hr Hp].
  destruct (finite_inv (precisions !!! k)) as [p Ep].
  { apply lookup_total_finite, (raw_precisions_finite _ _ Hok). }
  destruct (finite_inv (recalls !!! k)) as [r Er].
  { apply lookup_total_finite, (raw_recalls_finite _ _ Hok). }
  rewrite Ep in Hp. rewrite Er in Hr. apply fleb_Fin in Hp, Hr.
  exists p, r. split_and!; [done..|].
  destruct (Qcle_lt_or_eq _ _ Hr) as [Hr'| <-].
  { by apply Qcplus_nonneg_pos. }
  destruct (raw_final _ _ Hok) as (c & Hc & HRc & HPc).
  destruct (kept_max recalls precisions (raw_recalls_finite _ _ Hok)
              (raw_precisions_finite _ _ Hok) c Hc) as (k' & Hk' & HR' & Hle).
  assert (k' = k) as ->.
  { apply (kept_unique _ _ (raw_recalls_finite _ _ Hok) _ _ Hk' Hk).
    by rewrite HR', HRc, Er. }
  rewrite HPc, Ep in Hle. apply fleb_Fin in Hle.
  rewrite Qcplus_0_r. eapply Qclt_le_trans; [|exact Hle]. done.
Qed.
End dedup_facts.

(** ** [argmax] *)

Lemma fleb_refl_finite x : finite x → fleb x x = true.
Proof. intros [a ->]%finite_inv. apply fleb_Fin, Qcle_refl. Qed.

Lemma fleb_trans_finite x y z :
  finite x → finite y → finite z → fleb x y = true → fleb y z = true → fleb x z = true.
Proof.
  intros [a ->]%finite_inv [b ->]%finite_inv [c ->]%finite_inv.
  rewrite !fleb_Fin. apply Qcle_trans.
Qed.

Lemma fltb_fleb_trans_finite x y z :
  finite x → finite y → finite z → fleb x y = true → fltb y z = true → fltb x z = true.
Proof.
  intros [a ->]%finite_inv [b ->]%finite_inv [c ->]%finite_inv.
  rewrite !fleb_Fin, !fltb_Fin. apply Qcle_lt_trans.
Qed.

Lemma fleb_false_fltb x y : finite x → finite y → fleb x y = false → fltb y x = true.
Proof.
  intros [a ->]%finite_inv [b ->]%finite_inv.
  rewrite <- not_true_iff_false, fleb_Fin, fltb_Fin. apply Qcnot_le_lt.
Qed.

Lemma fltb_fleb_weak x y : fltb x y = true → fleb x y = true.
Proof. intros H. unfold fleb. by rewrite H. Qed.

Lemma argmax_loop_spec ip : ∀ pre mp idx,
  Forall finite (pre ++ ip) →
  (idx < length pre)%nat → (pre ++ ip) !!! idx = mp →
  (∀ j, (j < length pre)%nat → fleb ((pre ++ ip) !!! j) mp = true) →
  (∀ j, (j < idx)%nat → fltb ((pre ++ ip) !!! j) mp = true) →
  let r := argmax_loop mp idx (length pre) ip in
  (r < length (pre ++ ip))%nat ∧
  (∀ j, (j < length (pre ++ ip))%nat →
        fleb ((pre ++ ip) !!! j) ((pre ++ ip) !!! r) = true) ∧
  (∀ j, (j < r)%nat → fltb ((pre ++ ip) !!! j) ((pre ++ ip) !!! r) = true).
Proof.
  induction ip as [|x ip IH]; intros pre mp idx Hfin Hidx Hmp Hle Hlt.
  - cbn [argmax_loop]. rewrite app_nil_r in *. rewrite Hmp. by split_and!.
  - cbn [argmax_loop].
    assert (finite x) as Hx.
    { rewrite Forall_forall in Hfin. apply Hfin, elem_of_app. right. by left. }
    assert (finite mp) as Hfmp by (rewrite <- Hmp; by apply lookup_total_finite).
    assert ((pre ++ x :: ip) !!! length pre = x) as Hxlook.
    { by rewrite list_lookup_total_middle. }
    assert (pre ++ x :: ip = (pre ++ [x]) ++ ip) as Happ by (by rewrite <- app_assoc).
    assert (length (pre ++ [x]) = S (length pre)) as Hlen.
    { rewrite length_app. simpl. lia. }
    destruct (fleb x mp) eqn:E.
    + rewrite Happ in *. rewrite <- Hlen. apply IH; [done|lia|done| |done].
      intros j Hj. destruct (decide (j = length pre)) as [->|Hne].
      * by rewrite Hxlook.
      * apply Hle. lia.
    + destruct x as [q| |]; [|done..]. cbn [np_isnan].
      apply fleb_false_fltb in E; [|done..].
      rewrite Happ in *. rewrite <- Hlen. apply IH; [done|lia|done| |].
      * intros j Hj. destruct (decide (j = length pre)) as [->|Hne].
        -- rewrite Hxlook. by apply fleb_refl_finite.
        -- apply fltb_fleb_weak.
           eapply fltb_fleb_trans_finite; [| | |apply Hle; lia|exact E]; try done.
           by apply lookup_total_finite.
      * intros j Hj.
        eapply fltb_fleb_trans_finite; [| | |apply Hle; lia|exact E]; try done.
        by apply lookup_total_finite.
Qed.

(** On an array without not-a-number, [argmax] is the first index of the
    greatest element. *)
Lemma np_argmax_spec (a : list float) :
  Forall finite a → a ≠ [] →
  ∃ idx, np_argmax a = Ok idx ∧ (idx < length a)%nat ∧
    (∀ j, (j < length a)%nat → fleb (a !!! j) (a !!! idx) = true) ∧
    (∀ j, (j < idx)%nat → fltb (a !!! j) (a !!! idx) = true).
Proof.
  intros Hfin Hne. destruct a as [|x a]; [done|].
  assert (finite x) as Hx by (by apply Forall_cons in Hfin as [? _]).
  destruct x as [q| |]; [|done..]. cbn [np_argmax np_isnan].
  eexists. split; [done|].
  apply (argmax_loop_spec a [Fin q] (Fin q) 0); [done|simpl; lia|done| |].
  - intros j Hj. simpl in Hj. replace j with 0%nat by lia.
    by apply fleb_refl_finite.
  - intros j Hj. lia.
Qed.

(** ** F1 and the [Plot] constructor *)

Lemma zip_with_zip_with {A B C D E} (f : C → D → E) (g : A → B → C) (h : A → B → D)
    (l : list A) (k : list B) :
  zip_with f (zip_with g l k) (zip_with h l k) = zip_with (λ x y, f (g x y) (h x y)) l k.
Proof.
  revert k. induction l as [|x l IH]; intros [|y k]; [done..|]. cbn. by rewrite IH.
Qed.

Lemma broadcast_same_length f a b :
  length a = length b → broadcast f a b = Ok (zip_with f a b).
Proof. intros H. unfold broadcast. by rewrite decide_True. Qed.

Lemma f1_formula_eq precision recall :
  length precision = length recall →
  f1_formula precision recall = Ok (zip_with F1_of precision recall).
Proof.
  intros Hlen. unfold f1_formula.
  rewrite broadcast_same_length by (by rewrite length_fmap). cbn [rbind].
  rewrite broadcast_same_length by done. cbn [rbind].
  rewrite broadcast_same_length
    by (rewrite !length_zip_with, length_fmap; lia).
  f_equal. rewrite zip_with_fmap_l.
  apply (zip_with_zip_with fdiv (λ p r, fmul (fmul f2 p) r) fadd).
Qed.

Lemma F1_of_finite p r : 0 ≤ p → 0 ≤ r → 0 < p + r → finite (F1_of (Fin p) (Fin r)).
Proof.
  intros Hp Hr Hpr. unfold F1_of. cbn [fmul fadd f2 fdiv].
  rewrite decide_False; [done|]. intros E. rewrite E in Hpr. by apply Qclt_not_eq in Hpr.
Qed.

(** What [Plot.__init__] returns for arrays of one length. *)
Lemma Plot_init_Ok recall precision threshold f1 f1_point bin_point :
  length precision = length recall → recall ≠ [] →
  ∃ r p,
    Plot_init recall precision threshold f1 f1_point bin_point
    = Ok {| recall := r; precision := p; threshold := threshold;
            f1 := default (zip_with F1_of precision recall) f1;
            f1_point := f1_point; bin_point := bin_point |}
    ∧ length r = length p ∧ (2 ≤ length r)%nat
    ∧ (if decide (length recall < 2)%nat
       then ∃ r0 p0, recall = [r0] ∧ precision = [p0] ∧
              (r, p) = if truthy r0 then ([f0; r0], [f0; p0]) else ([f0; f1_], [p0; f0])
       else r = recall ∧ p = precision).
Proof.
  intros Hlen Hne. unfold Plot_init.
  assert (match f1 with
          | Some f1 => Ok f1
          | None => f1_formula precision recall
          end = Ok (default (zip_with F1_of precision recall) f1)) as ->.
  { destruct f1; [done|]. by apply f1_formula_eq. }
  cbn [rbind]. destruct (decide (length recall < 2)%nat) as [Hlt|Hge].
  - destruct recall as [|r0 [|? ?]]; [done| |simpl in Hlt; lia].
    destruct precision as [|p0 [|? ?]]; [done| |done].
    cbn [getitem lookup list_lookup rbind].
    destruct (truthy r0) eqn:E; eexists _, _; (split; [done|]);
      (split; [done|]); (split; [simpl; lia|]); exists r0, p0; by rewrite E.
  - eexists _, _. split; [done|]. split_and!; [done|lia|done..].
Qed.

(** ** The edge-case repair and the store *)

Lemma repair_pred_step (h : store) pred P :
  h !! pred = Some (FloatArray P) →
  let m := (if negb (np_any P) then
              pred <- np_copy pred;;
              _ <- setitem_float pred 0 (1 // 2);;
              ret pred
            else ret pred) in
  ∃ h', h ⊆ h' ∧
    match repaired_pred P with
    | Ok P' => ∃ l, m h = (Ok l, h') ∧ h' !! l = Some (FloatArray P')
    | Raise e => m h = (Raise e, h')
    end.
Proof.
  intros Hp m. subst m. unfold repaired_pred. destruct (np_any P); cbn [negb].
  { exists h. split; [done|]. by exists pred. }
  unfold bind, np_copy. rewrite Hp. cbn zeta.
  set (l := fresh (dom h)).
  assert (h !! l = None) as Hl by apply not_elem_of_dom, is_fresh.
  unfold setitem_float. rewrite lookup_insert_eq.
  destruct (decide (0 < length P)%nat).
  - eexists. split; [|exists l; split; [done|apply lookup_insert_eq]].
    rewrite insert_insert_eq. by apply insert_subseteq.
  - eexists. split; [|done]. by apply insert_subseteq.
Qed.

Lemma repair_bin_step (h : store) bin_ B :
  h !! bin_ = Some (BoolArray B) →
  let m := (if negb (np_any_bool B) then
              bin_ <- np_copy bin_;;
              _ <- setitem_bool bin_ 0 true;;
              ret bin_
            else ret bin_) in
  ∃ h', h ⊆ h' ∧
    match repaired_bin B with
    | Ok B' => ∃ l, m h = (Ok l, h') ∧ h' !! l = Some (BoolArray B')
    | Raise e => m h = (Raise e, h')
    end.
Proof.
  intros Hp m. subst m. unfold repaired_bin. destruct (np_any_bool B); cbn [negb].
  { exists h. split; [done|]. by exists bin_. }
  unfold bind, np_copy. rewrite Hp. cbn zeta.
  set (l := fresh (dom h)).
  assert (h !! l = None) as Hl by apply not_elem_of_dom, is_fresh.
  unfold setitem_bool. rewrite lookup_insert_eq.
  destruct (decide (0 < length B)%nat).
  - eexists. split; [|exists l; split; [done|apply lookup_insert_eq]].
    rewrite insert_insert_eq. by apply insert_subseteq.
  - eexists. split; [|done]. by apply insert_subseteq.
Qed.

Section evaluate_spec.
Context `{!Argsort, !Segmentation}.

(** [_evaluate_and_plot] only extends the store, and computes the
    function [evaluate_arrays] of the repaired arrays. *)
Lemma _evaluate_and_plot_spec (h : store) pred bin_ gt P B G :
  h !! pred = Some (FloatArray P) →
  h !! bin_ = Some (BoolArray B) →
  h !! gt = Some (BoolArray G) →
  ∃ h', h ⊆ h' ∧
    _evaluate_and_plot pred bin_ gt h
    = ((let? p := repaired_pred P in
        let? b := repaired_bin B in
        evaluate_arrays p b G), h').
Proof.
  intros Hp Hb Hg. unfold _evaluate_and_plot.
  unfold bind at 1. unfold load_float at 1. rewrite Hp.
  unfold bind at 1.
  destruct (repair_pred_step h pred P Hp) as (h1 & Hh1 & Hstep1).
  destruct (repaired_pred P) as [P'|e].
  2:{ rewrite Hstep1. by exists h1. }
  destruct Hstep1 as (lp & -> & Hlp). cbn [rbind].
  pose proof (lookup_weaken _ _ _ _ Hb Hh1) as Hb1.
  pose proof (lookup_weaken _ _ _ _ Hg Hh1) as Hg1.
  unfold bind at 1. unfold load_bool at 1. rewrite Hb1.
  unfold bind at 1.
  destruct (repair_bin_step h1 bin_ B Hb1) as (h2 & Hh2 & Hstep2).
  destruct (repaired_bin B) as [B'|e].
  2:{ rewrite Hstep2. exists h2. split; [by etrans|done]. }
  destruct Hstep2 as (lb & -> & Hlb). cbn [rbind].
  pose proof (lookup_weaken _ _ _ _ Hlp Hh2) as Hlp2.
  pose proof (lookup_weaken _ _ _ _ Hg1 Hh2) as Hg2.
  unfold bind, load_float, load_bool, lift. rewrite Hlp2, Hlb, Hg2.
  exists h2. split; [by etrans|done].
Qed.

Lemma evaluate_eq pred bin_ gt :
  evaluate pred bin_ gt
  = (let? p := repaired_pred pred in
     let? b := repaired_bin bin_ in
     evaluate_arrays p b gt).
Proof.
  unfold evaluate.
  destruct (_evaluate_and_plot_spec (input_store pred bin_ gt) 1 2 3 pred bin_ gt)
    as (h' & _ & ->); done.
Qed.
End evaluate_spec.


Section evaluate_arrays.
Context `{!Argsort, !Segmentation}.

Lemma evaluate_arrays_spec pred bin_ gt precisions recalls thresholds :
  precision_recall_curve gt pred = Ok (precisions, recalls, thresholds) →
  let idx := kept (repair recalls) precisions in
  let P := np_take precisions idx in
  let R := np_take (repair recalls) idx in
  let T := np_take (thresholds ++ [f1_]) idx in
  let f1scores := zip_with F1_of P R in
  ∃ i plot,
    np_argmax f1scores = Ok i ∧ (i < length idx)%nat ∧
    Forall finite f1scores ∧ length f1scores = length idx ∧
    Plot_init R P (Some T) (Some f1scores) (Some (R !!! i, P !!! i))
      (Some (Metric_last (update Metric_new (recall_compute gt bin_)),
             Metric_last (update Metric_new (precision_compute gt bin_))))
    = Ok plot ∧
    evaluate_arrays pred bin_ gt
    = Ok ({| pe_f1score := update Metric_new (f1scores !!! i);
             pe_precision := update Metric_new (P !!! i);
             pe_recall := update Metric_new (R !!! i);
             pe_iou := update Metric_new
               (iou_compute gt ((λ p, fgeb p (T !!! i)) <$> pred));
             pe_auc := update Metric_new (auc_compute P R) |},
          {| be_precision := update Metric_new (precision_compute gt bin_);
             be_recall := update Metric_new (recall_compute gt bin_);
             be_others := (λ c, update Metric_new (c gt bin_)) <$> other_compute |},
          plot).
Proof.
  intros Hprc idx P R T f1scores.
  pose proof (precision_recall_curve_ok _ _ _ _ _ Hprc) as [Hok HlenT].
  assert (length P = length idx) as HlP by apply np_take_length.
  assert (length R = length idx) as HlR by apply np_take_length.
  assert (length T = length idx) as HlT by apply np_take_length.
  assert (length f1scores = length idx) as Hlf.
  { unfold f1scores. rewrite length_zip_with. lia. }
  assert (idx ≠ []) as Hne by (by apply kept_nonempty).
  assert (0 < length idx)%nat as Hpos by (destruct idx; [done|simpl; lia]).
  assert (Forall finite f1scores) as Hfin.
  { apply Forall_lookup. intros j x Hx.
    unfold f1scores in Hx. apply lookup_zip_with_Some in Hx as (p & r & -> & Hp & Hr).
    unfold P, R, np_take in Hp, Hr. rewrite list_lookup_fmap in Hp, Hr.
    destruct (idx !! j) as [k|] eqn:Hk; [|done]. simpl in Hp, Hr.
    injection Hp as <-. injection Hr as <-.
    destruct (dedup_nonzero _ _ Hok k) as (p & r & -> & -> & ? & ? & ?).
    { by eapply list_elem_of_lookup_2. }
    by apply F1_of_finite. }
  destruct (np_argmax_spec f1scores Hfin) as (i & Hi & Hilt & _).
  { intros E. rewrite E in Hlf. simpl in Hlf. lia. }
  destruct (Plot_init_Ok R P (Some T) (Some f1scores) (Some (R !!! i, P !!! i))
              (Some (Metric_last (update Metric_new (recall_compute gt bin_)),
                     Metric_last (update Metric_new (precision_compute gt bin_)))))
    as (r & p & Hplot & _); [lia|by intros E; rewrite E in HlR; simpl in HlR; lia|].
  eexists i, _. split_and!; [done|lia|done|done|exact Hplot|].
  unfold evaluate_arrays. rewrite (pr_curve_eq _ _ _ _ _ Hprc). cbn [rbind].
  fold idx. fold P R T. rewrite f1_formula_eq by lia. cbn [rbind].
  fold f1scores. rewrite Hi. cbn [rbind].
  assert (∀ (a : list float), (i < length a)%nat → getitem a i = Ok (a !!! i)) as Hget.
  { intros a Ha. unfold getitem. destruct (lookup_lt_is_Some_2 a i Ha) as [x Hx].
    by rewrite (list_lookup_total_correct _ _ _ Hx), Hx. }
  rewrite !Hget by lia. cbn [rbind]. cbv zeta.
  cbn [be_recall be_precision]. rewrite Hplot. done.
Qed.
End evaluate_arrays.

Lemma pr_curve_argsort_irrelevant (A1 A2 : Argsort) gt pred :
  @pr_curve A1 gt pred = @pr_curve A2 gt pred.
Proof.
  destruct (precision_recall_curve gt pred) as [[[P R] T]|e] eqn:E.
  - rewrite !(pr_curve_eq _ _ _ _ _ E).
    pose proof (precision_recall_curve_ok _ _ _ _ _ E) as [Hok _].
    rewrite (kept_argsort_irrelevant A1 A2); [done|..].
    + apply (raw_recalls_finite _ _ Hok).
    + apply (raw_precisions_finite _ _ Hok).
    + apply (raw_no_ties _ _ Hok).
  - by rewrite !(pr_curve_Raise _ _ _ E).
Qed.

Lemma pr_curve_inv `{!Argsort} gt pred P R T :
  pr_curve gt pred = Ok (P, R, T) →
  ∃ precisions recalls thresholds,
    precision_recall_curve gt pred = Ok (precisions, recalls, thresholds).
Proof.
  unfold pr_curve. destruct (precision_recall_curve gt pred) as [[[P0 R0] T0]|e]; [|done].
  intros _. by eexists _, _, _.
Qed.

Lemma StronglySorted_fltb_NoDup (l : list float) :
  StronglySorted (λ x y, fltb y x = true) l → NoDup l.
Proof.
  induction 1 as [|x l Hl IH Hx]; constructor; [|done].
  intros Hin. rewrite Forall_forall in Hx. specialize (Hx x Hin).
  by rewrite fltb_irrefl in Hx.
Qed.

Lemma update_new_last v : Metric_last (update Metric_new v) = v.
Proof. done. Qed.

Lemma update_new_mean v : finite v → mean (update Metric_new v) = v.
Proof.
  intros [q ->]%finite_inv. cbn. change (Z.of_nat 1) with 1%Z.
  rewrite Z2Qc_inj_1. rewrite decide_False by done.
  f_equal. field. done.
Qed.

Lemma evaluate_argsort_irrelevant (A1 A2 : Argsort) `{!Segmentation} pred bin_ gt :
  @evaluate A1 _ pred bin_ gt = @evaluate A2 _ pred bin_ gt.
Proof.
  rewrite !evaluate_eq.
  destruct (repaired_pred pred) as [p|e]; [|done].
  destruct (repaired_bin bin_) as [b|e]; [|done].
  cbn [rbind]. unfold evaluate_arrays.
  by rewrite (pr_curve_argsort_irrelevant A1 A2).
Qed.

(** * The claims *)

(** ** Which of several tied points is retained *)


Section py_sorted_ties.
Context {A : Type} (key : A → float).
Hypothesis key_finite : ∀ x, finite (key x).

End py_sorted_ties.

Section stable_order.
Variable ltk : nat → nat → bool.
Hypothesis ltk_asym : ∀ i j, ltk i j = true → ltk j i = false.
Hypothesis ltk_negtrans : ∀ i j k, ltk j i = false → ltk k j = false → ltk k i = false.



End stable_order.




Section retained_tie.
Context `{!Argsort}.
Variables recalls precisions : list float.
Hypothesis recalls_finite : Forall finite recalls.
Hypothesis precisions_finite : Forall finite precisions.


End retained_tie.




(** C2, as amended.  After the duplicate-recall suppression the recall
    sequence of the per-sample curve is strictly decreasing in array order
    (the order of [precision_recall_curve]); in particular no two of its
    elements are equal. *)
Theorem C2_recall_strictly_decreasing `{!Argsort} gt pred P R T :
  pr_curve gt pred = Ok (P, R, T) →
  StronglySorted (λ x y, fltb y x = true) R ∧ NoDup R.
Proof.
  intros Hcurve.
  destruct (pr_curve_inv _ _ _ _ _ Hcurve) as (P0 & R0 & T0 & Hprc).
  rewrite (pr_curve_eq _ _ _ _ _ Hprc) in Hcurve. injection Hcurve as <- <- <-.
  pose proof (precision_recall_curve_ok _ _ _ _ _ Hprc) as [Hok _].
  assert (StronglySorted (λ x y, fltb y x = true)
            (np_take (repair R0) (kept (repair R0) P0))) as Hs
    by (by apply dedup_recall_decreasing).
  split; [done|]. by apply StronglySorted_fltb_NoDup.
Qed.

(** C10.  Determinism of [evaluate]: its result is a function of the three
    input arrays alone; whichever way the non-stable [np.argsort] orders
    equal recall values, the same records and the same curve come out. *)
Theorem C10_evaluate_deterministic (A1 A2 : Argsort) `{!Segmentation} pred bin_ gt :
  @evaluate A1 _ pred bin_ gt = @evaluate A2 _ pred bin_ gt.
Proof. apply evaluate_argsort_irrelevant. Qed.

(** C3.  Best-F1 selection: F1 is [2·precision·recall/(precision+recall)]
    element by element over the deduplicated curve; the selected index is
    the first index at which F1 is greatest; the F1, precision and recall
    folded into the probabilistic record are those at that index. *)
Theorem C3_best_f1_selection `{!Argsort, !Segmentation} pred bin_ gt pe be plot :
  evaluate pred bin_ gt = Ok (pe, be, plot) →
  ∃ pred' P R T idx,
    repaired_pred pred = Ok pred' ∧ pr_curve gt pred' = Ok (P, R, T)
    ∧ length P = length R
    ∧ f1 plot = zip_with F1_of P R
    ∧ np_argmax (f1 plot) = Ok idx ∧ (idx < length (f1 plot))%nat
    ∧ (∀ j, (j < length (f1 plot))%nat →
            fleb (f1 plot !!! j) (f1 plot !!! idx) = true)
    ∧ (∀ j, (j < idx)%nat → fltb (f1 plot !!! j) (f1 plot !!! idx) = true)
    ∧ pe_f1score pe = update Metric_new (f1 plot !!! idx)
    ∧ pe_precision pe = update Metric_new (P !!! idx)
    ∧ pe_recall pe = update Metric_new (R !!! idx)
    ∧ mean (pe_f1score pe) = f1 plot !!! idx
    ∧ mean (pe_precision pe) = P !!! idx
    ∧ mean (pe_recall pe) = R !!! idx.
Proof.
  rewrite evaluate_eq. intros Heval.
  destruct (repaired_pred pred) as [pred'|e]; [|done].
  destruct (repaired_bin bin_) as [bin'|e]; [|done]. cbn [rbind] in Heval.
  assert (∃ P0 R0 T0, precision_recall_curve gt pred' = Ok (P0, R0, T0))
    as (P0 & R0 & T0 & Hprc).
  { unfold evaluate_arrays, pr_curve in Heval.
    destruct (precision_recall_curve gt pred') as [[[P0 R0] T0]|e]; [|done].
    by eexists _, _, _. }
  destruct (evaluate_arrays_spec pred' bin' gt _ _ _ Hprc)
    as (i & plot' & Hi & Hilt & Hfin & Hlf & Hplot & Heq).
  rewrite Heq in Heval. injection Heval as <- <- <-.
  pose proof (precision_recall_curve_ok _ _ _ _ _ Hprc) as [Hok _].
  set (idx := kept (repair R0) P0) in *.
  set (P := np_take P0 idx) in *. set (R := np_take (repair R0) idx) in *.
  set (T := np_take (T0 ++ [f1_]) idx) in *.
  set (f1scores := zip_with F1_of P R) in *.
  assert (f1 plot' = f1scores) as Hf1.
  { destruct (Plot_init_Ok R P (Some T) (Some f1scores) (Some (R !!! i, P !!! i))
                (Some (Metric_last (update Metric_new (recall_compute gt bin')),
                       Metric_last (update Metric_new (precision_compute gt bin')))))
      as (r & p & Hplot' & _).
    - unfold P, R. by rewrite !np_take_length.
    - intros E. unfold f1scores in Hlf. rewrite E, length_zip_with in Hlf.
      simpl in Hlf. lia.
    - rewrite Hplot in Hplot'. by injection Hplot' as ->. }
  destruct (np_argmax_spec f1scores Hfin) as (i' & Hi' & _ & Hmax & Hfirst).
  { intros E. rewrite E in Hlf. simpl in Hlf. lia. }
  rewrite Hi in Hi'. injection Hi' as <-.
  assert (i ∈ seq 0 (length idx)) as Hiseq by (apply elem_of_seq; lia).
  assert (∃ k, idx !! i = Some k) as [k Hk] by (by apply lookup_lt_is_Some_2).
  assert (k ∈ idx) as Hkin by (by eapply list_elem_of_lookup_2).
  destruct (dedup_nonzero _ _ Hok k Hkin) as (p & r & Hp & Hr & _).
  assert (P !!! i = Fin p) as HPi.
  { apply list_lookup_total_correct. unfold P, np_take.
    by rewrite list_lookup_fmap, Hk, <- Hp. }
  assert (R !!! i = Fin r) as HRi.
  { apply list_lookup_total_correct. unfold R, np_take.
    by rewrite list_lookup_fmap, Hk, <- Hr. }
  exists pred', P, R, T, i. rewrite Hf1. split_and!; try done.
  - by apply pr_curve_eq.
  - unfold P, R. by rewrite !np_take_length.
  - lia.
  - cbn [pe_f1score]. apply update_new_mean. by apply lookup_total_finite.
  - cbn [pe_precision]. apply update_new_mean. by rewrite HPi.
  - cbn [pe_recall]. apply update_new_mean. by rewrite HRi.
Qed.

(** C4.  The edge-case repair does not mutate the caller's arrays: whatever
    the store and whatever aliasing among the three references, after
    [_evaluate_and_plot] every array of the store, the three inputs among
    them, is what it was; the computation ran on the repaired arrays: a copy
    with first element [0.5] of an all-zero prediction, a copy with first
    element [True] of an all-false binarised prediction. *)
Theorem C4_inputs_not_mutated `{!Argsort, !Segmentation}
    (h : store) pred bin_ gt P B G :
  h !! pred = Some (FloatArray P) →
  h !! bin_ = Some (BoolArray B) →
  h !! gt = Some (BoolArray G) →
  let r := (_evaluate_and_plot pred bin_ gt h).1 in
  let h' := (_evaluate_and_plot pred bin_ gt h).2 in
  h' !! pred = Some (FloatArray P)
  ∧ h' !! bin_ = Some (BoolArray B)
  ∧ h' !! gt = Some (BoolArray G)
  ∧ (∀ l a, h !! l = Some a → h' !! l = Some a)
  ∧ r = (let? p := repaired_pred P in
         let? b := repaired_bin B in
         evaluate_arrays p b G)
  ∧ (np_any P = false → P ≠ [] → repaired_pred P = Ok (<[0%nat := 1 // 2]> P))
  ∧ (np_any P = true → repaired_pred P = Ok P)
  ∧ (np_any_bool B = false → B ≠ [] → repaired_bin B = Ok (<[0%nat := true]> B))
  ∧ (np_any_bool B = true → repaired_bin B = Ok B).
Proof.
  intros Hp Hb Hg r h'.
  destruct (_evaluate_and_plot_spec h pred bin_ gt P B G Hp Hb Hg) as (h1 & Hsub & Heq).
  subst r h'. rewrite Heq. cbn [fst snd].
  split_and!; try (by eapply lookup_weaken); try done.
  - intros l a Hl. by eapply lookup_weaken.
  - intros Hany Hne. unfold repaired_pred. rewrite Hany.
    rewrite decide_True; [done|]. destruct P; [done|simpl; lia].
  - intros Hany. unfold repaired_pred. by rewrite Hany.
  - intros Hany Hne. unfold repaired_bin. rewrite Hany.
    rewrite decide_True; [done|]. destruct B; [done|simpl; lia].
  - intros Hany. unfold repaired_bin. by rewrite Hany.
Qed.

(** ** Interpolation onto the grid *)

Lemma for_each_Ok {A B} (f : A → result B) (l : list A) (g : A → B) :
  (∀ x, x ∈ l → f x = Ok (g x)) → for_each f l = Ok (g <$> l).
Proof.
  induction l as [|x l IH]; intros Hf; [done|]. cbn [for_each].
  rewrite (Hf x) by (by left). cbn [rbind].
  rewrite IH by (intros y Hy; apply Hf; by right). done.
Qed.

Lemma for_each_Raise {A B} (f : A → result B) (l : list A) e :
  for_each f l = Raise e → ∃ x, x ∈ l ∧ f x = Raise e.
Proof.
  induction l as [|x l IH]; [done|]. cbn [for_each].
  destruct (f x) as [b|e'] eqn:E; cbn [rbind].
  - destruct (for_each f l) as [bs|e'']; [done|]. cbn [rbind].
    intros [= ->]. destruct IH as (y & Hy & Hfy); [done|]. exists y. split; [by right|done].
  - intros [= ->]. exists x. split; [by left|done].
Qed.

Lemma for_each_inv {A B} (f : A → result B) (l : list A) bs :
  for_each f l = Ok bs → Forall2 (λ x b, f x = Ok b) l bs.
Proof.
  revert bs. induction l as [|x l IH]; intros bs; cbn [for_each].
  - intros [= <-]. constructor.
  - destruct (f x) as [b|e'] eqn:E; [|done]. cbn [rbind].
    destruct (for_each f l) as [bs'|e'']; [|done]. cbn [rbind].
    intros [= <-]. constructor; [done|]. by apply IH.
Qed.

Lemma np_lt_finite a b : finite a → finite b → np_lt a b = fltb a b.
Proof. intros [? ->]%finite_inv [? ->]%finite_inv. apply np_lt_Fin. Qed.

Section interp1d.
Context `{!Argsort}.
Variables x y : list float.
Hypothesis x_finite : Forall finite x.
Hypothesis xy_length : length y = length x.
Hypothesis x_length : (2 ≤ length x)%nat.

Let ind := argsort x.
Let xs := np_take x ind.
Let ys := np_take y ind.

Lemma ind_length : length ind = length x.
Proof. unfold ind. by rewrite argsort_perm, length_seq. Qed.

Lemma xs_length : length xs = length x.
Proof. unfold xs. by rewrite np_take_length, ind_length. Qed.

Lemma xs_finite : Forall finite xs.
Proof. apply Forall_fmap, Forall_forall. intros i _. by apply lookup_total_finite. Qed.

Lemma xs_elem r : r ∈ xs ↔ r ∈ x.
Proof.
  unfold xs, np_take. rewrite list_elem_of_fmap. split.
  - intros (i & -> & Hi). apply list_elem_of_lookup_total_2.
    unfold ind in Hi. rewrite argsort_perm in Hi. apply elem_of_seq in Hi. lia.
  - intros (i & Hi)%list_elem_of_lookup. exists i.
    split; [by rewrite (list_lookup_total_correct _ _ _ Hi)|].
    unfold ind. rewrite argsort_perm. apply elem_of_seq.
    apply lookup_lt_Some in Hi. lia.
Qed.

Lemma xs_min r : r ∈ x → fleb (xs !!! 0%nat) r = true.
Proof.
  intros Hr%xs_elem. apply list_elem_of_lookup_total in Hr as (j & Hj & <-).
  pose proof xs_finite as Hfin.
  destruct (decide (j = 0%nat)) as [->|Hne].
  - apply fleb_refl_finite. by apply lookup_total_finite.
  - apply fltb_false_fleb; [by apply lookup_total_finite..|].
    rewrite <- np_lt_finite by (by apply lookup_total_finite).
    apply (StronglySorted_lookup_total _ xs 0 j (argsort_sorted x)); lia.
Qed.

Lemma xs_max r : r ∈ x → fleb r (xs !!! (length xs - 1)%nat) = true.
Proof.
  intros Hr%xs_elem. apply list_elem_of_lookup_total in Hr as (j & Hj & <-).
  pose proof xs_finite as Hfin.
  destruct (decide (j = length xs - 1)%nat) as [->|Hne].
  - apply fleb_refl_finite. by apply lookup_total_finite.
  - apply fltb_false_fleb; [by apply lookup_total_finite..|].
    rewrite <- np_lt_finite by (by apply lookup_total_finite).
    apply (StronglySorted_lookup_total _ xs j _ (argsort_sorted x)); lia.
Qed.

Lemma xs_first_elem : xs !!! 0%nat ∈ x.
Proof. apply xs_elem, list_elem_of_lookup_total_2. rewrite xs_length. lia. Qed.

Lemma xs_last_elem : xs !!! (length xs - 1)%nat ∈ x.
Proof. apply xs_elem, list_elem_of_lookup_total_2. rewrite xs_length. lia. Qed.

Lemma in_range_iff g :
  finite g →
  in_range x g ↔ fltb g (xs !!! 0%nat) = false
                 ∧ fgtb g (xs !!! (length xs - 1)%nat) = false.
Proof.
  intros Hg. pose proof xs_finite as Hfin.
  assert (finite (xs !!! 0%nat)) as H0 by (by apply lookup_total_finite).
  assert (finite (xs !!! (length xs - 1)%nat)) as H1 by (by apply lookup_total_finite).
  split.
  - intros (r1 & r2 & Hr1 & Hr2 & Hle1 & Hle2).
    assert (finite r1) as Hf1 by (rewrite Forall_forall in x_finite; auto).
    assert (finite r2) as Hf2 by (rewrite Forall_forall in x_finite; auto).
    split; apply not_true_iff_false; unfold fgtb; intros Hlt.
    + eapply fltb_fleb_contra; [exact Hlt|].
      eapply fleb_trans_finite; [| | |apply (xs_min r1 Hr1)|exact Hle1]; done.
    + eapply fltb_fleb_contra; [exact Hlt|].
      eapply fleb_trans_finite; [| | |exact Hle2|apply (xs_max r2 Hr2)]; done.
  - intros [Hlo Hhi]. unfold fgtb in Hhi.
    exists (xs !!! 0%nat), (xs !!! (length xs - 1)%nat).
    split_and!; [apply xs_first_elem|apply xs_last_elem|..];
      by apply fltb_false_fleb.
Qed.

Lemma interp1d_eq x_new :
  interp1d x y x_new
  = if existsb (λ v, fltb v (xs !!! 0%nat)) x_new then Raise (ValueError below_msg)
    else if existsb (λ v, fgtb v (xs !!! (length xs - 1)%nat)) x_new
         then Raise (ValueError above_msg)
         else Ok (np_interp1 xs ys <$> x_new).
Proof.
  unfold interp1d. rewrite bool_decide_eq_true_2 by done. cbn [negb].
  fold ind. fold xs. fold ys.
  rewrite bool_decide_eq_false_2; [done|]. rewrite xs_length. lia.
Qed.

Lemma interp1d_in_range x_new :
  Forall finite x_new → Forall (in_range x) x_new →
  interp1d x y x_new = Ok (np_interp1 xs ys <$> x_new).
Proof.
  intros Hfin Hin. rewrite interp1d_eq.
  assert (existsb (λ v, fltb v (xs !!! 0%nat)) x_new = false) as ->.
  { apply not_true_iff_false. intros (v & Hv%list_elem_of_In & Hlt)%existsb_exists.
    rewrite Forall_forall in Hfin, Hin.
    specialize (Hin v Hv). apply in_range_iff in Hin as [Hin _]; [|by apply Hfin].
    congruence. }
  assert (existsb (λ v, fgtb v (xs !!! (length xs - 1)%nat)) x_new = false) as ->; [|done].
  apply not_true_iff_false. intros (v & Hv%list_elem_of_In & Hlt)%existsb_exists.
  rewrite Forall_forall in Hfin, Hin.
  specialize (Hin v Hv). apply in_range_iff in Hin as [_ Hin]; [|by apply Hfin]. congruence.
Qed.

Lemma interp1d_out_of_range x_new g :
  Forall finite x_new → g ∈ x_new → ¬ in_range x g →
  ∃ e, interp1d x y x_new = Raise e ∧ out_of_domain e.
Proof.
  intros Hfin Hg Hout. rewrite interp1d_eq.
  destruct (existsb (λ v, fltb v (xs !!! 0%nat)) x_new) eqn:E1.
  { eexists. split; [done|]. by left. }
  destruct (existsb (λ v, fgtb v (xs !!! (length xs - 1)%nat)) x_new) eqn:E2.
  { eexists. split; [done|]. by right. }
  destruct Hout. rewrite Forall_forall in Hfin.
  apply in_range_iff; [by apply Hfin|]. split.
  - apply not_true_iff_false. intros Hlt.
    apply not_true_iff_false in E1. apply E1, existsb_exists.
    exists g. split; [by apply list_elem_of_In|done].
  - apply not_true_iff_false. intros Hlt.
    apply not_true_iff_false in E2. apply E2, existsb_exists.
    exists g. split; [by apply list_elem_of_In|done].
Qed.

Lemma interp1d_Raise x_new e :
  interp1d x y x_new = Raise e → out_of_domain e.
Proof.
  rewrite interp1d_eq. repeat case_match; [intros [= <-]; by left|intros [= <-]; by right|done].
Qed.
End interp1d.

Lemma interp1d_Raise_witness `{!Argsort} x y x_new e :
  Forall finite x → length y = length x → (2 ≤ length x)%nat → Forall finite x_new →
  interp1d x y x_new = Raise e → ∃ g, g ∈ x_new ∧ ¬ in_range x g.
Proof.
  intros Hx Hxy Hlen Hfin. rewrite interp1d_eq by done.
  rewrite Forall_forall in Hfin.
  destruct (existsb _ x_new) eqn:E1.
  { apply existsb_exists in E1 as (g & Hg%list_elem_of_In & Hlt). intros _.
    exists g. split; [done|]. intros Hr.
    apply (in_range_iff x y) in Hr as [Hr _]; [congruence|auto..]. }
  destruct (existsb (λ v, fgtb v _) x_new) eqn:E2; [|done].
  apply existsb_exists in E2 as (g & Hg%list_elem_of_In & Hlt). intros _.
  exists g. split; [done|]. intros Hr.
  apply (in_range_iff x y) in Hr as [_ Hr]; [congruence|auto..].
Qed.

Lemma for_each_raises {A B} (f : A → result B) (l : list A) x e :
  x ∈ l → f x = Raise e → ∃ x' e', x' ∈ l ∧ f x' = Raise e' ∧ for_each f l = Raise e'.
Proof.
  induction l as [|a l IH]; intros Hx Hfx; [by apply elem_of_nil in Hx|].
  cbn [for_each]. destruct (f a) as [b|e'] eqn:E.
  - apply elem_of_cons in Hx as [->|Hx]; [congruence|].
    destruct (IH Hx Hfx) as (x' & e' & Hx' & Hfx' & ->).
    exists x', e'. split_and!; [by right|done..].
  - exists a, e'. split_and!; [by left|done..].
Qed.

(** ** Errors of the aggregation that are not out-of-domain errors *)

Lemma not_ood_IndexError : ¬ out_of_domain IndexError.
Proof. by intros [|]. Qed.

Lemma not_ood_TypeError : ¬ out_of_domain TypeError.
Proof. by intros [|]. Qed.

Lemma getitem_not_ood {A} (a : list A) i e : getitem a i = Raise e → ¬ out_of_domain e.
Proof. unfold getitem. destruct (a !! i); [done|]. intros [= <-]. apply not_ood_IndexError. Qed.

Lemma np_argmax_not_ood a e : np_argmax a = Raise e → ¬ out_of_domain e.
Proof. destruct a; [|done]. intros [= <-] [|]; discriminate. Qed.

Lemma np_vstack_not_ood rows e : np_vstack rows = Raise e → ¬ out_of_domain e.
Proof.
  unfold np_vstack. destruct rows; [intros [= <-] [|]; discriminate|].
  case_match; [done|]. intros [= <-] [|]; discriminate.
Qed.

Lemma broadcast_not_ood f a b e : broadcast f a b = Raise e → ¬ out_of_domain e.
Proof.
  unfold broadcast. repeat case_match; try done; intros [= <-] [|]; discriminate.
Qed.

Lemma f1_formula_not_ood p r e : f1_formula p r = Raise e → ¬ out_of_domain e.
Proof.
  unfold f1_formula.
  destruct (broadcast fmul _ r) as [num|e1] eqn:E1; cbn [rbind];
    [|intros [= <-]; by eapply broadcast_not_ood].
  destruct (broadcast fadd p r) as [den|e2] eqn:E2; cbn [rbind];
    [|intros [= <-]; by eapply broadcast_not_ood].
  apply broadcast_not_ood.
Qed.

Lemma Plot_init_not_ood r p t f fp bp e :
  Plot_init r p t f fp bp = Raise e → ¬ out_of_domain e.
Proof.
  unfold Plot_init.
  destruct (match f with Some f1 => Ok f1 | None => f1_formula p r end)
    as [f1v|e1] eqn:E1; cbn [rbind].
  2:{ intros [= <-]. destruct f; [done|]. by eapply f1_formula_not_ood. }
  destruct (decide _); [|done].
  destruct (getitem r 0) as [r0|e2] eqn:E2; cbn [rbind];
    [|intros [= <-]; by eapply getitem_not_ood].
  destruct (getitem p 0) as [p0|e3] eqn:E3; cbn [rbind];
    [|intros [= <-]; by eapply getitem_not_ood].
  by destruct (truthy r0).
Qed.

Section bin_points.
Context `{!Argsort, !Segmentation}.

Lemma bin_points_vstack_not_ood plots e :
  bin_points_vstack plots = Raise e → ¬ out_of_domain e.
Proof.
  unfold bin_points_vstack. destruct plots; [intros [= <-] [|]; discriminate|].
  case_match; [done|]. intros [= <-] [|]; discriminate.
Qed.

Lemma bin_points_mean_not_ood bps e :
  bin_points_mean bps = Raise e → ¬ out_of_domain e.
Proof.
  unfold bin_points_mean. repeat case_match; try done;
    intros [= <-]; apply not_ood_TypeError.
Qed.
End bin_points.

Lemma np_linspace01_finite num : Forall finite (np_linspace01 num).
Proof.
  destruct num as [|[|n]]; [constructor|repeat constructor|].
  unfold np_linspace01. apply Forall_fmap, Forall_forall. intros i _.
  unfold compose, of_nat, fdiv. rewrite decide_False; [done|].
  replace (S (S n) - 1)%nat with (S n) by lia. apply of_nat_S_neq_0.
Qed.

(** C7.  Out-of-domain aggregation error: for curves satisfying the Curve
    invariant and a grid of numbers, [mean_and_std] fails with the
    interpolation-range error exactly when some grid point lies outside the
    recall range of some input curve. *)
Theorem C7_out_of_domain_error `{!Argsort, !Segmentation} plots interp :
  Forall valid_curve plots → Forall finite (grid_of interp) →
  (∃ e, mean_and_std plots interp = Raise e ∧ out_of_domain e)
  ↔ (∃ plot g, plot ∈ plots ∧ g ∈ grid_of interp ∧ ¬ in_range (recall plot) g).
Proof.
  intros Hvalid Hgrid. rewrite Forall_forall in Hvalid.
  unfold mean_and_std. fold (grid_of interp). set (grid := grid_of interp) in *.
  unfold interp_precision. split.
  - intros (e & Hraise & Hood).
    destruct (for_each _ plots) as [rows|e1] eqn:Hrows; cbn [rbind] in Hraise.
    2:{ injection Hraise as ->.
        apply for_each_Raise in Hrows as (plot & Hplot & Hint).
        destruct (Hvalid plot Hplot) as (Hlen & Hge & Hfin).
        destruct (interp1d_Raise_witness _ _ _ _ Hfin Hlen Hge Hgrid Hint) as (g & Hg & Hout).
        by exists plot, g. }
    exfalso. revert Hraise.
    destruct (np_vstack rows) as [m|e1] eqn:E1; cbn [rbind];
      [|intros [= <-]; by eapply np_vstack_not_ood].
    destruct (bin_points_vstack plots) as [bps|e2] eqn:E2; cbn [rbind];
      [|intros [= <-]; by eapply bin_points_vstack_not_ood].
    destruct (np_argmax _) as [idx|e3] eqn:E3; cbn [rbind];
      [|intros [= <-]; by eapply np_argmax_not_ood].
    destruct (getitem grid idx) as [r_idx|e4] eqn:E4; cbn [rbind];
      [|intros [= <-]; by eapply getitem_not_ood].
    destruct (getitem (mean0 m) idx) as [m_idx|e5] eqn:E5; cbn [rbind];
      [|intros [= <-]; by eapply getitem_not_ood].
    destruct (bin_points_mean bps) as [bm|e6] eqn:E6; cbn [rbind];
      [|intros [= <-]; by eapply bin_points_mean_not_ood].
    destruct (Plot_init grid _ None None (Some _) _) as [mp|e7] eqn:E7; cbn [rbind];
      [|intros [= <-]; by eapply Plot_init_not_ood].
    destruct (Plot_init grid (zip_with fsub _ _) _ _ _ _) as [lo|e8] eqn:E8; cbn [rbind];
      [|intros [= <-]; by eapply Plot_init_not_ood].
    destruct (Plot_init grid (zip_with fadd _ _) _ _ _ _) as [up|e9] eqn:E9; cbn [rbind];
      [done|intros [= <-]; by eapply Plot_init_not_ood].
  - intros (plot & g & Hplot & Hg & Hout).
    destruct (Hvalid plot Hplot) as (Hlen & Hge & Hfin).
    destruct (interp1d_out_of_range _ (precision plot) Hfin Hlen Hge grid g Hgrid Hg Hout)
      as (e0 & He0 & _).
    destruct (for_each_raises
                (λ plot, interp1d (recall plot) (precision plot) grid) plots plot e0 Hplot He0)
      as (plot' & e' & Hplot' & He' & ->).
    exists e'. split; [done|].
    destruct (Hvalid plot' Hplot') as (Hlen' & Hge' & Hfin').
    by eapply (interp1d_Raise (recall plot') (precision plot')).
Qed.

(** ** Interpolation at the nodes *)

Lemma strictly_sorted (l : list float) :
  StronglySorted (λ a b, np_lt b a = false) l → NoDup l → Forall finite l →
  StronglySorted (λ a b, fltb a b = true) l.
Proof.
  induction 1 as [|a l Hl IH Ha]; intros Hnd Hfin; [constructor|].
  apply NoDup_cons in Hnd as [Hnotin Hnd]. apply Forall_cons in Hfin as [Hfa Hfin].
  constructor; [by apply IH|].
  rewrite Forall_forall in Ha, Hfin. apply Forall_forall. intros b Hb.
  apply np_le_neq_lt; [done|by apply Hfin|by apply Ha|].
  destruct (finite_inv a Hfa) as [qa ->].
  destruct (finite_inv b (Hfin b Hb)) as [qb ->].
  apply fneb_Fin. intros ->. done.
Qed.

Lemma linear_search_node (xs : list float) : ∀ j,
  StronglySorted (λ a b, fltb a b = true) xs → Forall finite xs →
  (j < length xs)%nat → linear_search (xs !!! j) xs = S j.
Proof.
  induction xs as [|a xs IH]; intros j Hs Hfin Hj; [simpl in Hj; lia|].
  apply StronglySorted_inv in Hs as [Hs Ha]. apply Forall_cons in Hfin as [Hfa Hfin].
  rewrite Forall_forall in Ha.
  destruct j as [|j].
  - change ((a :: xs) !!! 0%nat) with a. cbn [linear_search].
    unfold fgeb. rewrite fleb_refl_finite by done. f_equal.
    destruct xs as [|b xs]; [done|]. cbn [linear_search]. unfold fgeb.
    assert (fltb a b = true) as Hab by (apply Ha; by left).
    destruct (fleb b a) eqn:E; [|done]. exfalso. by eapply fltb_fleb_contra.
  - change ((a :: xs) !!! S j) with (xs !!! j). cbn [linear_search]. unfold fgeb.
    assert (fltb a (xs !!! j) = true) as Hlt.
    { apply Ha, list_elem_of_lookup_total_2. simpl in Hj. lia. }
    rewrite (fltb_fleb_weak _ _ Hlt). f_equal. apply IH; [done..|simpl in Hj; lia].
Qed.

Lemma np_interp1_node (xs ys : list float) j :
  StronglySorted (λ a b, fltb a b = true) xs → Forall finite xs →
  (j < length xs)%nat → np_interp1 xs ys (xs !!! j) = ys !!! j.
Proof.
  intros Hs Hfin Hj. unfold np_interp1.
  assert (finite (xs !!! j)) as Hfj by (by apply lookup_total_finite).
  destruct (finite_inv _ Hfj) as [q Hq]. rewrite Hq. cbn [np_isnan]. rewrite <- Hq.
  assert (fgtb (xs !!! j) (xs !!! (length xs - 1)%nat) = false) as ->.
  { unfold fgtb. destruct (decide (j = length xs - 1)%nat) as [->|Hne].
    - apply fltb_irrefl.
    - apply fltb_asym_finite; [by apply lookup_total_finite..|].
      apply (StronglySorted_lookup_total _ xs j _ Hs); lia. }
  assert (fltb (xs !!! j) (xs !!! 0%nat) = false) as ->.
  { destruct (decide (j = 0)%nat) as [->|Hne].
    - apply fltb_irrefl.
    - apply fltb_asym_finite; [by apply lookup_total_finite..|].
      apply (StronglySorted_lookup_total _ xs 0 j Hs); lia. }
  rewrite linear_search_node by done. cbn [Nat.sub]. rewrite Nat.sub_0_r.
  destruct (decide (j = length xs - 1)%nat); [done|].
  by rewrite feqb_finite_refl.
Qed.

Section interp_nodes.
Context `{!Argsort}.
Variables x y : list float.
Hypothesis x_finite : Forall finite x.
Hypothesis x_NoDup : NoDup x.
Hypothesis xy_length : length y = length x.
Hypothesis x_length : (2 ≤ length x)%nat.

Lemma xs_strictly_sorted :
  StronglySorted (λ a b, fltb a b = true) (np_take x (argsort x)).
Proof.
  apply strictly_sorted; [apply argsort_sorted| |by apply xs_finite].
  unfold np_take. apply NoDup_fmap_2_strong.
  - intros i j Hi Hj E. rewrite argsort_perm in Hi, Hj.
    apply elem_of_seq in Hi, Hj.
    destruct (lookup_lt_is_Some_2 x i ltac:(lia)) as [a Ha].
    destruct (lookup_lt_is_Some_2 x j ltac:(lia)) as [b Hb].
    rewrite (list_lookup_total_correct _ _ _ Ha),
      (list_lookup_total_correct _ _ _ Hb) in E. subst b.
    by eapply NoDup_lookup.
  - rewrite argsort_perm. apply NoDup_seq.
Qed.

(** Interpolating a curve onto its own recall sequence returns its
    precision sequence. *)
Lemma interp1d_nodes : interp1d x y x = Ok y.
Proof.
  rewrite interp1d_in_range; [|done..|].
  2:{ apply Forall_forall. intros g Hg. exists g, g.
      rewrite Forall_forall in x_finite.
      split_and!; [done..|by apply fleb_refl_finite; auto|by apply fleb_refl_finite; auto]. }
  f_equal. apply list_eq. intros i.
  rewrite list_lookup_fmap.
  destruct (x !! i) as [g|] eqn:Hg; cbn [fmap option_fmap option_map].
  2:{ symmetry. apply lookup_ge_None. apply lookup_ge_None in Hg. lia. }
  pose proof (lookup_lt_Some _ _ _ Hg) as Hi.
  assert (i ∈ argsort x) as [j Hj]%list_elem_of_lookup.
  { rewrite argsort_perm. apply elem_of_seq. lia. }
  pose proof (lookup_lt_Some _ _ _ Hj) as Hjlt.
  assert (np_take x (argsort x) !!! j = g) as Hxj.
  { apply list_lookup_total_correct. unfold np_take.
    rewrite list_lookup_fmap, Hj. cbn. by rewrite (list_lookup_total_correct _ _ _ Hg). }
  rewrite <- Hxj.
  rewrite np_interp1_node;
    [|apply xs_strictly_sorted|by apply xs_finite|by rewrite np_take_length].
  destruct (lookup_lt_is_Some_2 y i ltac:(lia)) as [v Hv]. rewrite Hv. f_equal.
  apply list_lookup_total_correct. unfold np_take.
  rewrite list_lookup_fmap, Hj. cbn. by rewrite (list_lookup_total_correct _ _ _ Hv).
Qed.
End interp_nodes.

(** ** Mean and standard deviation of identical rows *)

Lemma finite_list_inv (v : list float) : Forall finite v → ∃ qs, v = Fin <$> qs.
Proof.
  induction 1 as [|x v Hx Hv [qs ->]]; [by exists []|].
  destruct (finite_inv x Hx) as [q ->]. by exists (q :: qs).
Qed.

Lemma nq_S k : nq (S k) = nq k + 1.
Proof. unfold nq. by rewrite Nat2Z.inj_succ, <- Z.add_1_r, Z2Qc_inj_add, Z2Qc_inj_1. Qed.

Lemma sum_replicate (qs : list Qc) m : ∀ k,
  foldl (zip_with fadd) (Fin <$> ((λ q, nq k * q) <$> qs)) (replicate m (Fin <$> qs))
  = Fin <$> ((λ q, nq (k + m) * q) <$> qs).
Proof.
  induction m as [|m IH]; intros k; cbn [replicate foldl].
  - by rewrite Nat.add_0_r.
  - assert (zip_with fadd (Fin <$> ((λ q, nq k * q) <$> qs)) (Fin <$> qs)
            = Fin <$> ((λ q, nq (S k) * q) <$> qs)) as ->.
    { rewrite <- !list_fmap_compose.
      rewrite (zip_with_fmap_same fadd (Fin ∘ (λ q, nq k * q)) Fin).
      apply list_fmap_ext. intros _ q _. unfold compose. cbn [fadd]. f_equal.
      rewrite nq_S. ring. }
    rewrite IH. by replace (S k + m)%nat with (k + S m)%nat by lia.
Qed.

Lemma mean0_replicate `{!Argsort, !Segmentation} (v : list float) m :
  Forall finite v → mean0 (replicate (S m) v) = v.
Proof.
  intros [qs ->]%finite_list_inv. unfold mean0, sum0. cbn [replicate].
  assert (Fin <$> qs = Fin <$> ((λ q, nq 1 * q) <$> qs)) as E.
  { rewrite <- list_fmap_compose. apply list_fmap_ext. intros _ q _. unfold compose.
    f_equal. change (nq 1) with (Qc_of_Z 1). rewrite Z2Qc_inj_1. ring. }
  rewrite E at 1. rewrite sum_replicate. cbn [length]. rewrite length_replicate.
  rewrite <- !list_fmap_compose. apply list_fmap_ext. intros _ q _. unfold compose.
  unfold of_nat, fdiv. fold (nq (S m)). rewrite decide_False by apply of_nat_S_neq_0.
  f_equal. replace (1 + m)%nat with (S m) by lia. field. apply of_nat_S_neq_0.
Qed.

Lemma fsqrt_0 : fsqrt (Fin 0) = f0.
Proof. by_eval. Qed.

Lemma std0_replicate `{!Argsort, !Segmentation} (v : list float) m :
  Forall finite v → std0 (replicate (S m) v) = (λ _, f0) <$> v.
Proof.
  intros Hv. unfold std0. rewrite mean0_replicate by done.
  rewrite <- list_fmap_compose, fmap_replicate. unfold compose.
  set (w := zip_with fmul (zip_with fsub v v) (zip_with fsub v v)).
  assert (w = (λ _, f0) <$> v) as Hw.
  { unfold w. destruct (finite_list_inv v Hv) as [qs ->].
    rewrite (zip_with_diag fsub), <- list_fmap_compose.
    rewrite (zip_with_diag fmul), <- !list_fmap_compose.
    apply list_fmap_ext. intros _ q _. unfold compose. cbn. unfold f0. f_equal. ring. }
  assert (Forall finite w) as Hfw.
  { rewrite Hw. apply Forall_fmap, Forall_forall. by intros. }
  rewrite length_replicate.
  transitivity (fsqrt <$> mean0 (replicate (S m) w)).
  { unfold mean0. rewrite <- list_fmap_compose, length_replicate. done. }
  rewrite mean0_replicate by done. rewrite Hw, <- list_fmap_compose.
  apply list_fmap_ext. intros _ q _. apply fsqrt_0.
Qed.

Lemma argmax_loop_bound ip : ∀ mp idx i,
  (idx < i)%nat → (argmax_loop mp idx i ip < i + length ip)%nat.
Proof.
  induction ip as [|x ip IH]; intros mp idx i Hidx; cbn [argmax_loop length]; [lia|].
  destruct (fleb x mp).
  - specialize (IH mp idx (S i) ltac:(lia)). lia.
  - destruct (np_isnan x); [lia|]. specialize (IH x i (S i) ltac:(lia)). lia.
Qed.

Lemma np_argmax_total a :
  a ≠ [] → ∃ idx, np_argmax a = Ok idx ∧ (idx < length a)%nat.
Proof.
  destruct a as [|x a]; [done|]. intros _. eexists. split; [done|].
  destruct (np_isnan x); [simpl; lia|].
  pose proof (argmax_loop_bound a x 0 1 ltac:(lia)). simpl. lia.
Qed.

Lemma getitem_lt {A} `{!Inhabited A} (a : list A) i :
  (i < length a)%nat → getitem a i = Ok (a !!! i).
Proof.
  intros Ha. unfold getitem. destruct (lookup_lt_is_Some_2 a i Ha) as [x Hx].
  by rewrite (list_lookup_total_correct _ _ _ Hx), Hx.
Qed.

Lemma foldl_zip_with_length {A} (f : A → A → A) (v : list A) m :
  length (foldl (zip_with f) v (replicate m v)) = length v.
Proof.
  assert (∀ u, length u = length v →
            length (foldl (zip_with f) u (replicate m v)) = length v) as H; [|by apply H].
  induction m as [|m IH]; intros u Hu; cbn [replicate foldl]; [done|].
  apply IH. rewrite length_zip_with. lia.
Qed.

Section round_trip.
Context `{!Argsort, !Segmentation}.

Lemma zip_with_fsub_zero (v : list float) :
  Forall finite v → zip_with fsub v ((λ _, f0) <$> v) = v.
Proof.
  intros [qs ->]%finite_list_inv.
  rewrite zip_with_fmap_r, zip_with_diag, <- list_fmap_compose.
  apply list_fmap_ext. intros _ q _. unfold compose. cbn. f_equal. ring.
Qed.

Lemma zip_with_fadd_zero (v : list float) :
  Forall finite v → zip_with fadd v ((λ _, f0) <$> v) = v.
Proof.
  intros [qs ->]%finite_list_inv.
  rewrite zip_with_fmap_r, zip_with_diag, <- list_fmap_compose.
  apply list_fmap_ext. intros _ q _. unfold compose. cbn. f_equal. ring.
Qed.

End round_trip.

(** ** Lengths of the sequences of a curve *)

Lemma Plot_init_lengths r p t f fp bp plot :
  length p = length r → Plot_init r p t f fp bp = Ok plot →
  length (recall plot) = length (precision plot)
  ∧ (2 ≤ length (recall plot))%nat
  ∧ threshold plot = t
  ∧ f1 plot = default (zip_with F1_of p r) f
  ∧ (length r = length (recall plot) ∨ (length r = 1 ∧ length (recall plot) = 2)%nat).
Proof.
  intros Hlen Hplot. destruct (decide (r = [])) as [->|Hne].
  { destruct p; [|done]. unfold Plot_init in Hplot. by destruct f. }
  destruct (Plot_init_Ok r p t f fp bp Hlen Hne) as (r' & p' & E & Hl & Hge & Hcase).
  rewrite E in Hplot. injection Hplot as <-. cbn. split_and!; [done..|].
  destruct (decide _) as [Hlt|Hnlt].
  - right. destruct Hcase as (r0 & p0 & -> & -> & Hrp). split; [done|].
    by destruct (truthy r0); injection Hrp as -> ->.
  - left. by destruct Hcase as [-> _].
Qed.

Lemma Plot_init_markers r p t f fp bp c :
  Plot_init r p t f fp bp = Ok c → f1_point c = fp ∧ bin_point c = bp.
Proof.
  unfold Plot_init.
  destruct (match f with Some f1 => Ok f1 | None => f1_formula p r end); [|done].
  cbn [rbind]. destruct (decide _); [|by intros [= <-]].
  destruct (getitem r 0); [|done]. cbn [rbind].
  destruct (getitem p 0); [|done]. cbn [rbind].
  destruct (truthy _); by intros [= <-].
Qed.

Lemma interp1d_Ok_length `{!Argsort} x y x_new row :
  interp1d x y x_new = Ok row → length row = length x_new.
Proof.
  unfold interp1d. repeat case_match; try done. intros [= <-]. apply length_fmap.
Qed.

Lemma np_vstack_Ok rows m : np_vstack rows = Ok m → m = rows ∧ rows ≠ [].
Proof. unfold np_vstack. destruct rows; [done|]. case_match; [|done]. by intros [= <-]. Qed.

Lemma foldl_zip_with_length_rows {A} (f : A → A → A) (rows : list (list A)) n : ∀ u,
  length u = n → Forall (λ r, length r = n) rows →
  length (foldl (zip_with f) u rows) = n.
Proof.
  induction rows as [|r rows IH]; intros u Hu Hrows; cbn [foldl]; [done|].
  apply Forall_cons in Hrows as [Hr Hrows]. apply IH; [|done].
  rewrite length_zip_with. lia.
Qed.

Lemma sum0_length rows n :
  rows ≠ [] → Forall (λ r, length r = n) rows → length (sum0 rows) = n.
Proof.
  destruct rows as [|r rows]; [done|]. intros _ [Hr Hrows]%Forall_cons.
  by apply foldl_zip_with_length_rows.
Qed.

Lemma mean0_length rows n :
  rows ≠ [] → Forall (λ r, length r = n) rows → length (mean0 rows) = n.
Proof. intros. unfold mean0. rewrite length_fmap. by apply sum0_length. Qed.

Lemma std0_length rows n :
  rows ≠ [] → Forall (λ r, length r = n) rows → length (std0 rows) = n.
Proof.
  intros Hne Hrows. unfold std0. rewrite length_fmap. apply sum0_length.
  - by destruct rows.
  - rewrite <- list_fmap_compose. apply Forall_fmap.
    eapply Forall_impl; [exact Hrows|]. intros r Hr. unfold compose. cbn beta in *.
    rewrite !length_zip_with, (mean0_length rows n) by done. lia.
Qed.

Section aggregate_lengths.
Context `{!Argsort, !Segmentation}.

Lemma interp_precision_lengths plots grid m :
  interp_precision plots grid = Ok m →
  m ≠ [] ∧ Forall (λ r, length r = length grid) m.
Proof.
  unfold interp_precision.
  destruct (for_each _ plots) as [rows|] eqn:E; [|done]. cbn [rbind].
  intros [-> Hne]%np_vstack_Ok. split; [done|].
  apply for_each_inv in E. clear Hne.
  induction E as [|plot row plots rows Hrow _ IH]; constructor; [|done].
  by eapply interp1d_Ok_length.
Qed.

Lemma mean_and_std_lengths plots interp mean lower upper :
  mean_and_std plots interp = Ok (mean, lower, upper) →
  ∀ c, c ∈ [mean; lower; upper] →
    length (recall c) = length (precision c) ∧ (2 ≤ length (recall c))%nat
    ∧ threshold c = None
    ∧ (length (f1 c) = length (recall c)
       ∨ (length (f1 c) = 1 ∧ length (recall c) = 2)%nat).
Proof.
  unfold mean_and_std. fold (grid_of interp). set (grid := grid_of interp).
  destruct (interp_precision plots grid) as [m|] eqn:Hm; [|done]. cbn [rbind].
  apply interp_precision_lengths in Hm as [Hne Hrows].
  pose proof (mean0_length m _ Hne Hrows) as Hmean.
  pose proof (std0_length m _ Hne Hrows) as Hstd.
  destruct (bin_points_vstack plots) as [bps|]; [|done]. cbn [rbind].
  destruct (np_argmax _) as [idx|]; [|done]. cbn [rbind].
  destruct (getitem grid idx) as [r_idx|]; [|done]. cbn [rbind].
  destruct (getitem (mean0 m) idx) as [m_idx|]; [|done]. cbn [rbind].
  destruct (bin_points_mean bps) as [bm|]; [|done]. cbn [rbind].
  destruct (Plot_init grid (mean0 m) _ _ _ _) as [mp|] eqn:E1; [|done]. cbn [rbind].
  destruct (Plot_init grid (zip_with fsub _ _) _ _ _ _) as [lo|] eqn:E2; [|done].
  cbn [rbind].
  destruct (Plot_init grid (zip_with fadd _ _) _ _ _ _) as [up|] eqn:E3; [|done].
  cbn [rbind]. intros [= <- <- <-] c Hc.
  assert (∀ p c, length p = length grid →
            Plot_init grid p None None (f1_point c) (bin_point c) = Ok c →
            length (recall c) = length (precision c) ∧ (2 ≤ length (recall c))%nat
            ∧ threshold c = None
            ∧ (length (f1 c) = length (recall c)
               ∨ (length (f1 c) = 1 ∧ length (recall c) = 2)%nat)) as Hgen.
  { intros p c' Hp Hinit.
    destruct (Plot_init_lengths _ _ _ _ _ _ _ Hp Hinit) as (H1 & H2 & H3 & H4 & H5).
    split_and!; [done..|]. rewrite H4. cbn [default]. rewrite length_zip_with.
    destruct H5 as [H5|[H5 H6]]; [left; lia|right; lia]. }
  pose proof Plot_init_markers as Hmark.
  apply elem_of_cons in Hc as [->|Hc]; [|apply elem_of_cons in Hc as [->|Hc]];
    [| |apply list_elem_of_singleton in Hc as ->].
  - destruct (Hmark _ _ _ _ _ _ _ E1) as [Hf Hb].
    apply (Hgen (mean0 m)); [done|]. by rewrite Hf, Hb.
  - destruct (Hmark _ _ _ _ _ _ _ E2) as [Hf Hb].
    apply (Hgen (zip_with fsub (mean0 m) (std0 m)));
      [rewrite length_zip_with; lia|]. by rewrite Hf, Hb.
  - destruct (Hmark _ _ _ _ _ _ _ E3) as [Hf Hb].
    apply (Hgen (zip_with fadd (mean0 m) (std0 m)));
      [rewrite length_zip_with; lia|]. by rewrite Hf, Hb.
Qed.
End aggregate_lengths.

Lemma np_take_finite (a : list float) idx : Forall finite a → Forall finite (np_take a idx).
Proof.
  intros Ha. apply Forall_fmap, Forall_forall. intros i _. by apply lookup_total_finite.
Qed.

Lemma Plot_init_finite r p t f fp bp plot :
  length p = length r → Forall finite r → Forall finite p →
  Plot_init r p t f fp bp = Ok plot →
  Forall finite (recall plot) ∧ Forall finite (precision plot).
Proof.
  intros Hlen Hr Hp Hplot. destruct (decide (r = [])) as [->|Hne].
  { destruct p; [|done]. unfold Plot_init in Hplot. by destruct f. }
  destruct (Plot_init_Ok r p t f fp bp Hlen Hne) as (r' & p' & E & _ & _ & Hcase).
  rewrite E in Hplot. injection Hplot as <-. cbn [recall precision].
  destruct (decide _).
  - destruct Hcase as (r0 & p0 & -> & -> & Hrp).
    apply Forall_cons in Hr as [Hr0 _]. apply Forall_cons in Hp as [Hp0 _].
    destruct (truthy r0); injection Hrp as -> ->; by repeat constructor.
  - by destruct Hcase as [-> ->].
Qed.

Section evaluate_inv.
Context `{!Argsort, !Segmentation}.

Lemma evaluate_Ok_inv pred bin_ gt pe be plot :
  evaluate pred bin_ gt = Ok (pe, be, plot) →
  ∃ pred' bin' precisions recalls thresholds i,
    repaired_pred pred = Ok pred' ∧ repaired_bin bin_ = Ok bin'
    ∧ precision_recall_curve gt pred' = Ok (precisions, recalls, thresholds)
    ∧ let idx := kept (repair recalls) precisions in
      let P := np_take precisions idx in
      let R := np_take (repair recalls) idx in
      let T := np_take (thresholds ++ [f1_]) idx in
      let f1scores := zip_with F1_of P R in
      np_argmax f1scores = Ok i ∧ (i < length idx)%nat
      ∧ Forall finite f1scores ∧ length f1scores = length idx
      ∧ Plot_init R P (Some T) (Some f1scores) (Some (R !!! i, P !!! i))
          (Some (Metric_last (update Metric_new (recall_compute gt bin')),
                 Metric_last (update Metric_new (precision_compute gt bin'))))
        = Ok plot
      ∧ pe = {| pe_f1score := update Metric_new (f1scores !!! i);
                pe_precision := update Metric_new (P !!! i);
                pe_recall := update Metric_new (R !!! i);
                pe_iou := update Metric_new
                  (iou_compute gt ((λ p, fgeb p (T !!! i)) <$> pred'));
                pe_auc := update Metric_new (auc_compute P R) |}.
Proof.
  rewrite evaluate_eq. intros Heval.
  destruct (repaired_pred pred) as [pred'|e]; [|done].
  destruct (repaired_bin bin_) as [bin'|e]; [|done]. cbn [rbind] in Heval.
  assert (∃ P0 R0 T0, precision_recall_curve gt pred' = Ok (P0, R0, T0))
    as (P0 & R0 & T0 & Hprc).
  { unfold evaluate_arrays, pr_curve in Heval.
    destruct (precision_recall_curve gt pred') as [[[P0 R0] T0]|e]; [|done].
    by eexists _, _, _. }
  destruct (evaluate_arrays_spec pred' bin' gt _ _ _ Hprc)
    as (i & plot' & Hi & Hilt & Hfin & Hlf & Hplot & Heq).
  rewrite Heq in Heval. injection Heval as <- <- <-.
  exists pred', bin', P0, R0, T0, i. by split_and!.
Qed.

Lemma evaluate_curve_finite pred bin_ gt pe be plot :
  evaluate pred bin_ gt = Ok (pe, be, plot) →
  Forall finite (recall plot) ∧ Forall finite (precision plot)
  ∧ Forall finite (f1 plot)
  ∧ finite (mean (pe_f1score pe)) ∧ finite (mean (pe_precision pe))
  ∧ finite (mean (pe_recall pe)).
Proof.
  intros (pred' & bin' & P0 & R0 & T0 & i & _ & _ & Hprc & Hrest)%evaluate_Ok_inv.
  cbv zeta in Hrest. destruct Hrest as (Hi & Hilt & Hfin & Hlf & Hplot & ->).
  pose proof (precision_recall_curve_ok _ _ _ _ _ Hprc) as [Hok _].
  set (idx := kept (repair R0) P0) in *.
  assert (Forall finite (np_take P0 idx)) as HP
    by apply np_take_finite, (raw_precisions_finite _ _ Hok).
  assert (Forall finite (np_take (repair R0) idx)) as HR
    by apply np_take_finite, (raw_recalls_finite _ _ Hok).
  assert (length (np_take P0 idx) = length (np_take (repair R0) idx)) as Hlen
    by (by rewrite !np_take_length).
  destruct (Plot_init_finite _ _ _ _ _ _ _ Hlen HR HP Hplot) as [Hr Hp].
  destruct (Plot_init_lengths _ _ _ _ _ _ _ Hlen Hplot) as (_ & _ & _ & Hf1 & _).
  change (f1 plot = zip_with F1_of (np_take P0 idx) (np_take (repair R0) idx)) in Hf1.
  rewrite Hf1. cbn [pe_f1score pe_precision pe_recall].
  rewrite !update_new_mean by (by apply lookup_total_finite).
  split_and!; [done..| | |]; by apply lookup_total_finite.
Qed.

Lemma evaluate_curve_lengths pred bin_ gt pe be plot :
  evaluate pred bin_ gt = Ok (pe, be, plot) →
  length (recall plot) = length (precision plot) ∧ (2 ≤ length (recall plot))%nat
  ∧ (∃ T, threshold plot = Some T ∧ length T = length (f1 plot))
  ∧ (length (f1 plot) = length (recall plot)
     ∨ (length (f1 plot) = 1 ∧ length (recall plot) = 2)%nat).
Proof.
  intros (pred' & bin' & P0 & R0 & T0 & i & _ & _ & Hprc & Hrest)%evaluate_Ok_inv.
  cbv zeta in Hrest. destruct Hrest as (Hi & Hilt & Hfin & Hlf & Hplot & ->).
  set (idx := kept (repair R0) P0) in *.
  assert (length (np_take P0 idx) = length (np_take (repair R0) idx)) as Hlen
    by (by rewrite !np_take_length).
  destruct (Plot_init_lengths _ _ _ _ _ _ _ Hlen Hplot) as (H1 & H2 & H3 & H4 & H5).
  change (f1 plot = zip_with F1_of (np_take P0 idx) (np_take (repair R0) idx)) in H4.
  rewrite H4, Hlf. rewrite np_take_length in H5.
  split_and!; [done..| |done].
  eexists. split; [done|]. by rewrite np_take_length.
Qed.
End evaluate_inv.

(** C6, as amended.  Every curve produced by [evaluate] or by [aggregate]
    has recall and precision sequences of one length, at least 2.  Its F1
    sequence, and its threshold sequence when it has one, keep the length the
    recall sequence had before the constructor's edge-case repair: they are
    as long as the recall sequence, unless the repair took place, when they
    have length 1 against the recall sequence's 2. *)
Theorem C6_curve_invariant `{!Argsort, !Segmentation} (plot : Plot) :
  produced plot →
  length (recall plot) = length (precision plot)
  ∧ (2 ≤ length (recall plot))%nat
  ∧ (∀ T, threshold plot = Some T → length T = length (f1 plot))
  ∧ (length (f1 plot) = length (recall plot)
     ∨ (length (f1 plot) = 1 ∧ length (recall plot) = 2)%nat).
Proof.
  intros Hprod.
  assert (∀ plots interp mean lower upper c,
            mean_and_std plots interp = Ok (mean, lower, upper) →
            c ∈ [mean; lower; upper] →
            length (recall c) = length (precision c) ∧ (2 ≤ length (recall c))%nat
            ∧ (∀ T, threshold c = Some T → length T = length (f1 c))
            ∧ (length (f1 c) = length (recall c)
               ∨ (length (f1 c) = 1 ∧ length (recall c) = 2)%nat)) as Hagg.
  { intros plots interp m l u c Hms Hc.
    destruct (mean_and_std_lengths _ _ _ _ _ Hms c Hc) as (H1 & H2 & H3 & H4).
    split_and!; [done..| |done]. intros T HT. congruence. }
  destruct Hprod as [pred bin_ gt pe be plot Heval| | |].
  - destruct (evaluate_curve_lengths _ _ _ _ _ _ Heval) as (H1 & H2 & (T & HT & HlT) & H4).
    split_and!; [done..| |done]. intros T' HT'. congruence.
  - eapply Hagg; [done|]. by left.
  - eapply Hagg; [done|]. right. by left.
  - eapply Hagg; [done|]. right. right. by left.
Qed.

Section scenario2.
Context `{!Argsort, !Segmentation}.

End scenario2.

(** C9.  Aggregation arithmetic on scenario 3: interpolated onto the grid
    [0, 0.5, 1] the two curves have precision [1, 0.5, 0] and
    [0.5, 0.5, 0.5]; the mean is [0.75, 0.5, 0.25] and the standard deviation
    [0.25, 0, 0.25], element by element across the two; [mean_and_std]
    returns the mean curve with that precision, and the lower and upper
    curves with precision mean minus and mean plus that deviation. *)
Theorem C9_aggregation_arithmetic :
  @interp_precision stable_Argsort [scen3_c1; scen3_c2] scen3_grid
  = Ok [[1 // 1; 1 // 2; 0 // 1]; [1 // 2; 1 // 2; 1 // 2]]
  ∧ mean0 [[1 // 1; 1 // 2; 0 // 1]; [1 // 2; 1 // 2; 1 // 2]]
    = [3 // 4; 1 // 2; 1 // 4]
  ∧ std0 [[1 // 1; 1 // 2; 0 // 1]; [1 // 2; 1 // 2; 1 // 2]]
    = [1 // 4; 0 // 1; 1 // 4]
  ∧ ∃ mean lower upper,
      @mean_and_std stable_Argsort spec_metrics [scen3_c1; scen3_c2] (inr scen3_grid)
      = Ok (mean, lower, upper)
      ∧ recall mean = scen3_grid ∧ precision mean = [3 // 4; 1 // 2; 1 // 4]
      ∧ recall lower = scen3_grid ∧ precision lower = [1 // 2; 1 // 2; 0 // 1]
      ∧ recall upper = scen3_grid ∧ precision upper = [1 // 1; 1 // 2; 1 // 2].
Proof.
  split_and!; [by_eval..|].
  eexists _, _, _. split; [vm_compute; reflexivity|]. split_and!; by_eval.
Qed.

(** *** Witnesses and counterexamples *)



Lemma C2_witness :
  StronglySorted (λ x y, fltb y x = true) [1 // 1; 1 // 2; 0 // 1]
  ∧ NoDup [1 // 1; 1 // 2; 0 // 1].
Proof.
  apply (@C2_recall_strictly_decreasing stable_Argsort
           scen1_gt scen1_pred [1 // 1; 1 // 1; 1 // 1] _ [8 // 10; 9 // 10; 1 // 1]).
  by_eval.
Defined.

(** On scenario 1 the deduplicated recall sequence is [1, 0.5, 0]: it is not
    increasing. *)
Lemma C2_counterexample :
  @pr_curve stable_Argsort scen1_gt scen1_pred
  = Ok ([1 // 1; 1 // 1; 1 // 1], [1 // 1; 1 // 2; 0 // 1], [8 // 10; 9 // 10; 1 // 1])
  ∧ ¬ StronglySorted (λ x y, fltb x y = true) [1 // 1; 1 // 2; 0 // 1].
Proof.
  split; [by_eval|]. intros [_ Hfirst]%StronglySorted_inv.
  apply Forall_cons in Hfirst as [Hlt _]. by vm_compute in Hlt.
Qed.

Lemma C3_witness :
  ∃ pe be plot,
    @evaluate stable_Argsort spec_metrics scen1_pred scen1_bin scen1_gt
    = Ok (pe, be, plot)
    ∧ ∃ idx, np_argmax (f1 plot) = Ok idx
             ∧ mean (pe_f1score pe) = f1 plot !!! idx.
Proof.
  destruct (@evaluate stable_Argsort spec_metrics scen1_pred scen1_bin scen1_gt)
    as [[[pe be] plot]|e] eqn:E; [|vm_compute in E; discriminate].
  exists pe, be, plot. split; [reflexivity|].
  destruct (@C3_best_f1_selection stable_Argsort spec_metrics
              scen1_pred scen1_bin scen1_gt pe be plot E)
    as (pred' & P & R & T & idx & H).
  exists idx. split; apply H.
Defined.

Lemma C4_witness :
  let h := @input_store [0 // 1; 0 // 1] [false; false] [true; false] in
  (@_evaluate_and_plot stable_Argsort spec_metrics 1 2 3 h).2 !! 1%positive
  = Some (FloatArray [0 // 1; 0 // 1])
  ∧ (@_evaluate_and_plot stable_Argsort spec_metrics 1 2 3 h).2 !! 2%positive
    = Some (BoolArray [false; false])
  ∧ (@_evaluate_and_plot stable_Argsort spec_metrics 1 2 3 h).2 !! 3%positive
    = Some (BoolArray [true; false]).
Proof.
  intros h.
  destruct (@C4_inputs_not_mutated stable_Argsort
              spec_metrics h 1%positive 2%positive 3%positive
              [0 // 1; 0 // 1] [false; false] [true; false])
    as (H1 & H2 & H3 & _); [reflexivity..|].
  by split_and!.
Defined.

Lemma C6_witness :
  ∃ pe be plot,
    @evaluate stable_Argsort spec_metrics scen2_pred scen2_bin scen2_gt
    = Ok (pe, be, plot)
    ∧ length (recall plot) = length (precision plot)
    ∧ (2 ≤ length (recall plot))%nat.
Proof.
  destruct (@evaluate stable_Argsort spec_metrics scen2_pred scen2_bin scen2_gt)
    as [[[pe be] plot]|e] eqn:E; [|vm_compute in E; discriminate].
  exists pe, be, plot. split; [reflexivity|].
  destruct (@C6_curve_invariant stable_Argsort spec_metrics plot) as (H1 & H2 & _).
  - exact (produced_evaluate scen2_pred scen2_bin scen2_gt pe be plot E).
  - split; [exact H1|exact H2].
Defined.

(** On scenario 2 the emitted curve has two recall values and one F1 value. *)
Lemma C6_counterexample :
  ∃ pe be plot,
    @evaluate stable_Argsort spec_metrics scen2_pred scen2_bin scen2_gt
    = Ok (pe, be, plot)
    ∧ length (recall plot) = 2%nat ∧ length (f1 plot) = 1%nat
    ∧ length (recall plot) ≠ length (f1 plot).
Proof.
  eexists _, _, _. split; [vm_compute; reflexivity|]. by split_and!.
Qed.

Lemma C7_witness :
  (∃ e, @mean_and_std stable_Argsort spec_metrics [scen3_c1]
          (inr [0 // 1; 3 // 2]) = Raise e ∧ out_of_domain e)
  ↔ (∃ plot g, plot ∈ [scen3_c1] ∧ g ∈ grid_of (inr [0 // 1; 3 // 2])
               ∧ ¬ in_range (recall plot) g).
Proof.
  apply (@C7_out_of_domain_error stable_Argsort
           spec_metrics).
  - repeat constructor.
  - repeat constructor.
Defined.

(** * Further properties of the code *)

(** ** When [evaluate] returns and what it raises *)

Lemma forallb_np_isfinite (l : list float) :
  forallb np_isfinite l = true ↔ Forall finite l.
Proof.
  rewrite forallb_forall, Forall_forall. split.
  - intros H x Hx. apply H. by apply list_elem_of_In.
  - intros H x Hx. apply H. by apply list_elem_of_In.
Qed.

Lemma precision_recall_curve_cases y_true y_score :
  match precision_recall_curve y_true y_score with
  | Ok _ => length y_true = length y_score ∧ Forall finite y_score ∧ y_score ≠ []
  | Raise IndexError => y_score = [] ∧ y_true = []
  | Raise TypeError => False
  | Raise (ValueError _) =>
      length y_true ≠ length y_score
      ∨ (length y_true = length y_score ∧ ¬ Forall finite y_score)
  end.
Proof.
  unfold precision_recall_curve, _binary_clf_curve.
  destruct (bool_decide (length y_true = length y_score)) eqn:Hlen; cbn [negb rbind].
  2: { apply bool_decide_eq_false in Hlen. by left. }
  apply bool_decide_eq_true in Hlen.
  destruct (forallb np_isfinite y_score) eqn:Hfin; cbn [negb rbind].
  2: { right. split; [done|]. rewrite <- forallb_np_isfinite. congruence. }
  apply forallb_np_isfinite in Hfin.
  destruct (bool_decide (y_score = [])) eqn:Hne; cbn [rbind].
  - apply bool_decide_eq_true in Hne. subst. split; [done|].
    by destruct y_true.
  - apply bool_decide_eq_false in Hne. cbv zeta. cbn [rbind]. done.
Qed.

Lemma np_any_false_zero (P : list float) : np_any P = false → Forall (λ x, x = f0) P.
Proof.
  unfold np_any. induction P as [|x P IH]; cbn [existsb]; [done|].
  intros [Hx HP]%orb_false_elim. constructor; [|by apply IH].
  unfold truthy, fneb in Hx. apply negb_false_iff in Hx. by apply feqb_eq in Hx.
Qed.

Lemma repaired_pred_cases pred :
  match repaired_pred pred with
  | Ok p => pred ≠ [] ∧ length p = length pred ∧ (Forall finite p ↔ Forall finite pred)
  | Raise e => e = IndexError ∧ pred = []
  end.
Proof.
  unfold repaired_pred. destruct (np_any pred) eqn:Hany.
  - split_and!; [|done..]. intros ->. done.
  - destruct (decide (0 < length pred)%nat) as [Hpos|Hz].
    + split_and!.
      * intros ->. cbn in Hpos. lia.
      * by rewrite length_insert.
      * apply np_any_false_zero in Hany.
        assert (Forall finite pred) as Hfin.
        { eapply Forall_impl; [exact Hany|]. by intros x ->. }
        split; [done|]. intros _. by apply Forall_insert.
    + split; [done|]. destruct pred; [done|]. cbn in Hz. lia.
Qed.

Lemma repaired_bin_cases bin_ :
  match repaired_bin bin_ with
  | Ok b => bin_ ≠ [] ∧ length b = length bin_
  | Raise e => e = IndexError ∧ bin_ = []
  end.
Proof.
  unfold repaired_bin. destruct (np_any_bool bin_) eqn:Hany.
  - split; [|done]. intros ->. done.
  - destruct (decide (0 < length bin_)%nat) as [Hpos|Hz].
    + split; [|by rewrite length_insert]. intros ->. cbn in Hpos. lia.
    + split; [done|]. destruct bin_; [done|]. cbn in Hz. lia.
Qed.

Section evaluate_cases.
Context `{!Argsort, !Segmentation}.

Lemma evaluate_arrays_cases pred bin_ gt :
  match evaluate_arrays pred bin_ gt with
  | Ok _ => length gt = length pred ∧ Forall finite pred ∧ pred ≠ []
  | Raise IndexError => pred = [] ∧ gt = []
  | Raise TypeError => False
  | Raise (ValueError _) =>
      length gt ≠ length pred ∨ (length gt = length pred ∧ ¬ Forall finite pred)
  end.
Proof.
  pose proof (precision_recall_curve_cases gt pred) as Hc.
  destruct (precision_recall_curve gt pred) as [[[P R] T]|e] eqn:Hprc.
  - destruct (evaluate_arrays_spec pred bin_ gt _ _ _ Hprc) as (i & plot & _ & _ & _ & _ & _ & ->).
    done.
  - unfold evaluate_arrays. rewrite (pr_curve_Raise _ _ _ Hprc). cbn [rbind]. done.
Qed.

Lemma evaluate_cases pred bin_ gt :
  match evaluate pred bin_ gt with
  | Ok _ => pred ≠ [] ∧ bin_ ≠ [] ∧ length gt = length pred ∧ Forall finite pred
  | Raise IndexError => pred = [] ∨ bin_ = []
  | Raise TypeError => False
  | Raise (ValueError _) =>
      pred ≠ [] ∧ bin_ ≠ [] ∧ (length gt ≠ length pred ∨ ¬ Forall finite pred)
  end.
Proof.
  rewrite evaluate_eq.
  pose proof (repaired_pred_cases pred) as Hp.
  destruct (repaired_pred pred) as [p|e]; cbn [rbind].
  2: { destruct Hp as [-> ->]. by left. }
  destruct Hp as (Hpne & Hplen & Hpfin).
  pose proof (repaired_bin_cases bin_) as Hb.
  destruct (repaired_bin bin_) as [b|e]; cbn [rbind].
  2: { destruct Hb as [-> ->]. by right. }
  destruct Hb as (Hbne & Hblen).
  pose proof (evaluate_arrays_cases p b gt) as Ha.
  destruct (evaluate_arrays p b gt) as [r|[| |msg]].
  - destruct Ha as (Hlen & Hfin & _). split_and!; [done..|congruence|by apply Hpfin].
  - destruct Ha as [-> _]. destruct pred; [done|]. cbn in Hplen. lia.
  - done.
  - split_and!; [done..|]. destruct Ha as [Hne|[_ Hnf]].
    + left. congruence.
    + right. by rewrite <- Hpfin.
Qed.
End evaluate_cases.

(** X1.  [_evaluate_and_plot] returns a result exactly when the prediction
    and the binarised prediction are not empty, the ground truth has as
    many elements as the prediction, and the prediction holds no NaN or
    infinity (the metric functions of [evaluation.segmentation] taken to
    return). *)
Theorem evaluate_returns_iff `{!Argsort, !Segmentation} pred bin_ gt :
  (∃ r, evaluate pred bin_ gt = Ok r)
  ↔ pred ≠ [] ∧ bin_ ≠ [] ∧ length gt = length pred ∧ Forall finite pred.
Proof.
  pose proof (evaluate_cases pred bin_ gt) as Hc. split.
  - intros [r Hr]. by rewrite Hr in Hc.
  - intros (Hp & Hb & Hlen & Hfin).
    destruct (evaluate pred bin_ gt) as [r|[| |msg]]; [by exists r|..].
    + by destruct Hc.
    + done.
    + destruct Hc as (_ & _ & [?|?]); done.
Qed.

(** X2.  The exception of a failing [_evaluate_and_plot] tells the cause:
    [IndexError] exactly when the prediction or the binarised prediction is
    empty (the item assignment of the edge-case repair, lines 156-162);
    [ValueError], from [precision_recall_curve], exactly when both are
    non-empty and the ground truth has another length than the prediction
    or the prediction holds a NaN or an infinity. *)
Theorem evaluate_exceptions `{!Argsort, !Segmentation} pred bin_ gt :
  (evaluate pred bin_ gt = Raise IndexError ↔ pred = [] ∨ bin_ = [])
  ∧ ((∃ msg, evaluate pred bin_ gt = Raise (ValueError msg))
     ↔ pred ≠ [] ∧ bin_ ≠ [] ∧ (length gt ≠ length pred ∨ ¬ Forall finite pred))
  ∧ evaluate pred bin_ gt ≠ Raise TypeError.
Proof.
  pose proof (evaluate_cases pred bin_ gt) as Hc.
  destruct (evaluate pred bin_ gt) as [r|[| |msg]].
  - destruct Hc as (Hp & Hb & Hlen & Hfin). split_and!; [split| split|done].
    + done.
    + intros [?|?]; done.
    + by intros [? ?].
    + intros (_ & _ & [?|?]); done.
  - split_and!; [split|split|done]; [done|done|by intros [? ?]|].
    intros (Hp & Hb & _). destruct Hc; done.
  - done.
  - destruct Hc as (Hp & Hb & Hcause). split_and!; [split|split|done].
    + done.
    + intros [?|?]; done.
    + done.
    + intros _. by exists msg.
Qed.

(** ** The raw curve: bounds and end points *)

Lemma Qcdiv_le_1 a b : 0 ≤ a → a ≤ b → a / b ≤ 1.
Proof.
  intros Ha Hab. destruct (decide (b = 0)) as [->|Hb].
  - unfold Qcdiv. replace (/ 0) with 0 by (by apply Qc_is_canon).
    rewrite Qcmult_0_r. done.
  - assert (0 < b) as Hpos.
    { apply Qcle_lt_or_eq in Ha as [Ha| <-].
      - by eapply Qclt_le_trans.
      - apply Qcle_lt_or_eq in Hab as [?|?]; [done|]. congruence. }
    replace 1 with (b / b) by (unfold Qcdiv; by apply Qcmult_inv_r).
    apply Qcdiv_le_mono; [|done]. by apply Qclt_le_weak.
Qed.

Lemma tp_at_le_S labels k : (tp_at labels k ≤ S k)%nat.
Proof.
  unfold tp_at. etrans; [apply count_true_le_length|]. rewrite length_take. lia.
Qed.

Lemma pq_le_1 labels d : pq labels d ≤ 1.
Proof.
  destruct d as [k|]; simpl; [|done].
  apply Qcdiv_le_1; [apply nq_nonneg|]. apply nq_le, tp_at_le_S.
Qed.

Lemma rq_le_1 labels d : rq labels d ≤ 1.
Proof.
  destruct d as [k|]; simpl; [|done].
  apply Qcdiv_le_1; [apply nq_nonneg|]. apply nq_le, tp_at_le.
Qed.

Lemma rq_no_positive labels d : count_true labels = 0%nat → rq labels d = 0.
Proof.
  intros Hz. destruct d as [k|]; simpl; [|done].
  pose proof (tp_at_le labels k). replace (tp_at labels k) with 0%nat by lia.
  rewrite nq_0. unfold Qcdiv. apply Qcmult_0_l.
Qed.

Lemma np_take_perm {A} `{Inhabited A} (a : list A) idx :
  idx ≡ₚ seq 0 (length a) → np_take a idx ≡ₚ a.
Proof.
  intros Hp. unfold np_take. rewrite Hp. by rewrite <- (np_take_seq a) at 2.
Qed.

Lemma count_true_perm l l' : l ≡ₚ l' → count_true l = count_true l'.
Proof. intros Hp. unfold count_true. by rewrite Hp. Qed.

Lemma count_true_sorted_labels y_true y_score :
  length y_true = length y_score →
  count_true (sorted_labels y_true y_score) = count_true y_true.
Proof.
  intros Hlen. apply count_true_perm. unfold sorted_labels. apply np_take_perm.
  by rewrite reverse_Permutation, stable_argsort_perm, Hlen.
Qed.

(** [searchsorted] for the last value of a list of counts none of which
    exceeds it: the index found holds that value. *)
Lemma np_searchsorted_counts (ns : list nat) (t : nat) :
  t ∈ ns → Forall (λ n, n ≤ t)%nat ns →
  ns !! np_searchsorted (of_nat <$> ns) (of_nat t) = Some t.
Proof.
  induction ns as [|n ns IH]; intros Hin Hle; [by apply elem_of_nil in Hin|].
  apply Forall_cons in Hle as [Hn Hle]. cbn [fmap list_fmap np_searchsorted].
  unfold of_nat at 1 2. rewrite np_lt_Fin.
  destruct (fltb _ _) eqn:Hlt.
  - apply fltb_Fin in Hlt. cbn [lookup list_lookup]. apply IH; [|done].
    apply elem_of_cons in Hin as [->|?]; [|done]. by apply Qclt_not_eq in Hlt.
  - cbn [lookup list_lookup]. f_equal.
    assert (¬ (n < t)%nat); [|lia]. intros Hnt.
    assert (fltb (Fin (Qc_of_Z (Z.of_nat n))) (Fin (Qc_of_Z (Z.of_nat t))) = true);
      [|congruence].
    apply fltb_Fin. rewrite <- Z2Qc_inj_lt. lia.
Qed.

Lemma fdiv_self n : (0 < n)%nat → fdiv (of_nat n) (of_nat n) = f1_.
Proof.
  intros Hn. unfold of_nat, fdiv, f1_. fold (nq n).
  assert (nq n ≠ 0) as Hne by (rewrite <- nq_0; intros ?%nq_inj; lia).
  rewrite decide_False by done. f_equal. unfold Qcdiv. by apply Qcmult_inv_r.
Qed.

Lemma precision_recall_curve_head y_true y_score precision recall thresholds :
  precision_recall_curve y_true y_score = Ok (precision, recall, thresholds) →
  (0 < count_true y_true)%nat → head recall = Some f1_.
Proof.
  intros Hcurve Hpos. unfold precision_recall_curve in Hcurve.
  destruct (_binary_clf_curve y_true y_score) as [[[fps tps] thr]|] eqn:E; [|done].
  apply _binary_clf_curve_Ok in E as (Hne & Hlen & -> & -> & Hthr).
  cbn [rbind] in Hcurve. cbv zeta in Hcurve. injection Hcurve as <- <- <-.
  set (labels := sorted_labels y_true y_score) in *.
  set (K := threshold_idxs y_score) in *.
  assert (length labels = length y_score) as Hl by apply sorted_labels_length.
  assert (0 < length y_score)%nat by (destruct y_score; [done|simpl; lia]).
  assert (count_true labels = count_true y_true) as Hct
    by (by apply count_true_sorted_labels).
  assert (last K = Some (length y_score - 1)%nat) as HlastK
    by (unfold K, threshold_idxs; apply last_snoc).
  assert (tp_at labels (length y_score - 1) = count_true labels) as Htl.
  { unfold tp_at. f_equal. apply take_ge. lia. }
  assert (((λ k, of_nat (tp_at labels k)) <$> K)
            !!! (length ((λ k, of_nat (tp_at labels k)) <$> K) - 1)%nat
          = of_nat (count_true labels)) as ->.
  { apply list_lookup_total_correct. rewrite list_lookup_fmap.
    rewrite length_fmap. rewrite last_lookup in HlastK.
    replace (length K - 1)%nat with (Init.Nat.pred (length K)) by lia.
    rewrite HlastK. cbn. by rewrite Htl. }
  set (li := np_searchsorted _ _).
  assert ((tp_at labels <$> K) !! li = Some (count_true labels)) as Hli.
  { unfold li. rewrite (list_fmap_compose (tp_at labels) of_nat).
    apply np_searchsorted_counts.
    - apply list_elem_of_fmap. exists (length y_score - 1)%nat. split; [done|].
      rewrite last_lookup in HlastK. by eapply list_elem_of_lookup_2.
    - apply Forall_fmap, Forall_forall. intros k _. apply tp_at_le. }
  unfold rev_upto. rewrite head_app.
  rewrite head_reverse, last_lookup, length_take, length_fmap, length_fmap.
  apply lookup_lt_Some in Hli as Hlt. rewrite length_fmap in Hlt.
  replace (Init.Nat.pred (S li `min` length K)) with li by lia.
  rewrite lookup_take_lt by lia.
  rewrite list_lookup_fmap, list_lookup_fmap.
  rewrite list_lookup_fmap in Hli. destruct (K !! li) as [k|]; [|done].
  cbn [fmap option_fmap option_map] in Hli |- *. injection Hli as ->.
  rewrite fdiv_self by lia. done.
Qed.

(** The final point of the raw curve, and the points that share its recall. *)
Lemma precision_recall_curve_last y_true y_score precision recall thresholds :
  precision_recall_curve y_true y_score = Ok (precision, recall, thresholds) →
  let n := length recall in
  precision !!! (n - 1)%nat = f1_ ∧ repair recall !!! (n - 1)%nat = f0
  ∧ (thresholds ++ [f1_]) !!! (n - 1)%nat = f1_
  ∧ (0 < n)%nat
  ∧ ∀ i, (i < n - 1)%nat → repair recall !!! i = f0 → precision !!! i = f0.
Proof.
  intros Hcurve n.
  pose proof Hcurve as (K & HK & _ & HP & HR & HT)%precision_recall_curve_Ok.
  set (labels := sorted_labels y_true y_score) in *.
  assert (n = S (length K)) as Hn.
  { unfold n. rewrite HR, length_app, length_fmap, length_reverse. simpl. lia. }
  rewrite Hn. replace (S (length K) - 1)%nat with (length K) by lia.
  split_and!.
  - rewrite HP. apply list_lookup_total_correct.
    rewrite lookup_app_r by (rewrite length_fmap, length_reverse; lia).
    by rewrite length_fmap, length_reverse, Nat.sub_diag.
  - rewrite HR, raw_recall. apply list_lookup_total_correct. unfold descr.
    rewrite fmap_app, lookup_app_r
      by (rewrite !length_fmap, length_reverse; lia).
    by rewrite !length_fmap, length_reverse, Nat.sub_diag.
  - apply list_lookup_total_correct. rewrite lookup_app_r by lia.
    by rewrite HT, Nat.sub_diag.
  - lia.
  - intros i Hi. rewrite HR, raw_recall, HP, raw_precision. unfold descr.
    rewrite !fmap_app.
    rewrite !lookup_total_app_l by (rewrite !length_fmap, length_reverse; lia).
    assert (is_Some (reverse K !! i)) as [k Hk]
      by (apply lookup_lt_is_Some; rewrite length_reverse; lia).
    assert (((λ d, Fin (rq labels d)) <$> (Some <$> reverse K)) !!! i
            = Fin (rq labels (Some k))) as ->.
    { apply list_lookup_total_correct. by rewrite !list_lookup_fmap, Hk. }
    assert (((λ d, Fin (pq labels d)) <$> (Some <$> reverse K)) !!! i
            = Fin (pq labels (Some k))) as ->.
    { apply list_lookup_total_correct. by rewrite !list_lookup_fmap, Hk. }
    intros Hr. assert (rq labels (Some k) = 0) as Hr' by (unfold f0 in Hr; congruence).
    unfold f0. f_equal.
    apply pq_Some_0. by apply rq_Some_0.
Qed.

Lemma precision_recall_curve_bounds y_true y_score precision recall thresholds :
  precision_recall_curve y_true y_score = Ok (precision, recall, thresholds) →
  Forall unit_interval precision ∧ Forall unit_interval (repair recall).
Proof.
  intros (labels & D & -> & -> & _)%precision_recall_curve_descr. split.
  - apply Forall_fmap, Forall_forall. intros d _. eexists. split; [done|].
    split; [apply pq_nonneg|apply pq_le_1].
  - apply Forall_fmap, Forall_forall. intros d _. eexists. split; [done|].
    split; [apply rq_nonneg|apply rq_le_1].
Qed.

(** ** The deduplicated curve: bounds and end points *)

Lemma unit_interval_finite x : unit_interval x → finite x.
Proof. by intros (q & -> & _). Qed.

Lemma unit_interval_0 : unit_interval f0.
Proof. by exists 0. Qed.

Lemma unit_interval_1 : unit_interval f1_.
Proof. by exists 1. Qed.

Lemma np_take_unit_interval (a : list float) idx :
  Forall unit_interval a → Forall unit_interval (np_take a idx).
Proof.
  intros Ha. apply Forall_fmap, Forall_forall. intros i _. cbn.
  destruct (decide (i < length a)%nat) as [Hi|Hi].
  - by apply Forall_lookup_total_1.
  - rewrite list_lookup_total_alt, lookup_ge_None_2 by lia. apply unit_interval_0.
Qed.

Lemma F1_of_unit_interval p r :
  0 ≤ p → p ≤ 1 → 0 ≤ r → r ≤ 1 → 0 < p + r → unit_interval (F1_of (Fin p) (Fin r)).
Proof.
  intros Hp Hp1 Hr Hr1 Hpr. unfold F1_of. cbn [fmul fadd f2 fdiv].
  rewrite decide_False by (intros E; rewrite E in Hpr; by apply Qclt_not_eq in Hpr).
  eexists. split; [done|]. split.
  - apply Qcdiv_nonneg; [|by apply Qclt_le_weak].
    apply Qcmult_nonneg_nonneg; [|done]. by apply Qcmult_nonneg_nonneg.
  - apply Qcdiv_le_1.
    + apply Qcmult_nonneg_nonneg; [|done]. by apply Qcmult_nonneg_nonneg.
    + replace (2 * p * r) with (p * r + r * p) by ring.
      apply Qcplus_le_compat.
      * rewrite <- (Qcmult_1_r p) at 2. by apply Qcmult_le_mono_nonneg_l.
      * rewrite <- (Qcmult_1_r r) at 2. by apply Qcmult_le_mono_nonneg_l.
Qed.

Lemma np_any_bool_count gt : np_any_bool gt = true ↔ (0 < count_true gt)%nat.
Proof.
  unfold np_any_bool. induction gt as [|b gt IH]; [cbn; split; [done|lia]|].
  rewrite count_true_cons. cbn [existsb]. destruct b.
  - change (count_true [true]) with 1%nat. cbn. split; [lia|done].
  - change (count_true [false]) with 0%nat. cbn. done.
Qed.

Lemma np_any_bool_none gt : np_any_bool gt = false ↔ count_true gt = 0%nat.
Proof.
  pose proof (np_any_bool_count gt) as H. destruct (np_any_bool gt).
  - split; [done|]. intros E. assert (0 < count_true gt)%nat by (by apply H). lia.
  - split; [|done]. intros _. destruct (count_true gt); [done|].
    assert (false = true) by (apply H; lia). done.
Qed.

Section dedup_end_points.
Context `{!Argsort}.

Lemma kept_final gt pred precisions recalls thresholds :
  precision_recall_curve gt pred = Ok (precisions, recalls, thresholds) →
  last (kept (repair recalls) precisions) = Some (length recalls - 1)%nat.
Proof.
  intros Hprc.
  pose proof (precision_recall_curve_ok _ _ _ _ _ Hprc) as [Hok _].
  destruct (precision_recall_curve_last _ _ _ _ _ Hprc)
    as (HP & HR & _ & Hn & Hzero).
  set (n := length recalls) in *.
  assert ((n - 1)%nat ∈ kept (repair recalls) precisions) as Hin.
  { apply (kept_strict_max _ _ (raw_recalls_finite _ _ Hok)
             (raw_precisions_finite _ _ Hok) (raw_no_ties _ _ Hok)).
    rewrite repair_length. fold n. split; [lia|].
    intros i Hi Hne Hrec. rewrite HR in Hrec.
    rewrite (Hzero i ltac:(lia) Hrec), HP. done. }
  unfold kept in Hin |- *. rewrite repair_length in Hin |- *. fold n in Hin |- *.
  assert (seq 0 n = seq 0 (n - 1) ++ [(n - 1)%nat]) as Hseq.
  { replace n with (S (n - 1)) at 1 by lia. by rewrite seq_S. }
  apply list_elem_of_filter in Hin as [Hnd _].
  rewrite Hseq, filter_app.
  rewrite filter_cons_True by exact Hnd. rewrite filter_nil. apply last_snoc.
Qed.

Lemma pr_curve_bounds gt pred P R T :
  pr_curve gt pred = Ok (P, R, T) →
  Forall unit_interval P ∧ Forall unit_interval R.
Proof.
  intros Hcurve.
  destruct (pr_curve_inv _ _ _ _ _ Hcurve) as (P0 & R0 & T0 & Hprc).
  rewrite (pr_curve_eq _ _ _ _ _ Hprc) in Hcurve. injection Hcurve as <- <- <-.
  destruct (precision_recall_curve_bounds _ _ _ _ _ Hprc) as [HP HR].
  split; by apply np_take_unit_interval.
Qed.

Lemma pr_curve_lengths gt pred P R T :
  pr_curve gt pred = Ok (P, R, T) →
  length P = length R ∧ length T = length R ∧ R ≠ [].
Proof.
  intros Hcurve.
  destruct (pr_curve_inv _ _ _ _ _ Hcurve) as (P0 & R0 & T0 & Hprc).
  rewrite (pr_curve_eq _ _ _ _ _ Hprc) in Hcurve. injection Hcurve as <- <- <-.
  pose proof (precision_recall_curve_ok _ _ _ _ _ Hprc) as [Hok _].
  rewrite !np_take_length. split_and!; [done..|].
  intros E%(f_equal length). rewrite np_take_length in E.
  apply (kept_nonempty _ _ Hok). by apply nil_length_inv.
Qed.

Lemma pr_curve_last gt pred P R T :
  pr_curve gt pred = Ok (P, R, T) →
  last P = Some f1_ ∧ last R = Some f0 ∧ last T = Some f1_.
Proof.
  intros Hcurve.
  destruct (pr_curve_inv _ _ _ _ _ Hcurve) as (P0 & R0 & T0 & Hprc).
  rewrite (pr_curve_eq _ _ _ _ _ Hprc) in Hcurve. injection Hcurve as <- <- <-.
  destruct (precision_recall_curve_last _ _ _ _ _ Hprc) as (HP & HR & HT & _).
  unfold np_take. rewrite !fmap_last, (kept_final _ _ _ _ _ Hprc). cbn.
  by rewrite HP, HR, HT.
Qed.

Lemma pr_curve_head gt pred P R T :
  pr_curve gt pred = Ok (P, R, T) → (0 < count_true gt)%nat → head R = Some f1_.
Proof.
  intros Hcurve Hpos.
  destruct (pr_curve_bounds _ _ _ _ _ Hcurve) as [_ HRb].
  destruct (pr_curve_inv _ _ _ _ _ Hcurve) as (P0 & R0 & T0 & Hprc).
  rewrite (pr_curve_eq _ _ _ _ _ Hprc) in Hcurve. injection Hcurve as <- <- <-.
  pose proof (precision_recall_curve_ok _ _ _ _ _ Hprc) as [Hok _].
  pose proof (precision_recall_curve_head _ _ _ _ _ Hprc Hpos) as Hhead.
  pose proof (dedup_recall_decreasing _ _ Hok) as Hdec.
  set (R := np_take (repair R0) (kept (repair R0) P0)) in *.
  assert (f1_ ∈ R) as Hin.
  { destruct (kept_max (repair R0) P0 (raw_recalls_finite _ _ Hok)
                (raw_precisions_finite _ _ Hok) 0 (raw_nonempty _ _ Hok))
      as (k & Hk & HRk & _).
    apply list_elem_of_fmap. exists k. split; [|done]. rewrite HRk.
    destruct R0 as [|r0 R0']; [done|]. cbn in Hhead. injection Hhead as ->. done. }
  destruct R as [|x R']; [by apply elem_of_nil in Hin|]. cbn. f_equal.
  apply elem_of_cons in Hin as [->|Hin]; [done|]. exfalso.
  apply StronglySorted_inv in Hdec as [_ Hall].
  rewrite Forall_forall in Hall. specialize (Hall _ Hin).
  apply Forall_cons in HRb as [(q & -> & _ & Hq) _].
  unfold f1_ in Hall. apply fltb_Fin in Hall. by apply Qclt_not_le in Hall.
Qed.

Lemma pr_curve_no_positive gt pred P R T :
  pr_curve gt pred = Ok (P, R, T) → count_true gt = 0%nat →
  P = [f1_] ∧ R = [f0] ∧ T = [f1_].
Proof.
  intros Hcurve Hz.
  destruct (pr_curve_lengths _ _ _ _ _ Hcurve) as (HlP & HlT & Hne).
  destruct (pr_curve_last _ _ _ _ _ Hcurve) as (HP & HR & HT).
  assert (Forall (λ r, r = f0) R) as Hall.
  { destruct (pr_curve_inv _ _ _ _ _ Hcurve) as (P0 & R0 & T0 & Hprc).
    rewrite (pr_curve_eq _ _ _ _ _ Hprc) in Hcurve. injection Hcurve as _ <- _.
    pose proof (precision_recall_curve_cases gt pred) as Hc.
    rewrite Hprc in Hc. destruct Hc as (Hlen & _ & _).
    pose proof Hprc as (K & _ & _ & _ & -> & _)%precision_recall_curve_Ok.
    rewrite raw_recall. apply Forall_fmap, Forall_forall. intros i _. cbn.
    destruct (decide (i < length (descr K))%nat) as [Hi|Hi].
    - apply list_lookup_total_correct. rewrite list_lookup_fmap.
      destruct (lookup_lt_is_Some_2 _ _ Hi) as [d ->]. cbn. unfold f0. do 2 f_equal.
      apply rq_no_positive. by rewrite count_true_sorted_labels.
    - by rewrite list_lookup_total_alt, lookup_ge_None_2
        by (rewrite length_fmap; lia). }
  assert (NoDup R) as Hnd.
  { destruct (pr_curve_inv _ _ _ _ _ Hcurve) as (P0 & R0 & T0 & Hprc).
    rewrite (pr_curve_eq _ _ _ _ _ Hprc) in Hcurve. injection Hcurve as _ <- _.
    pose proof (precision_recall_curve_ok _ _ _ _ _ Hprc) as [Hok _].
    apply StronglySorted_fltb_NoDup. by apply dedup_recall_decreasing. }
  assert (length R = 1%nat) as Hlen.
  { destruct R as [|x [|y R']]; [done|done|]. exfalso.
    apply Forall_cons in Hall as [-> Hall]. apply Forall_cons in Hall as [-> _].
    apply NoDup_cons in Hnd as [Hnd _]. apply Hnd. by left. }
  destruct R as [|x [|? ?]]; [done| |done].
  destruct P as [|p [|? ?]]; [done| |done].
  destruct T as [|t [|? ?]]; [done| |done].
  cbn in HP, HR, HT. by injection HP as ->; injection HR as ->; injection HT as ->.
Qed.

Lemma pr_curve_NoDup gt pred P R T :
  pr_curve gt pred = Ok (P, R, T) → NoDup R.
Proof.
  intros Hcurve.
  destruct (pr_curve_inv _ _ _ _ _ Hcurve) as (P0 & R0 & T0 & Hprc).
  rewrite (pr_curve_eq _ _ _ _ _ Hprc) in Hcurve. injection Hcurve as _ <- _.
  pose proof (precision_recall_curve_ok _ _ _ _ _ Hprc) as [Hok _].
  apply StronglySorted_fltb_NoDup. by apply dedup_recall_decreasing.
Qed.

Lemma pr_curve_nonzero gt pred P R T :
  pr_curve gt pred = Ok (P, R, T) →
  Forall2 (λ p r, ∃ p' r', p = Fin p' ∧ r = Fin r' ∧ 0 ≤ p' ∧ 0 ≤ r' ∧ 0 < p' + r') P R.
Proof.
  intros Hcurve.
  destruct (pr_curve_inv _ _ _ _ _ Hcurve) as (P0 & R0 & T0 & Hprc).
  rewrite (pr_curve_eq _ _ _ _ _ Hprc) in Hcurve. injection Hcurve as <- <- _.
  pose proof (precision_recall_curve_ok _ _ _ _ _ Hprc) as [Hok _].
  unfold np_take. apply Forall2_fmap, Forall_Forall2_diag, Forall_forall.
  intros k Hk. by apply dedup_nonzero.
Qed.
End dedup_end_points.

(** ** The curve emitted by [_evaluate_and_plot] *)

Section evaluate_shape.
Context `{!Argsort, !Segmentation}.

Lemma evaluate_plot_shape pred bin_ gt pe be plot :
  evaluate pred bin_ gt = Ok (pe, be, plot) →
  ∃ pred' P R T i,
    repaired_pred pred = Ok pred' ∧ pr_curve gt pred' = Ok (P, R, T)
    ∧ f1 plot = zip_with F1_of P R ∧ threshold plot = Some T
    ∧ np_argmax (f1 plot) = Ok i ∧ (i < length R)%nat
    ∧ f1_point plot = Some (R !!! i, P !!! i)
    ∧ mean (pe_recall pe) = R !!! i ∧ mean (pe_precision pe) = P !!! i
    ∧ mean (pe_f1score pe) = f1 plot !!! i
    ∧ ((2 ≤ length R)%nat ∧ recall plot = R ∧ precision plot = P
       ∨ R = [f0] ∧ P = [f1_] ∧ T = [f1_]
         ∧ recall plot = [f0; f1_] ∧ precision plot = [f1_; f0]).
Proof.
  intros (pred' & bin' & P0 & R0 & T0 & i & Hpred & _ & Hprc & Hrest)%evaluate_Ok_inv.
  cbv zeta in Hrest. destruct Hrest as (Hi & Hilt & Hfin & Hlf & Hplot & ->).
  pose proof (pr_curve_eq _ _ _ _ _ Hprc) as Hcurve. cbv zeta in Hcurve.
  pose proof (precision_recall_curve_ok _ _ _ _ _ Hprc) as [Hok _].
  set (idx := kept (repair R0) P0) in *.
  set (P := np_take P0 idx) in *. set (R := np_take (repair R0) idx) in *.
  set (T := np_take (T0 ++ [f1_]) idx) in *.
  destruct (pr_curve_lengths _ _ _ _ _ Hcurve) as (HlP & HlT & Hne).
  destruct (pr_curve_last _ _ _ _ _ Hcurve) as (HlastP & HlastR & HlastT).
  destruct (Plot_init_markers _ _ _ _ _ _ _ Hplot) as [Hfp _].
  destruct (Plot_init_Ok R P (Some T) (Some (zip_with F1_of P R))
              (Some (R !!! i, P !!! i))
              (Some (Metric_last (update Metric_new (recall_compute gt bin')),
                     Metric_last (update Metric_new (precision_compute gt bin'))))
              HlP Hne) as (r & p & E & _ & _ & Hcase).
  rewrite E in Hplot. injection Hplot as <-. cbn [f1 threshold recall precision f1_point].
  cbn [default] in *.
  assert (Forall finite P) as HPfin
    by apply np_take_finite, (raw_precisions_finite _ _ Hok).
  assert (Forall finite R) as HRfin
    by apply np_take_finite, (raw_recalls_finite _ _ Hok).
  assert (length R = length idx) as HlR by apply np_take_length.
  exists pred', P, R, T, i. split_and!; [done..|lia|done| | | |].
  - cbn [pe_recall]. apply update_new_mean. by apply lookup_total_finite.
  - cbn [pe_precision]. apply update_new_mean. by apply lookup_total_finite.
  - cbn [pe_f1score]. apply update_new_mean. by apply lookup_total_finite.
  - destruct (decide (length R < 2)%nat) as [Hlt|Hge].
    + right. destruct Hcase as (r0 & p0 & HR & HP & Hrp).
      rewrite HR in HlastR. rewrite HP in HlastP. cbn in HlastR, HlastP.
      injection HlastR as ->. injection HlastP as ->.
      change (truthy f0) with false in Hrp. injection Hrp as -> ->.
      split_and!; [done..| |done|done].
      rewrite HR in HlT. destruct T as [|t [|? ?]]; [done| |done].
      cbn in HlastT. by injection HlastT as ->.
    + left. destruct Hcase as [-> ->]. split; [lia|done].
Qed.
End evaluate_shape.

Lemma evaluate_spans `{!Argsort, !Segmentation} pred bin_ gt pe be plot :
  evaluate pred bin_ gt = Ok (pe, be, plot) →
  valid_curve plot ∧ NoDup (recall plot)
  ∧ f0 ∈ recall plot ∧ f1_ ∈ recall plot
  ∧ ∀ g, unit_interval g → in_range (recall plot) g.
Proof.
  intros Heval.
  pose proof (evaluate_curve_lengths _ _ _ _ _ _ Heval) as (Hlen & Hge & _).
  pose proof (evaluate_curve_finite _ _ _ _ _ _ Heval) as (Hfin & _).
  pose proof Heval as
    (pred' & P & R & T & i & _ & Hcurve & _ & _ & _ & _ & _ & _ & _ & _ & Hcase)
    %evaluate_plot_shape.
  destruct (pr_curve_last _ _ _ _ _ Hcurve) as (_ & HlastR & _).
  assert (NoDup (recall plot)) as Hnd.
  { destruct Hcase as [(_ & -> & _)|(_ & _ & _ & -> & _)].
    - by eapply pr_curve_NoDup.
    - apply NoDup_cons. split; [|apply NoDup_singleton].
      intros [=]%list_elem_of_singleton. }
  assert (f0 ∈ recall plot) as Hzero.
  { destruct Hcase as [(_ & -> & _)|(_ & _ & _ & -> & _)]; [|by left].
    rewrite last_lookup in HlastR. by eapply list_elem_of_lookup_2. }
  assert (f1_ ∈ recall plot) as Hone.
  { destruct Hcase as [(HgeR & -> & _)|(_ & _ & _ & -> & _)]; [|right; by left].
    destruct (np_any_bool gt) eqn:Hany.
    - assert (head R = Some f1_) as Hh
        by (eapply pr_curve_head; [done|by apply np_any_bool_count]).
      destruct R; [done|]. cbn in Hh. injection Hh as ->. by left.
    - apply np_any_bool_none in Hany.
      destruct (pr_curve_no_positive _ _ _ _ _ Hcurve Hany) as (_ & -> & _).
      cbn in HgeR. lia. }
  split_and!; [done..|].
  intros g (q & -> & Hq0 & Hq1). exists f0, f1_. split_and!; [done..| |].
  - by apply fleb_Fin.
  - by apply fleb_Fin.
Qed.

(** X3.  The duplicate-recall suppression leaves no point with precision 0
    and recall 0 on the curve (the remark of line 169): at every index of
    the deduplicated curve precision and recall are non-negative numbers
    that are not both 0. *)
Theorem suppression_removes_zero_points `{!Argsort} gt pred P R T i p r :
  pr_curve gt pred = Ok (P, R, T) →
  P !! i = Some p → R !! i = Some r →
  ¬ (p = f0 ∧ r = f0) ∧ fleb f0 p = true ∧ fleb f0 r = true.
Proof.
  intros Hcurve Hp Hr.
  pose proof (pr_curve_nonzero _ _ _ _ _ Hcurve) as Hall.
  destruct (Forall2_lookup_lr _ _ _ _ _ _ Hall Hp Hr)
    as (p' & r' & -> & -> & Hp0 & Hr0 & Hsum).
  split_and!.
  - intros [Ep Er]. unfold f0 in Ep, Er.
    assert (p' = 0) as -> by congruence. assert (r' = 0) as -> by congruence.
    by apply Qclt_not_eq in Hsum.
  - by apply fleb_Fin.
  - by apply fleb_Fin.
Qed.

Lemma suppression_removes_zero_points_witness :
  ¬ (1 // 1 = f0 ∧ 1 // 2 = f0) ∧ fleb f0 (1 // 1) = true ∧ fleb f0 (1 // 2) = true.
Proof.
  apply (@suppression_removes_zero_points stable_Argsort scen1_gt scen1_pred
           [1 // 1; 1 // 1; 1 // 1] [1 // 1; 1 // 2; 0 // 1]
           [8 // 10; 9 // 10; 1 // 1] 1).
  - by_eval.
  - reflexivity.
  - reflexivity.
Defined.

(** X4.  End points of the deduplicated curve: its last point is the point
    (precision 1, recall 0) that [precision_recall_curve] appends, with the
    threshold 1 appended at line 167; when the ground truth has a positive
    element its first point has recall 1; when it has none, the curve is
    that one point alone. *)
Theorem dedup_curve_end_points `{!Argsort} gt pred P R T :
  pr_curve gt pred = Ok (P, R, T) →
  last P = Some f1_ ∧ last R = Some f0 ∧ last T = Some f1_
  ∧ (np_any_bool gt = true → head R = Some f1_)
  ∧ (np_any_bool gt = false → P = [f1_] ∧ R = [f0] ∧ T = [f1_]).
Proof.
  intros Hcurve.
  destruct (pr_curve_last _ _ _ _ _ Hcurve) as (HP & HR & HT).
  split_and!; [done..| |].
  - intros Hpos%np_any_bool_count. by eapply pr_curve_head.
  - intros Hnone%np_any_bool_none. by eapply pr_curve_no_positive.
Qed.

Lemma dedup_curve_end_points_witness :
  last [1 // 1; 1 // 1; 1 // 1] = Some f1_
  ∧ last [1 // 1; 1 // 2; 0 // 1] = Some f0
  ∧ last [8 // 10; 9 // 10; 1 // 1] = Some f1_
  ∧ (np_any_bool scen1_gt = true → head [1 // 1; 1 // 2; 0 // 1] = Some f1_)
  ∧ (np_any_bool scen1_gt = false →
     [1 // 1; 1 // 1; 1 // 1] = [f1_] ∧ [1 // 1; 1 // 2; 0 // 1] = [f0]
     ∧ [8 // 10; 9 // 10; 1 // 1] = [f1_]).
Proof.
  apply (@dedup_curve_end_points stable_Argsort scen1_gt scen1_pred). by_eval.
Defined.

(** X5.  Every recall, precision and F1 value of the curve emitted by
    [_evaluate_and_plot], and each of the three recorded best scores, is a
    number between 0 and 1. *)
Theorem evaluate_values_in_unit_interval `{!Argsort, !Segmentation}
    pred bin_ gt pe be plot :
  evaluate pred bin_ gt = Ok (pe, be, plot) →
  Forall unit_interval (recall plot) ∧ Forall unit_interval (precision plot)
  ∧ Forall unit_interval (f1 plot)
  ∧ unit_interval (mean (pe_recall pe)) ∧ unit_interval (mean (pe_precision pe))
  ∧ unit_interval (mean (pe_f1score pe)).
Proof.
  intros (pred' & P & R & T & i & _ & Hcurve & Hf1 & _ & _ & Hi & _ & -> & -> & -> & Hcase)
    %evaluate_plot_shape.
  destruct (pr_curve_bounds _ _ _ _ _ Hcurve) as [HP HR].
  destruct (pr_curve_lengths _ _ _ _ _ Hcurve) as (HlP & _ & _).
  assert (Forall unit_interval (f1 plot)) as HF.
  { rewrite Hf1. apply Forall_lookup_2. intros j x Hx.
    apply lookup_zip_with_Some in Hx as (p & r & -> & Hp & Hr).
    pose proof (pr_curve_nonzero _ _ _ _ _ Hcurve) as Hnz.
    destruct (Forall2_lookup_lr _ _ _ _ _ _ Hnz Hp Hr)
      as (p' & r' & -> & -> & Hp0 & Hr0 & Hsum).
    destruct (Forall_lookup_1 _ _ _ _ HP Hp) as (? & [= <-] & _ & Hp1).
    destruct (Forall_lookup_1 _ _ _ _ HR Hr) as (? & [= <-] & _ & Hr1).
    by apply F1_of_unit_interval. }
  assert (Forall unit_interval (recall plot) ∧ Forall unit_interval (precision plot))
    as [? ?].
  { destruct Hcase as [(_ & -> & ->)|(_ & _ & _ & -> & ->)]; [done|].
    split; repeat constructor; (apply unit_interval_0 || apply unit_interval_1). }
  split_and!; [done..| | |].
  - apply Forall_lookup_total_1; [done|lia].
  - apply Forall_lookup_total_1; [done|lia].
  - apply Forall_lookup_total_1; [done|].
    rewrite Hf1, length_zip_with. lia.
Qed.

Lemma evaluate_values_in_unit_interval_witness :
  ∃ pe be plot,
    @evaluate stable_Argsort spec_metrics scen1_pred scen1_bin scen1_gt
    = Ok (pe, be, plot)
    ∧ Forall unit_interval (recall plot) ∧ Forall unit_interval (f1 plot).
Proof.
  destruct (@evaluate stable_Argsort spec_metrics scen1_pred scen1_bin scen1_gt)
    as [[[pe be] plot]|e] eqn:E; [|vm_compute in E; discriminate].
  exists pe, be, plot. split; [reflexivity|].
  destruct (@evaluate_values_in_unit_interval stable_Argsort spec_metrics
              scen1_pred scen1_bin scen1_gt pe be plot E) as (H1 & _ & H3 & _).
  split; [exact H1|exact H3].
Defined.

(** X6.  The best-F1 marker of the emitted curve is a point of that curve,
    also after the constructor's edge-case repair, and its coordinates are
    the recall and precision recorded in the probabilistic evaluation. *)
Theorem evaluate_marker_on_curve `{!Argsort, !Segmentation}
    pred bin_ gt pe be plot :
  evaluate pred bin_ gt = Ok (pe, be, plot) →
  ∃ j r p,
    f1_point plot = Some (r, p)
    ∧ recall plot !! j = Some r ∧ precision plot !! j = Some p
    ∧ mean (pe_recall pe) = r ∧ mean (pe_precision pe) = p.
Proof.
  intros (pred' & P & R & T & i & _ & Hcurve & _ & _ & _ & Hi & Hfp & -> & -> & _ & Hcase)
    %evaluate_plot_shape.
  destruct (pr_curve_lengths _ _ _ _ _ Hcurve) as (HlP & _ & _).
  exists i, (R !!! i), (P !!! i). split_and!; [done| | |done..].
  - destruct Hcase as [(_ & -> & _)|(HR & _ & _ & -> & _)].
    + by apply list_lookup_lookup_total_lt.
    + rewrite HR in Hi |- *. cbn in Hi. by replace i with 0%nat by lia.
  - destruct Hcase as [(_ & _ & ->)|(HR & HP & _ & _ & ->)].
    + apply list_lookup_lookup_total_lt. lia.
    + rewrite HR in Hi. rewrite HP. cbn in Hi. by replace i with 0%nat by lia.
Qed.

Lemma evaluate_marker_on_curve_witness :
  ∃ pe be plot,
    @evaluate stable_Argsort spec_metrics scen2_pred scen2_bin scen2_gt
    = Ok (pe, be, plot)
    ∧ ∃ j r p, f1_point plot = Some (r, p)
               ∧ recall plot !! j = Some r ∧ precision plot !! j = Some p.
Proof.
  destruct (@evaluate stable_Argsort spec_metrics scen2_pred scen2_bin scen2_gt)
    as [[[pe be] plot]|e] eqn:E; [|vm_compute in E; discriminate].
  exists pe, be, plot. split; [reflexivity|].
  destruct (@evaluate_marker_on_curve stable_Argsort spec_metrics
              scen2_pred scen2_bin scen2_gt pe be plot E)
    as (j & r & p & H1 & H2 & H3 & _).
  exists j, r, p. split; [exact H1|]. split; [exact H2|exact H3].
Defined.

(** X7.  Every curve emitted by [_evaluate_and_plot] is a valid input of
    the aggregator and spans the whole recall range: recall and precision
    have one length, at least 2; the recall values are numbers, pairwise
    different, and 0 and 1 are among them, so that every grid point of
    [0, 1] lies within the curve's recall range. *)
Theorem evaluate_curve_spans_recall_range `{!Argsort, !Segmentation}
    pred bin_ gt pe be plot :
  evaluate pred bin_ gt = Ok (pe, be, plot) →
  valid_curve plot ∧ NoDup (recall plot)
  ∧ f0 ∈ recall plot ∧ f1_ ∈ recall plot
  ∧ ∀ g, unit_interval g → in_range (recall plot) g.
Proof. apply evaluate_spans. Qed.

(** ** When [mean_and_std] returns *)

Lemma np_linspace01_length num : length (np_linspace01 num) = num.
Proof.
  destruct num as [|[|n]]; [done..|].
  unfold np_linspace01. by rewrite length_fmap, length_seq.
Qed.

Lemma np_linspace01_unit_interval num : Forall unit_interval (np_linspace01 num).
Proof.
  destruct num as [|[|n]]; [constructor|repeat constructor; apply unit_interval_0|].
  unfold np_linspace01. apply Forall_fmap, Forall_forall. intros i Hi%elem_of_seq.
  replace (S (S n) - 1)%nat with (S n) by lia.
  unfold compose, of_nat, fdiv. rewrite decide_False by apply of_nat_S_neq_0.
  eexists. split; [done|]. fold (nq i) (nq (S n)). split.
  - apply Qcdiv_nonneg; apply nq_nonneg.
  - apply Qcdiv_le_1; [apply nq_nonneg|]. apply nq_le. lia.
Qed.

Section aggregate_returns.
Context `{!Argsort, !Segmentation}.

Lemma interp_precision_Ok plots grid :
  plots ≠ [] → Forall valid_curve plots → Forall finite grid →
  (∀ c g, c ∈ plots → g ∈ grid → in_range (recall c) g) →
  interp_precision plots grid
  = Ok ((λ c, np_interp1 (np_take (recall c) (argsort (recall c)))
                (np_take (precision c) (argsort (recall c))) <$> grid) <$> plots).
Proof.
  intros Hne Hvalid Hgrid Hrange. unfold interp_precision.
  rewrite (for_each_Ok _ plots
             (λ c, np_interp1 (np_take (recall c) (argsort (recall c)))
                     (np_take (precision c) (argsort (recall c))) <$> grid)).
  - cbn [rbind]. destruct plots as [|c plots]; [done|]. cbn [fmap list_fmap np_vstack].
    rewrite (proj2 (forallb_forall _ _)); [done|].
    intros r (c' & -> & _)%list_elem_of_In%list_elem_of_fmap.
    apply bool_decide_eq_true. by rewrite !length_fmap.
  - intros c Hc. rewrite Forall_forall in Hvalid.
    destruct (Hvalid c Hc) as (Hlen & Hge & Hfin).
    apply interp1d_in_range; [done..|].
    apply Forall_forall. intros g Hg. by apply Hrange.
Qed.

Lemma bin_points_Ok plots :
  plots ≠ [] → Forall (λ c, is_Some (bin_point c)) plots →
  bin_points_vstack plots = Ok (bin_point <$> plots)
  ∧ ∃ bm, bin_points_mean (bin_point <$> plots) = Ok bm.
Proof.
  intros Hne Hall. split.
  - unfold bin_points_vstack. destruct plots as [|c plots]; [done|].
    rewrite (proj2 (forallb_forall _ _)); [done|].
    intros p Hp%list_elem_of_In. apply bool_decide_eq_true.
    rewrite Forall_forall in Hall. by apply Hall.
  - unfold bin_points_mean.
    set (rows := (λ p : option (float * float),
                    match p with Some (r, q) => [r; q] | None => [] end)
                 <$> (bin_point <$> plots)).
    assert (length (mean0 rows) = 2%nat) as Hlen.
    { apply mean0_length.
      - unfold rows. destruct plots; [done|]. done.
      - unfold rows. rewrite <- list_fmap_compose. apply Forall_fmap.
        eapply Forall_impl; [exact Hall|]. intros c [[r q] Hc]. cbn. by rewrite Hc. }
    destruct plots as [|c plots]; [done|]. cbn [fmap list_fmap].
    apply Forall_cons in Hall as [[bp Hbp] _]. rewrite Hbp.
    destruct (mean0 rows) as [|a [|b [|? ?]]]; try done. by eexists.
Qed.

Lemma Plot_init_returns r p t f fp bp :
  length p = length r → r ≠ [] → ∃ c, Plot_init r p t f fp bp = Ok c.
Proof.
  intros Hlen Hne.
  destruct (Plot_init_Ok r p t f fp bp Hlen Hne) as (r' & p' & -> & _). by eexists.
Qed.

Lemma mean_and_std_returns plots grid :
  plots ≠ [] → grid ≠ [] →
  Forall valid_curve plots → Forall (λ c, is_Some (bin_point c)) plots →
  Forall finite grid →
  (∀ c g, c ∈ plots → g ∈ grid → in_range (recall c) g) →
  ∃ r, mean_and_std plots (inr grid) = Ok r.
Proof.
  intros Hne Hgne Hvalid Hbin Hgrid Hrange. unfold mean_and_std.
  pose proof (interp_precision_Ok plots grid Hne Hvalid Hgrid Hrange) as Hm.
  set (m := _ <$> plots) in Hm. rewrite Hm. cbn [rbind].
  destruct (interp_precision_lengths _ _ _ Hm) as [Hmne Hrows].
  pose proof (mean0_length m _ Hmne Hrows) as Hmean.
  pose proof (std0_length m _ Hmne Hrows) as Hstd.
  destruct (bin_points_Ok plots Hne Hbin) as [-> [bm Hbm]]. cbn [rbind].
  assert (0 < length grid)%nat as Hglen by (destruct grid; [done|cbn; lia]).
  destruct (np_argmax_total (zip_with (λ p r, F p r) (mean0 m) grid))
    as (idx & -> & Hidx).
  { intros E%(f_equal length). rewrite length_zip_with in E. cbn in E. lia. }
  rewrite length_zip_with in Hidx. cbn [rbind].
  rewrite !getitem_lt by lia. cbn [rbind]. rewrite Hbm. cbn [rbind].
  destruct (Plot_init_returns grid (mean0 m) None None
              (Some (grid !!! idx, mean0 m !!! idx)) (Some bm)) as [c1 ->];
    [done..|]. cbn [rbind].
  destruct (Plot_init_returns grid (zip_with fsub (mean0 m) (std0 m)) None None
              None None) as [c2 ->]; [rewrite length_zip_with; lia|done|].
  cbn [rbind].
  destruct (Plot_init_returns grid (zip_with fadd (mean0 m) (std0 m)) None None
              None None) as [c3 ->]; [rewrite length_zip_with; lia|done|].
  cbn [rbind]. by eexists.
Qed.

Lemma mean_and_std_Ok_nonempty plots interp r :
  mean_and_std plots interp = Ok r → plots ≠ [] ∧ grid_of interp ≠ [].
Proof.
  unfold mean_and_std. fold (grid_of interp). set (grid := grid_of interp).
  destruct (interp_precision plots grid) as [m|] eqn:Hm; [|done]. cbn [rbind].
  destruct (bin_points_vstack plots) as [bps|] eqn:Hb; [|done]. cbn [rbind].
  destruct (np_argmax _) as [idx|] eqn:Hi; [|done]. intros _. split.
  - intros ->. done.
  - intros E. rewrite E in Hi. by rewrite zip_with_nil_r in Hi.
Qed.
End aggregate_returns.

Lemma mean_and_std_of_evaluated `{!Argsort, !Segmentation} plots n :
  Forall evaluated plots → plots ≠ [] → n ≠ 0%nat →
  ∃ r, mean_and_std plots (inl n) = Ok r.
Proof.
  intros Hplots Hne Hn.
  change (mean_and_std plots (inl n)) with (mean_and_std plots (inr (np_linspace01 n))).
  apply mean_and_std_returns; [done|..].
  - intros E%(f_equal length). rewrite np_linspace01_length in E. done.
  - eapply Forall_impl; [exact Hplots|]. intros c (pred & bin_ & gt & pe & be & Hc).
    by destruct (evaluate_spans _ _ _ _ _ _ Hc) as [? _].
  - eapply Forall_impl; [exact Hplots|]. intros c (pred & bin_ & gt & pe & be & Hc).
    apply evaluate_Ok_inv in Hc
      as (? & ? & ? & ? & ? & ? & _ & _ & _ & Hrest).
    cbv zeta in Hrest. destruct Hrest as (_ & _ & _ & _ & Hplot & _).
    apply Plot_init_markers in Hplot as [_ ->]. done.
  - apply np_linspace01_finite.
  - intros c g Hc Hg. rewrite Forall_forall in Hplots.
    destruct (Hplots c Hc) as (pred & bin_ & gt & pe & be & Hev).
    destruct (evaluate_spans _ _ _ _ _ _ Hev)
      as (_ & _ & _ & _ & Hspan).
    apply Hspan. pose proof (np_linspace01_unit_interval n) as Hu.
    rewrite Forall_forall in Hu. by apply Hu.
Qed.

(** X8.  The aggregation step of [Main.__call__] (line 108) on curves that
    [_evaluate_and_plot] emitted, with the grid [np.linspace(0, 1, n)] of
    line 54: [mean_and_std] returns, without an interpolation-range error,
    exactly when there is at least one curve and at least one grid
    point. *)
Theorem aggregate_of_evaluated_curves `{!Argsort, !Segmentation} plots n :
  Forall evaluated plots →
  (∃ r, mean_and_std plots (inl n) = Ok r) ↔ plots ≠ [] ∧ n ≠ 0%nat.
Proof.
  intros Hplots. split.
  - intros [r Hr]. apply mean_and_std_Ok_nonempty in Hr as [Hne Hg].
    split; [done|]. intros ->. done.
  - intros [Hne Hn]. by apply mean_and_std_of_evaluated.
Qed.

(** ** Dictionaries *)

Lemma filter_all {A} (P : A → Prop) `{!∀ x, Decision (P x)} (l : list A) :
  Forall P l → filter P l = l.
Proof.
  induction 1 as [|x l Hx _ IH]; [done|]. by rewrite filter_cons_True, IH.
Qed.

Lemma filter_none {A} (P : A → Prop) `{!∀ x, Decision (P x)} (l : list A) :
  Forall (λ x, ¬ P x) l → filter P l = [].
Proof.
  induction 1 as [|x l Hx _ IH]; [done|]. by rewrite filter_cons_False.
Qed.

Lemma omap_fmap_in {A B} (f : A → option B) (g : A → B) (l : list A) :
  (∀ x, x ∈ l → f x = Some (g x)) → omap f l = g <$> l.
Proof.
  induction l as [|x l IH]; intros Hf; [done|]. cbn.
  rewrite (Hf x) by (by left). f_equal. apply IH. intros y Hy. apply Hf. by right.
Qed.

Lemma omap_filter_in {A B} (f : A → option B) (g : A → B) (P : A → Prop)
    `{!∀ x, Decision (P x)} (l : list A) :
  (∀ x, x ∈ l → f x = if decide (P x) then Some (g x) else None) →
  omap f l = g <$> filter P l.
Proof.
  induction l as [|x l IH]; intros Hf; [done|]. cbn [omap list_omap].
  rewrite (Hf x) by (by left).
  assert (omap f l = g <$> filter P l) as IH'
    by (apply IH; intros y Hy; apply Hf; by right).
  destruct (decide (P x)).
  - rewrite filter_cons_True by done. cbn. by rewrite IH'.
  - by rewrite filter_cons_False.
Qed.

Section dict.
Context {K : Type} `{EqDecision K}.

Lemma dict_keys_elem (l : list K) k : k ∈ dict_keys l ↔ k ∈ l.
Proof.
  induction l as [|x l IH]; cbn [dict_keys]; [done|].
  rewrite !elem_of_cons, list_elem_of_filter, IH.
  destruct (decide (k = x)) as [->|Hne]; [by split; left|].
  split; [intros [?|[_ ?]]; [done|by right]|intros [?|?]; [done|by right]].
Qed.

Lemma dict_keys_NoDup (l : list K) : NoDup (dict_keys l).
Proof.
  induction l as [|x l IH]; cbn [dict_keys]; [constructor|].
  apply NoDup_cons. split.
  - intros [Hne _]%list_elem_of_filter. done.
  - by apply NoDup_filter.
Qed.

Lemma dict_keys_filter (P : K → Prop) `{!∀ k, Decision (P k)} (l : list K) :
  dict_keys (filter P l) = filter P (dict_keys l).
Proof.
  induction l as [|x l IH]; [done|]. cbn [dict_keys].
  destruct (decide (P x)) as [Hx|Hx].
  - rewrite !filter_cons_True by done. cbn [dict_keys]. f_equal.
    rewrite IH, !list_filter_filter. apply filter_ext_in. intros k _.
    split; intros [? ?]; by split.
  - rewrite !filter_cons_False by done. rewrite IH, list_filter_filter.
    apply filter_ext_in. intros k _. split; [|by intros [? ?]].
    intros Hk. split; [done|]. by intros ->.
Qed.

Lemma dict_keys_id (l : list K) : NoDup l → dict_keys l = l.
Proof.
  induction 1 as [|x l Hx _ IH]; [done|]. cbn [dict_keys]. f_equal. rewrite IH.
  apply filter_all, Forall_forall. by intros k Hk ->.
Qed.

Lemma last_all_equal {A} (l : list A) x : l ≠ [] → Forall (λ y, y = x) l → last l = Some x.
Proof.
  intros Hne Hall. destruct (last l) as [y|] eqn:E.
  - f_equal. rewrite Forall_forall in Hall. apply Hall.
    rewrite last_lookup in E. by eapply list_elem_of_lookup_2.
  - by apply last_None in E.
Qed.

(** Looking up a key of a dictionary whose values are a function of the key. *)
Lemma dict_get_function {V} (items : list (K * V)) (v : K → V) k :
  Forall (λ x, x.2 = v x.1) items → k ∈ items.*1 → dict_get items k = Some (v k).
Proof.
  intros Hfun Hk. unfold dict_get.
  rewrite (last_all_equal _ (k, v k)); [done| |].
  - apply list_elem_of_fmap in Hk as ([k' w] & -> & Hin).
    intros E. assert ((k', w) ∈ filter (λ x : K * V, x.1 = k') items) as Hf
      by (by apply list_elem_of_filter).
    cbn in E. rewrite E in Hf. by apply elem_of_nil in Hf.
  - apply Forall_forall. intros [k' w] [Hk' Hin]%list_elem_of_filter.
    rewrite Forall_forall in Hfun. specialize (Hfun _ Hin). cbn in *. by subst.
Qed.

Lemma dict_get_None {V} (items : list (K * V)) k : k ∉ items.*1 → dict_get items k = None.
Proof.
  intros Hk. unfold dict_get.
  assert (filter (λ x : K * V, x.1 = k) items = []) as ->; [|done].
  apply filter_none, Forall_forall. intros [k' w] Hin Hk'. cbn in Hk'. subst.
  apply Hk. apply list_elem_of_fmap. by exists (k, w).
Qed.

(** The dictionary of the items [(k, v k)] for the keys [l]. *)
Lemma dict_of_function {V} (v : K → V) (l : list K) :
  dict_of ((λ k, (k, v k)) <$> l) = (λ k, (k, v k)) <$> dict_keys l.
Proof.
  unfold dict_of.
  assert (((λ k, (k, v k)) <$> l).*1 = l) as Hfst.
  { rewrite <- list_fmap_compose. by rewrite (list_fmap_ext _ id l), list_fmap_id. }
  rewrite Hfst. apply omap_fmap_in. intros k Hk.
  apply (proj1 (dict_keys_elem _ _)) in Hk.
  rewrite (dict_get_function _ v); [done| |by rewrite Hfst].
  by apply Forall_fmap, Forall_forall.
Qed.
End dict.

(** ** The loader *)

Lemma of_N_unit_interval (v : N) :
  (v < 256)%N → unit_interval (fdiv (of_N v) (of_nat 255)).
Proof.
  intros Hv. unfold of_N, of_nat, fdiv. fold (nq 255).
  assert (nq 255 ≠ 0) as Hne by (rewrite <- nq_0; intros ?%nq_inj; lia).
  rewrite decide_False by done. eexists. split; [done|].
  assert (Qc_of_Z (Z.of_N v) = nq (N.to_nat v)) as ->.
  { unfold nq. by rewrite N_nat_Z. }
  split.
  - apply Qcdiv_nonneg; apply nq_nonneg.
  - apply Qcdiv_le_1; [apply nq_nonneg|]. apply nq_le. lia.
Qed.

Section loader_facts.
Context `{!Imaging}.
Variable resize : option (nat * nat).
Variables _predictions _binarised gt_test : path.

Lemma try_suffixes_spec f exts :
  try_suffixes f exts = head (filter (λ p, is_file p = true) (suffix_candidates f exts)).
Proof.
  revert f. induction exts as [|ext exts IH]; intros f; [done|].
  cbn [try_suffixes suffix_candidates].
  destruct (is_file (with_suffix f ext)) eqn:E.
  - by rewrite filter_cons_True.
  - rewrite filter_cons_False by congruence. apply IH.
Qed.

Lemma find_file_spec f :
  find_file f = head (filter (λ p, is_file p = true) (candidates f)).
Proof.
  unfold find_file, candidates. destruct (is_file f) eqn:E.
  - by rewrite filter_cons_True.
  - rewrite filter_cons_False by congruence. apply try_suffixes_spec.
Qed.

Lemma _open_img_pixels_length f mode w h :
  mode = "L" ∨ mode = "1" → resize = Some (w, h) →
  length (pixels (_open_img resize f mode)) = (w * h)%nat.
Proof.
  intros Hmode ->. unfold _open_img.
  by rewrite pixels_length, Image_resize_size.
Qed.

Lemma _load_gt_length f w h :
  resize = Some (w, h) → length (_load_gt resize f) = (w * h)%nat.
Proof.
  intros Hr. unfold _load_gt. rewrite length_fmap.
  apply _open_img_pixels_length; [by right|done].
Qed.

Lemma _read_image_Some f pred bin_ :
  _read_image resize _predictions _binarised gt_test f = Ok (Some (pred, bin_)) →
  Forall unit_interval pred
  ∧ ∀ w h, resize = Some (w, h) →
           length pred = (w * h)%nat ∧ length bin_ = (w * h)%nat.
Proof.
  unfold _read_image.
  destruct (rebase _predictions f gt_test) as [pred_f|]; [|done]. cbn [rbind].
  destruct (rebase _binarised f gt_test) as [bin_f|]; [|done]. cbn [rbind].
  destruct (find_file pred_f) as [pred_f'|]; [|done].
  destruct (find_file bin_f) as [bin_f'|]; [|done].
  intros [= <- <-]. split.
  - apply Forall_fmap. eapply Forall_impl.
    + apply pixels_range. by left.
    + intros v Hv. by apply of_N_unit_interval.
  - intros w h Hr. rewrite !length_fmap. split.
    + apply _open_img_pixels_length; [by left|done].
    + apply _open_img_pixels_length; [by right|done].
Qed.
End loader_facts.

(** ** One configuration of [Main.__call__] *)

Lemma for_each_fmap {A B C} (f : B → result C) (g : A → B) (l : list A) :
  for_each f (g <$> l) = for_each (λ x, f (g x)) l.
Proof. induction l as [|x l IH]; [done|]. cbn. by rewrite IH. Qed.

Lemma for_each_ext_in {A B} (f g : A → result B) (l : list A) :
  (∀ x, x ∈ l → f x = g x) → for_each f l = for_each g l.
Proof.
  induction l as [|x l IH]; intros Hfg; [done|]. cbn.
  rewrite (Hfg x) by (by left). rewrite IH; [done|]. intros y Hy. apply Hfg. by right.
Qed.

Lemma for_each_returns {A B} (f : A → result B) (l : list A) :
  (∀ x, x ∈ l → ∃ b, f x = Ok b) → ∃ bs, for_each f l = Ok bs.
Proof.
  induction l as [|x l IH]; intros Hf; [by eexists|]. cbn.
  destruct (Hf x) as [b ->]; [by left|]. cbn [rbind].
  destruct IH as [bs ->]; [intros y Hy; apply Hf; by right|]. by eexists.
Qed.

Lemma for_each_length {A B} (f : A → result B) (l : list A) bs :
  for_each f l = Ok bs → length bs = length l.
Proof. intros H%for_each_inv. symmetry. by eapply Forall2_length. Qed.

Section configuration_facts.
Context `{!Argsort, !Segmentation, !Imaging}.
Variable resize : option (nat * nat).
Variables _predictions _binarised gt_test : path.

Let read := _read_image resize _predictions _binarised gt_test.

(** What [_read_image] returned for a sample: its two arrays, or nothing. *)
Definition loaded (f : path) : option (list float * list bool) :=
  match _read_image resize _predictions _binarised gt_test f with
  | Ok r => r
  | Raise _ => None
  end.

(** The samples of a dataset that are evaluated, in the order of the
    dictionary [pred_bin_gt]. *)
Definition evaluated_samples (dataset : list path) : list path :=
  filter (λ f, is_Some (loaded f)) (dict_keys dataset).

(** The evaluation of one sample. *)
Definition evaluate_sample (f : path) : result (PredEval * BinEval * Plot) :=
  match loaded f with
  | Some (pred, bin_) => evaluate pred bin_ (_load_gt resize f)
  | None => Raise IndexError
  end.

Definition evals_of (eps : list (PredEval * BinEval * Plot))
    (first : PredEval * BinEval * Plot) : Evals :=
  {| pred_means :=
       (λ k, (λ ep : PredEval * BinEval * Plot,
                mean (default Metric_new (pred_metrics ep.1.1 !! k))) <$> eps)
       <$> seq 0 (length (pred_metrics first.1.1));
     bin_means :=
       (λ k, (λ ep : PredEval * BinEval * Plot,
                mean (default Metric_new (bin_metrics ep.1.2 !! k))) <$> eps)
       <$> seq 0 (length (bin_metrics first.1.2)) |}.

Lemma configuration_eq dataset interp :
  Forall (λ f, ∃ r, read f = Ok r) dataset →
  configuration resize _predictions _binarised gt_test dataset interp
  = (let? eps := for_each evaluate_sample (evaluated_samples dataset) in
     let? first := getitem eps 0 in
     let? mean_plot := mean_and_std (snd <$> eps) (inl interp) in
     Ok (evaluated_samples dataset, evals_of eps first, snd <$> eps, mean_plot)).
Proof.
  intros Hread. unfold configuration. fold read.
  rewrite (for_each_Ok read dataset loaded).
  2:{ intros f Hf. rewrite Forall_forall in Hread. destruct (Hread f Hf) as [r Hr].
      unfold loaded. fold read. by rewrite Hr. }
  cbn [rbind].
  set (val := λ f : path,
         let '(pred, bin_) := default ([], []) (loaded f) in
         (pred, bin_, _load_gt resize f)).
  assert (zip dataset (loaded <$> dataset) = (λ f, (f, loaded f)) <$> dataset) as Hzip.
  { by rewrite zip_with_fmap_r, zip_with_diag. }
  rewrite Hzip.
  rewrite (omap_filter_in _ (λ f, (f, val f)) (λ f, is_Some (loaded f))).
  2:{ intros f Hf. rewrite (dict_get_function _ loaded).
      - unfold val. destruct (loaded f) as [[pred bin_]|] eqn:E.
        + rewrite decide_True by done. done.
        + rewrite decide_False; [done|]. by intros [? ?].
      - by apply Forall_fmap, Forall_forall.
      - rewrite <- list_fmap_compose. by rewrite (list_fmap_ext _ id dataset), list_fmap_id. }
  rewrite dict_of_function, dict_keys_filter. fold (evaluated_samples dataset).
  rewrite for_each_fmap.
  rewrite (for_each_ext_in _ evaluate_sample).
  2:{ intros f [Hf _]%list_elem_of_filter. cbn. unfold evaluate_sample, val.
      destruct (loaded f) as [[pred bin_]|]; [done|]. by destruct Hf. }
  destruct (for_each evaluate_sample _) as [eps|]; [|done]. cbn [rbind].
  destruct (getitem eps 0) as [first|]; [|done]. cbn [rbind].
  change (mean_and_std _ (inr (np_linspace01 interp)))
    with (mean_and_std ((λ ep : PredEval * BinEval * Plot, ep.2) <$> eps) (inl interp)).
  destruct (mean_and_std _ (inl interp)) as [mp|]; [|done]. cbn [rbind].
  do 3 f_equal. rewrite <- list_fmap_compose.
  by rewrite (list_fmap_ext _ id (evaluated_samples dataset)), list_fmap_id.
Qed.

Lemma evaluate_sample_returns f w h :
  resize = Some (w, h) → (0 < w * h)%nat → is_Some (loaded f) →
  ∃ r, evaluate_sample f = Ok r.
Proof.
  intros Hr Hwh [[pred bin_] Hl]. unfold evaluate_sample. rewrite Hl.
  unfold loaded in Hl.
  destruct (_read_image resize _predictions _binarised gt_test f) as [r|] eqn:E; [|done].
  subst r. destruct (_read_image_Some _ _ _ _ _ _ _ E) as [Hunit Hlen].
  destruct (Hlen w h Hr) as [Hp Hb].
  pose proof (evaluate_cases pred bin_ (_load_gt resize f)) as Hc.
  assert (pred ≠ []) as Hpne by (intros ->; cbn in Hp; lia).
  assert (bin_ ≠ []) as Hbne by (intros ->; cbn in Hb; lia).
  assert (Forall finite pred) as Hfin
    by (eapply Forall_impl; [exact Hunit|]; apply unit_interval_finite).
  assert (length (_load_gt resize f) = length pred) as Hgl
    by (by rewrite (_load_gt_length _ _ w h), Hp).
  destruct (evaluate pred bin_ (_load_gt resize f)) as [r|[| |msg]]; [by eexists|..].
  - by destruct Hc.
  - done.
  - destruct Hc as (_ & _ & [?|?]); done.
Qed.
End configuration_facts.

(** An instance of [Imaging] to run the loader on: paths are numbers, the
    files [0] and [1] exist, an image carries its size and its values. *)
Definition test_convert (img : nat * nat * list N) : nat * nat * list N :=
  let n := (img.1.1 * img.1.2)%nat in
  (img.1, take n ((λ v, v `mod` 256)%N <$> img.2) ++ replicate (n - length img.2) 0%N).

Lemma test_convert_length img :
  length (test_convert img).2 = (img.1.1 * img.1.2)%nat.
Proof.
  unfold test_convert. cbn [snd].
  rewrite length_app, length_take, length_fmap, length_replicate. lia.
Qed.

Lemma test_convert_range img : Forall (λ v, v < 256)%N (test_convert img).2.
Proof.
  unfold test_convert. cbn [snd]. apply Forall_app. split.
  - apply Forall_take, Forall_fmap, Forall_forall. intros v _. cbn.
    by apply N.mod_lt.
  - apply Forall_replicate. done.
Qed.

Definition test_imaging : Imaging := {|
  path := nat;
  is_file p := bool_decide (p < 2)%nat;
  with_suffix p _ := p;
  rebase _ f _ := Ok f;
  image := nat * nat * list N;
  Image_open p := ((2, 1)%nat, [255; 0]%N);
  Image_size img := img.1;
  Image_resize img size := (size, img.2);
  Image_convert img _ := test_convert img;
  pixels img := img.2;
  Image_resize_size _ _ := eq_refl;
  Image_convert_size _ _ := eq_refl;
  pixels_length img _ _ := test_convert_length img;
  pixels_range img _ _ := test_convert_range img
|}.

(** X9.  One train/test configuration of [Main.__call__] (lines 91-108)
    with images resized to a non-empty size, a grid of at least one point,
    and ground-truth files below the ground-truth directory: the
    configuration is computed exactly when the prediction and the
    binarised prediction of at least one sample are found; no evaluation
    and no aggregation can fail.  When none is found, line 106 raises
    [IndexError]. *)
Theorem configuration_returns_iff `{!Argsort, !Segmentation, !Imaging}
    resize _predictions _binarised gt_test dataset interp w h :
  resize = Some (w, h) → (0 < w * h)%nat → interp ≠ 0%nat →
  Forall (λ f, ∃ r, _read_image resize _predictions _binarised gt_test f = Ok r) dataset →
  ((∃ r, configuration resize _predictions _binarised gt_test dataset interp = Ok r)
   ↔ ∃ f, f ∈ dataset ∧ is_Some (loaded resize _predictions _binarised gt_test f))
  ∧ ((∀ f, f ∈ dataset → loaded resize _predictions _binarised gt_test f = None) →
     configuration resize _predictions _binarised gt_test dataset interp
     = Raise IndexError).
Proof.
  intros Hr Hwh Hn Hread. rewrite configuration_eq by done.
  set (keys := evaluated_samples resize _predictions _binarised gt_test dataset).
  assert (∀ f, f ∈ keys ↔
               f ∈ dataset ∧ is_Some (loaded resize _predictions _binarised gt_test f))
    as Hkeys.
  { intros f. unfold keys, evaluated_samples.
    rewrite list_elem_of_filter, dict_keys_elem. by split; intros [? ?]. }
  destruct (for_each_returns
              (evaluate_sample resize _predictions _binarised gt_test) keys) as [eps Heps].
  { intros f [_ Hf]%Hkeys. by eapply evaluate_sample_returns. }
  rewrite Heps. cbn [rbind].
  pose proof (for_each_length _ _ _ Heps) as Hlen.
  split; [split|].
  - intros [r Hres]. destruct eps as [|ep eps]; [done|].
    destruct keys as [|f keys'] eqn:E; [done|]. exists f. apply Hkeys. by left.
  - intros (f & Hf & Hl).
    assert (f ∈ keys) as Hk by (by apply Hkeys).
    destruct eps as [|ep eps].
    { destruct keys; [by apply elem_of_nil in Hk|done]. }
    cbn [getitem lookup list_lookup rbind].
    destruct (mean_and_std_of_evaluated (snd <$> ep :: eps) interp) as [mp ->];
      [|done|done|by eexists].
    apply Forall_fmap. apply for_each_inv in Heps.
    clear -Heps. induction Heps as [|g [[pe be] plot] ks es Hg _ IH]; constructor; [|done].
    cbn. unfold evaluate_sample in Hg.
    destruct (loaded _ _ _ _ g) as [[pred bin_]|]; [|done].
    by exists pred, bin_, (_load_gt resize g), pe, be.
  - intros Hnone. destruct keys as [|f keys'] eqn:E.
    + destruct eps; [done|done].
    + assert (f ∈ f :: keys') as Hin by (by left).
      apply Hkeys in Hin as [Hf [x Hx]]. rewrite (Hnone f Hf) in Hx. done.
Qed.

Lemma configuration_returns_iff_witness :
  ((∃ r, @configuration stable_Argsort spec_metrics test_imaging
           (Some (2, 1)%nat) 0%nat 0%nat 0%nat [0; 1; 2]%nat 3 = Ok r)
   ↔ ∃ f, f ∈ [0; 1; 2]%nat
          ∧ is_Some (@loaded test_imaging (Some (2, 1)%nat) 0%nat 0%nat 0%nat f))
  ∧ ((∀ f, f ∈ [0; 1; 2]%nat →
           @loaded test_imaging (Some (2, 1)%nat) 0%nat 0%nat 0%nat f = None) →
     @configuration stable_Argsort spec_metrics test_imaging
       (Some (2, 1)%nat) 0%nat 0%nat 0%nat [0; 1; 2]%nat 3 = Raise IndexError).
Proof.
  apply (@configuration_returns_iff stable_Argsort spec_metrics test_imaging
           (Some (2, 1)%nat) 0%nat 0%nat 0%nat [0; 1; 2]%nat 3 2 1).
  - reflexivity.
  - simpl. lia.
  - lia.
  - repeat constructor; eexists; vm_compute; reflexivity.
Defined.

(** X10.  What a configuration pickles is aligned: the key list holds the
    samples whose two prediction files were found, each once, in dataset
    order; there is one curve per key, the curve [_evaluate_and_plot]
    emits for that sample; every array of scores has one entry per key;
    the aggregate is [mean_and_std] of these curves. *)
Theorem configuration_results_aligned `{!Argsort, !Segmentation, !Imaging}
    resize _predictions _binarised gt_test dataset interp keys evals plots agg :
  Forall (λ f, ∃ r, _read_image resize _predictions _binarised gt_test f = Ok r) dataset →
  configuration resize _predictions _binarised gt_test dataset interp
  = Ok (keys, evals, plots, agg) →
  keys = filter (λ f, is_Some (loaded resize _predictions _binarised gt_test f))
           (dict_keys dataset)
  ∧ NoDup keys
  ∧ Forall2 (λ f plot, ∃ pred bin_ pe be,
               loaded resize _predictions _binarised gt_test f = Some (pred, bin_)
               ∧ evaluate pred bin_ (_load_gt resize f) = Ok (pe, be, plot))
      keys plots
  ∧ Forall (λ a, length a = length keys) (pred_means evals ++ bin_means evals)
  ∧ mean_and_std plots (inl interp) = Ok agg.
Proof.
  intros Hread. rewrite configuration_eq by done.
  destruct (for_each _ _) as [eps|] eqn:Heps; [|done]. cbn [rbind].
  destruct (getitem eps 0) as [first|]; [|done]. cbn [rbind].
  destruct (mean_and_std _ _) as [mp|] eqn:Hmp; [|done]. cbn [rbind].
  intros [= <- <- <- <-]. pose proof (for_each_length _ _ _ Heps) as Hlen.
  split_and!; [done| | | |done].
  - apply NoDup_filter, dict_keys_NoDup.
  - apply Forall2_fmap_r. apply for_each_inv in Heps.
    eapply Forall2_impl; [exact Heps|]. intros f [[pe be] plot] Hf. cbn.
    unfold evaluate_sample in Hf.
    destruct (loaded _ _ _ _ f) as [[pred bin_]|]; [|done].
    by exists pred, bin_, pe, be.
  - apply Forall_app. cbn [pred_means bin_means evals_of].
    split; apply Forall_fmap, Forall_forall; intros k _; cbn;
      by rewrite length_fmap.
Qed.

Lemma configuration_results_aligned_witness :
  ∃ keys evals plots agg,
    @configuration stable_Argsort spec_metrics test_imaging
      (Some (2, 1)%nat) 0%nat 0%nat 0%nat [0; 1; 2; 1]%nat 3
    = Ok (keys, evals, plots, agg)
    ∧ keys = [0; 1]%nat ∧ length plots = 2%nat.
Proof.
  destruct (@configuration stable_Argsort spec_metrics test_imaging
              (Some (2, 1)%nat) 0%nat 0%nat 0%nat [0; 1; 2; 1]%nat 3)
    as [[[[keys evals] plots] agg]|e] eqn:E; [|vm_compute in E; discriminate].
  exists keys, evals, plots, agg. split; [reflexivity|].
  destruct (@configuration_results_aligned stable_Argsort spec_metrics test_imaging
              (Some (2, 1)%nat) 0%nat 0%nat 0%nat [0; 1; 2; 1]%nat 3
              keys evals plots agg) as (Hk & _ & Hf & _).
  - repeat constructor; eexists; vm_compute; reflexivity.
  - exact E.
  - split; [exact Hk|]. apply Forall2_length in Hf. rewrite <- Hf, Hk. reflexivity.
Defined.

(** ** Extra keyword arguments *)

Section extra_facts.
Context {V : Type} (literal_eval : string → literal V).

Lemma set_extras_snoc extra pairs key value :
  set_extras literal_eval extra (pairs ++ [(key, value)])
  = match set_extras literal_eval extra pairs with
    | inl extra' => set_extra literal_eval extra' key value
    | inr e => inr e
    end.
Proof.
  revert extra. induction pairs as [|[k v] pairs IH]; intros extra; cbn.
  - by destruct (set_extra _ _ _ _).
  - destruct (set_extra literal_eval extra k v); [apply IH|done].
Qed.

Lemma set_extras_lookup pairs : ∀ extra extra' k,
  set_extras literal_eval extra pairs = inl extra' →
  extra' !! k
  = match last (filter (λ kv, kv.1 = k) pairs) with
    | Some kv => Some (stored literal_eval kv.2)
    | None => extra !! k
    end.
Proof.
  induction pairs as [|[key value] pairs IH] using rev_ind; intros extra extra' k.
  - cbn. by intros [= ->].
  - rewrite set_extras_snoc, filter_app.
    destruct (set_extras literal_eval extra pairs) as [d|] eqn:E; [|done].
    specialize (IH _ _ k E). unfold set_extra, stored.
    destruct (decide (key = k)) as [->|Hne].
    + rewrite filter_cons_True by done. rewrite filter_nil, last_snoc. cbn.
      destruct (literal_eval value); intros [= <-]; by rewrite lookup_insert_eq.
    + rewrite filter_cons_False by done. rewrite filter_nil, app_nil_r.
      destruct (literal_eval value); intros [= <-];
        by rewrite ?lookup_insert_ne.
Qed.

Lemma set_extras_returns pairs : ∀ extra,
  (∃ extra', set_extras literal_eval extra pairs = inl extra')
  ↔ Forall (λ kv, parses literal_eval kv.2) pairs.
Proof.
  induction pairs as [|[key value] pairs IH]; intros extra; cbn.
  - split; [done|by eexists].
  - unfold set_extra. rewrite Forall_cons. cbn. unfold parses at 1.
    destruct (literal_eval value) as [v| |e]; rewrite ?IH.
    + split; [done|by intros [_ ?]].
    + split; [done|by intros [_ ?]].
    + split; [by intros [? ?]|]. intros [Hp _]. by destruct (Hp e).
Qed.
End extra_facts.

(** ** The rows of the form *)

Lemma index_of_Some l x i :
  index_of l x = Some i →
  ∃ r, l !! i = Some (x, r) ∧ x ∉ (take i l).*1.
Proof.
  revert i. induction l as [|[y r] l IH]; intros i; cbn; [done|].
  destruct (decide (y = x)) as [->|Hne].
  - intros [= <-]. exists r. split; [done|]. cbn. apply not_elem_of_nil.
  - destruct (index_of l x) as [j|]; [|done]. cbn. intros [= <-].
    destruct (IH j eq_refl) as (r' & Hl & Hnot). exists r'. split; [done|].
    cbn. intros [?|?]%elem_of_cons; done.
Qed.

Lemma index_of_elem l x : x ∈ l.*1 → is_Some (index_of l x).
Proof.
  induction l as [|[y r] l IH]; cbn; [by intros ?%elem_of_nil|].
  destruct (decide (y = x)); [done|]. intros [?|Hin]%elem_of_cons; [done|].
  destruct (IH Hin) as [j ->]. done.
Qed.

Lemma layout_ok_init : layout_ok ExtraFrame_init.
Proof. split_and!; [done|constructor|done|by right]. Qed.

Lemma layout_ok_add s pair_frame :
  layout_ok s → pair_frame ∉ (pairs s).*1 → layout_ok (add_pair s pair_frame).
Proof.
  intros (Hrows & Hnd & _ & _) Hnew. unfold add_pair, update_labels_and_button.
  unfold layout_ok. cbn [pairs labels_shown add_btn_row]. split_and!.
  - rewrite fmap_app, Hrows, !length_app. cbn [length fmap list_fmap].
    rewrite (Nat.add_1_r (length (pairs s))), seq_S, fmap_app. cbn [fmap list_fmap snd].
    done.
  - rewrite fmap_app. cbn. apply NoDup_app. split_and!; [done| |apply NoDup_singleton].
    by intros x Hx ->%list_elem_of_singleton.
  - done.
  - by left.
Qed.

Lemma layout_ok_remove s self s' :
  layout_ok s → KWFrame_remove s self = Ok s' → layout_ok s'.
Proof.
  intros (Hrows & Hnd & _ & _). unfold KWFrame_remove.
  destruct (index_of (pairs s) self) as [i|] eqn:Hi; [|done].
  intros [= <-]. apply index_of_Some in Hi as (r & Hi & _).
  unfold update_labels_and_button. cbn [pairs labels_shown add_btn_row].
  pose proof (lookup_lt_Some _ _ _ Hi) as Hlt.
  set (l := pairs s) in *.
  assert (length (take i l ++ drop (S i) l) = (length l - 1)%nat) as Hlen
    by (rewrite length_app, length_take, length_drop; lia).
  rewrite take_app_length' by (rewrite length_take; lia).
  rewrite drop_app_length' by (rewrite length_take; lia).
  unfold layout_ok. cbn [pairs labels_shown add_btn_row].
  split_and!.
  - rewrite length_app, length_fmap, length_take, length_drop.
    replace (i `min` length l + (length l - S i))%nat with (length l - 1)%nat by lia.
    rewrite fmap_app, <- list_fmap_compose.
    rewrite <- (take_drop_middle l i _ Hi) in Hrows at 1.
    rewrite fmap_app, fmap_cons in Hrows.
    replace (length l) with (i + S (length l - S i))%nat in Hrows by lia.
    rewrite seq_app, fmap_app in Hrows. cbn [seq fmap list_fmap] in Hrows.
    apply app_inj_1 in Hrows as [H1 H2];
      [|rewrite !length_fmap, length_take, length_seq; lia].
    injection H2 as _ H2.
    replace (length l - 1)%nat with (i + (length l - S i))%nat by lia.
    rewrite seq_app, fmap_app. f_equal; [done|].
    rewrite (list_fmap_ext (snd ∘ (λ p : nat * Z, (p.1, (p.2 - 1)%Z)))
               ((λ z, (z - 1)%Z) ∘ snd) (drop (S i) l)) by done.
    rewrite (list_fmap_compose snd (λ z, (z - 1)%Z)), H2.
    rewrite <- list_fmap_compose. cbn [Nat.add].
    rewrite <- (fmap_S_seq (S i)), <- list_fmap_compose.
    apply list_fmap_ext. intros _ k _. cbn. lia.
  - rewrite fmap_app, <- list_fmap_compose.
    rewrite (list_fmap_ext (fst ∘ (λ p : nat * Z, (p.1, (p.2 - 1)%Z))) fst (drop (S i) l))
      by done.
    rewrite <- fmap_app. rewrite <- (take_drop_middle l i _ Hi) in Hnd.
    rewrite fmap_app, fmap_cons in Hnd. rewrite fmap_app.
    apply NoDup_app in Hnd as (Hn1 & Hn2 & Hn3). apply NoDup_cons in Hn3 as [_ Hn3].
    apply NoDup_app. split_and!; [done| |done].
    intros x Hx Hx'. apply (Hn2 x Hx). by right.
  - done.
  - left. rewrite length_app, length_fmap, length_take, length_drop. lia.
Qed.

(** ** The start directory of the file dialogs *)

Lemma up_to_last_sep_no_sep p : sep ∉ p → up_to_last_sep p = [].
Proof.
  induction p as [|c p IH]; [done|]. intros Hc. cbn.
  rewrite IH by (intros ?; apply Hc; by right).
  rewrite decide_False; [done|]. intros ->. apply Hc. by left.
Qed.

Lemma dirname_no_sep p : sep ∉ p → dirname p = [].
Proof. intros Hp. unfold dirname. by rewrite up_to_last_sep_no_sep. Qed.

Lemma browse_start_empty (isdir : list Ascii.ascii → bool) rounds :
  isdir [] = false → browse_start isdir rounds [] = None.
Proof.
  intros Hempty. induction rounds as [|rounds IH]; cbn [browse_start]; rewrite Hempty;
    [done|].
  by change (dirname []) with (@nil Ascii.ascii).
Qed.

(** X11.  The [-e key value] options (lines 223-229): when
    [literal_eval] raises nothing but [ValueError] on the value texts, all
    pairs are stored; afterwards the entry ["extra"] is gone, also when a
    pair had that key, and every other key given holds the value of the
    last pair with that key, as the literal it denotes or else as the text
    itself; keys not given are unchanged.  Another exception of
    [literal_eval] is not caught, and it is the only way to fail. *)
Theorem process_extra_last_pair_wins {V} (literal_eval : string → literal V)
    pairs (extra : gmap string (extra_value V)) :
  pairs ≠ [] →
  (Forall (λ kv, parses literal_eval kv.2) pairs →
   ∃ extra', process_extra literal_eval (Some pairs) extra = inl extra'
     ∧ extra' !! "extra" = None
     ∧ ∀ k, k ≠ "extra" →
         extra' !! k = match last (filter (λ kv, kv.1 = k) pairs) with
                       | Some kv => Some (stored literal_eval kv.2)
                       | None => extra !! k
                       end)
  ∧ ((∃ e, process_extra literal_eval (Some pairs) extra = inr e)
     ↔ ¬ Forall (λ kv, parses literal_eval kv.2) pairs).
Proof.
  intros Hne. unfold process_extra. destruct pairs as [|p pairs]; [done|].
  set (ps := p :: pairs). clearbody ps.
  pose proof (set_extras_returns literal_eval ps extra) as Hret.
  destruct (set_extras literal_eval extra ps) as [d|e] eqn:E.
  - assert (Forall (λ kv, parses literal_eval kv.2) ps) as Hall
      by (apply Hret; by eexists).
    split.
    + intros _. eexists. split; [done|]. split; [apply lookup_delete_eq|].
      intros k Hk. rewrite lookup_delete_ne by done.
      by apply set_extras_lookup.
    + split; [by intros [? ?]|done].
  - assert (¬ Forall (λ kv, parses literal_eval kv.2) ps) as Hnot.
    { intros Hall. apply Hret in Hall as [? ?]. done. }
    split; [done|]. split; [done|]. intros _. by eexists.
Qed.

Lemma process_extra_last_pair_wins_witness :
  ∃ extra', process_extra test_literal_eval
              (Some [("interp", "x"); ("extra", "1"); ("interp", "1")]) ∅ = inl extra'
    ∧ extra' !! "extra" = None
    ∧ extra' !! "interp" = Some (EvalValue 1%nat).
Proof.
  destruct (process_extra_last_pair_wins test_literal_eval
              [("interp", "x"); ("extra", "1"); ("interp", "1")] ∅) as [Hok _].
  - done.
  - destruct Hok as (extra' & H1 & H2 & H3).
    + repeat constructor; intros e; vm_compute; discriminate.
    + exists extra'. split; [exact H1|]. split; [exact H2|].
      rewrite (H3 "interp") by done. reflexivity.
Defined.

(** X12.  The key/value rows of the form in [GUI.confirm] (lines
    377-383): rows with an empty key are skipped; of the others, the last
    row with a key decides its value, stored as the literal the text
    denotes or else as the text; no other key changes. *)
Theorem confirm_extra_last_row_wins {V} (literal_eval : string → literal V)
    pairs (extra extra' : gmap string (extra_value V)) k :
  confirm_extra literal_eval pairs extra = inl extra' →
  extra' !! k = match last (filter (λ kv, kv.1 = k ∧ kv.1 ≠ "") pairs) with
                | Some kv => Some (stored literal_eval kv.2)
                | None => extra !! k
                end.
Proof.
  unfold confirm_extra. intros H.
  rewrite (set_extras_lookup literal_eval _ _ _ k H). by rewrite list_filter_filter.
Qed.

Lemma confirm_extra_last_row_wins_witness :
  ∃ extra', confirm_extra test_literal_eval [("", "1"); ("interp", "1")] ∅ = inl extra'
    ∧ extra' !! "" = None ∧ extra' !! "interp" = Some (EvalValue 1%nat).
Proof.
  destruct (confirm_extra test_literal_eval [("", "1"); ("interp", "1")] ∅)
    as [extra'|e] eqn:E; [|vm_compute in E; discriminate].
  exists extra'. split; [reflexivity|].
  rewrite (confirm_extra_last_row_wins test_literal_eval _ _ _ "" E).
  rewrite (confirm_extra_last_row_wins test_literal_eval _ _ _ "interp" E).
  split; reflexivity.
Defined.

(** X13.  The layout of the key/value rows: after any sequence of clicks
    on [+] and [-], starting from the empty form, the rows stand in the
    grid rows 1 to n in list order and are pairwise different widgets, the
    column labels show exactly when there is a row, the [+] button stands
    in row n + 1 once something was clicked, and [-] on any row of the
    list does not raise. *)
Theorem frame_layout_invariant s :
  rtc frame_step ExtraFrame_init s →
  layout_ok s
  ∧ ∀ self, self ∈ (pairs s).*1 → ∃ s', KWFrame_remove s self = Ok s'.
Proof.
  intros Hsteps. split.
  - pose proof layout_ok_init as Hinit. revert Hinit.
    induction Hsteps as [|s1 s2 s3 Hstep _ IH]; [done|].
    intros Hok. apply IH. destruct Hstep as [pair_frame Hnew|self s'' Hrem].
    + by apply layout_ok_add.
    + by eapply layout_ok_remove.
  - intros self Hin. unfold KWFrame_remove.
    destruct (index_of_elem _ _ Hin) as [i ->]. by eexists.
Qed.

Lemma frame_layout_invariant_witness :
  layout_ok (add_pair (add_pair ExtraFrame_init 7) 9)
  ∧ ∀ self, self ∈ (pairs (add_pair (add_pair ExtraFrame_init 7) 9)).*1 →
            ∃ s', KWFrame_remove (add_pair (add_pair ExtraFrame_init 7) 9) self = Ok s'.
Proof.
  apply frame_layout_invariant.
  eapply rtc_l; [apply (step_add _ 7)|eapply rtc_l; [apply (step_add _ 9)|apply rtc_refl]].
  - by_eval.
  - by_eval.
Defined.

(** X14.  [GUI._browse_dir] on an entry that holds a name without a
    separator which is not a directory (such as the default [Models] where
    no such directory exists): [os.path.dirname] maps it to the empty
    string and the empty string to itself, so the loop of lines 351-352
    never ends and the dialog is never opened. *)
Theorem browse_dir_never_returns (isdir : list Ascii.ascii → bool) init_dir rounds :
  isdir [] = false → isdir init_dir = false → sep ∉ init_dir →
  browse_start isdir rounds init_dir = None.
Proof.
  intros Hempty Hdir Hsep.
  destruct rounds as [|rounds]; cbn [browse_start]; rewrite Hdir; [done|].
  rewrite dirname_no_sep by done. by apply browse_start_empty.
Qed.

Lemma browse_dir_never_returns_witness :
  browse_start (λ _, false) 1000 (String.list_ascii_of_string "Models") = None.
Proof.
  apply browse_dir_never_returns.
  - reflexivity.
  - reflexivity.
  - by_eval.
Defined.

Lemma all_sep_Forall p : all_sep p ↔ Forall (λ c, c = sep) p.
Proof.
  unfold all_sep. split.
  - intros ->. apply Forall_replicate. done.
  - induction 1 as [|c p -> _ IH]; [done|]. cbn. by rewrite <- IH.
Qed.

Lemma up_to_last_sep_prefix p : ∃ t, p = up_to_last_sep p ++ t.
Proof.
  induction p as [|c p [t IH]]; [by exists []|]. cbn [up_to_last_sep].
  destruct (up_to_last_sep p) as [|x h] eqn:E.
  - destruct (decide (c = sep)); [exists p|exists (c :: p)]; done.
  - exists t. rewrite IH at 1. done.
Qed.

Lemma up_to_last_sep_last p : up_to_last_sep p ≠ [] → last (up_to_last_sep p) = Some sep.
Proof.
  induction p as [|c p IH]; [done|]. cbn.
  destruct (up_to_last_sep p) as [|x h] eqn:E.
  - destruct (decide (c = sep)) as [->|]; done.
  - intros _. rewrite last_cons. by rewrite IH.
Qed.

Lemma up_to_last_sep_absolute p : ∃ h, up_to_last_sep (sep :: p) = sep :: h.
Proof.
  cbn. destruct (up_to_last_sep p) as [|x h]; [|by eexists].
  rewrite decide_True by done. by eexists.
Qed.

Lemma lstrip_sep_suffix l :
  ∃ pre, l = pre ++ lstrip_sep l ∧ Forall (λ c, c = sep) pre
         ∧ (head l = Some sep → pre ≠ []).
Proof.
  induction l as [|c l (pre & IH & Hpre & _)]; [by exists []|]. cbn.
  destruct (decide (c = sep)) as [->|Hne].
  - exists (sep :: pre). split_and!; [by rewrite IH at 1|by constructor|done].
  - exists []. split_and!; [done|constructor|]. by intros [= ->].
Qed.

Lemma lstrip_sep_nil l : lstrip_sep l = [] → Forall (λ c, c = sep) l.
Proof.
  intros E. destruct (lstrip_sep_suffix l) as (pre & Hl & Hpre & _).
  rewrite E, app_nil_r in Hl. by subst.
Qed.

(** [rstrip] of a path that begins with a separator, ends with one, and
    does not consist of separators. *)
Lemma rstrip_sep_absolute h :
  last (sep :: h) = Some sep → ¬ all_sep (sep :: h) →
  ∃ h', rstrip_sep (sep :: h) = sep :: h'
        ∧ (length (rstrip_sep (sep :: h)) < length (sep :: h))%nat.
Proof.
  intros Hlast Hnot. unfold rstrip_sep.
  destruct (lstrip_sep_suffix (reverse (sep :: h))) as (pre & Hl & Hpre & Hne).
  assert (pre ≠ []) as Hpre_ne by (apply Hne; by rewrite head_reverse).
  set (s := lstrip_sep (reverse (sep :: h))) in *.
  assert (sep :: h = reverse s ++ reverse pre) as Hh.
  { rewrite <- reverse_app, <- Hl. by rewrite reverse_involutive. }
  assert (s ≠ []) as Hs.
  { intros E. apply Hnot, all_sep_Forall. rewrite Hh, E. cbn.
    by apply Forall_reverse. }
  assert (∃ h', reverse s = sep :: h') as [h' Hh'].
  { destruct (reverse s) as [|c rs] eqn:E.
    - apply (f_equal reverse) in E. rewrite reverse_involutive in E. done.
    - cbn in Hh. injection Hh as <- _. by eexists. }
  exists h'. split; [done|].
  rewrite Hh, length_app, !length_reverse. destruct pre; [done|]. cbn. lia.
Qed.

Lemma dirname_absolute p :
  ∃ d, dirname (sep :: p) = sep :: d
       ∧ ((length (dirname (sep :: p)) < length (sep :: p))%nat ∨ all_sep (sep :: p)).
Proof.
  unfold dirname. destruct (up_to_last_sep_absolute p) as [h Hh].
  destruct (up_to_last_sep_prefix (sep :: p)) as [t Ht].
  pose proof (up_to_last_sep_last (sep :: p)) as Hlast.
  rewrite Hh in *. specialize (Hlast ltac:(done)).
  rewrite bool_decide_eq_true_2 by done. cbn [andb].
  pose proof (f_equal length Ht) as Hlen_p. rewrite length_app in Hlen_p.
  destruct (bool_decide (sep :: h = replicate (length (sep :: h)) sep)) eqn:E; cbn [negb].
  - apply bool_decide_eq_true in E. exists h. split; [done|].
    destruct t as [|c t].
    + right. rewrite app_nil_r in Ht. by rewrite Ht.
    + left. cbn in Hlen_p |- *. lia.
  - apply bool_decide_eq_false in E.
    destruct (rstrip_sep_absolute h Hlast E) as (h' & Hr & Hlen).
    exists h'. split; [done|]. left. lia.
Qed.

Lemma browse_start_absolute (isdir : list Ascii.ascii → bool) :
  (∀ p, p ≠ [] → all_sep p → isdir p = true) →
  ∀ n p, (length p ≤ n)%nat →
    ∃ rounds d, browse_start isdir rounds (sep :: p) = Some d.
Proof.
  intros Hroot. induction n as [|n IH]; intros p Hlen.
  - destruct p; [|cbn in Hlen; lia]. exists 0%nat, [sep]. cbn.
    rewrite Hroot; [done|done|]. done.
  - destruct (isdir (sep :: p)) eqn:Hdir.
    + exists 0%nat, (sep :: p). cbn. by rewrite Hdir.
    + destruct (dirname_absolute p) as (d & Hd & [Hlt|Hall]).
      * destruct (IH d) as (rounds & d' & Hr).
        { rewrite Hd in Hlt. cbn in Hlt. lia. }
        exists (S rounds), d'. cbn [browse_start]. by rewrite Hdir, Hd.
      * rewrite Hroot in Hdir; done.
Qed.

(** ** The aggregate does not depend on the sort *)

Lemma StronglySorted_fmap_inv {A B} (f : A → B) (R : relation B) (l : list A) :
  StronglySorted R (f <$> l) → StronglySorted (λ x y, R (f x) (f y)) l.
Proof.
  induction l as [|x l IH]; [constructor|]. rewrite fmap_cons.
  intros Hs. apply StronglySorted_inv in Hs as [Hs Hall].
  constructor; [by apply IH|]. rewrite Forall_fmap in Hall. exact Hall.
Qed.

Lemma argsort_unique (A1 A2 : Argsort) (x : list float) :
  Forall finite x → NoDup x → (2 ≤ length x)%nat →
  @argsort A1 x = @argsort A2 x.
Proof.
  intros Hfin Hnd Hlen.
  pose proof (@xs_strictly_sorted A1 x x Hfin Hnd eq_refl Hlen) as H1.
  pose proof (@xs_strictly_sorted A2 x x Hfin Hnd eq_refl Hlen) as H2.
  apply StronglySorted_fmap_inv in H1, H2.
  eapply StronglySorted_unique_strong; [|exact H1|exact H2|].
  - intros i j _ _ Hij Hji. cbn in Hij, Hji. exfalso.
    eapply fltb_fleb_contra; [exact Hij|]. by apply fltb_fleb_weak.
  - by rewrite (@argsort_perm A1 x), (@argsort_perm A2 x).
Qed.

Lemma interp1d_argsort_irrelevant (A1 A2 : Argsort) x y x_new :
  Forall finite x → NoDup x →
  @interp1d A1 x y x_new = @interp1d A2 x y x_new.
Proof.
  intros Hfin Hnd. unfold interp1d.
  destruct (bool_decide (length y = length x)); cbn [negb]; [|done].
  destruct (decide (2 ≤ length x)%nat) as [Hlen|Hlen].
  - by rewrite (argsort_unique A1 A2 x).
  - pose proof (Permutation_length (@argsort_perm A1 x)) as E1.
    pose proof (Permutation_length (@argsort_perm A2 x)) as E2.
    rewrite length_seq in E1, E2. rewrite !np_take_length, E1, E2.
    rewrite bool_decide_eq_true_2 by lia. done.
Qed.

Lemma mean_and_std_argsort_irrelevant (A1 A2 : Argsort) `{!Segmentation} plots interp :
  Forall (λ c, Forall finite (recall c) ∧ NoDup (recall c)) plots →
  @mean_and_std A1 _ plots interp = @mean_and_std A2 _ plots interp.
Proof.
  intros Hplots. unfold mean_and_std, interp_precision.
  set (grid := match interp with inl num => np_linspace01 num | inr grid => grid end).
  rewrite (for_each_ext_in
             (λ plot, @interp1d A1 (recall plot) (precision plot) grid)
             (λ plot, @interp1d A2 (recall plot) (precision plot) grid)); [done|].
  intros c Hc. rewrite Forall_forall in Hplots. destruct (Hplots c Hc) as [Hfin Hnd].
  by apply interp1d_argsort_irrelevant.
Qed.

(** Another possible behaviour of [np.argsort]: tied entries come in
    decreasing index order. *)
Definition reversed_ties_argsort (a : list float) : list nat :=
  stable_sort_by (λ i j, np_lt (a !!! i) (a !!! j)) (reverse (seq 0 (length a))).

Lemma reversed_ties_argsort_perm a : reversed_ties_argsort a ≡ₚ seq 0 (length a).
Proof.
  unfold reversed_ties_argsort. rewrite stable_sort_by_perm. apply reverse_Permutation.
Qed.

Lemma reversed_ties_argsort_sorted a :
  StronglySorted (λ x y, np_lt y x = false) (np_take a (reversed_ties_argsort a)).
Proof.
  unfold np_take, reversed_ties_argsort.
  eapply StronglySorted_fmap; [|apply stable_sort_by_sorted].
  - intros i j H. exact H.
  - intros i j. apply np_lt_asym.
  - intros i j k. apply np_lt_negtrans.
Qed.

Definition reversed_ties_Argsort : Argsort :=
  {| argsort := reversed_ties_argsort;
     argsort_perm := reversed_ties_argsort_perm;
     argsort_sorted := reversed_ties_argsort_sorted |}.

Example reversed_ties_argsort_differs :
  stable_argsort [f0; f0] = [0; 1]%nat ∧ reversed_ties_argsort [f0; f0] = [1; 0]%nat.
Proof. split; by_eval. Qed.

(** X15.  The aggregate does not depend on how [np.argsort], which
    [interp1d] calls on the recall sequence of every curve, orders its
    result: for curves whose recall values are numbers and pairwise
    different, as those of [_evaluate_and_plot] are, any two sorts give
    the same three curves, or the same exception. *)
Theorem aggregate_deterministic (A1 A2 : Argsort) `{!Segmentation} plots interp :
  Forall (λ c, Forall finite (recall c) ∧ NoDup (recall c)) plots →
  @mean_and_std A1 _ plots interp = @mean_and_std A2 _ plots interp.
Proof. apply mean_and_std_argsort_irrelevant. Qed.

Lemma aggregate_deterministic_witness :
  @mean_and_std stable_Argsort spec_metrics [scen3_c1; scen3_c2] (inr scen3_grid)
  = @mean_and_std reversed_ties_Argsort spec_metrics [scen3_c1; scen3_c2] (inr scen3_grid).
Proof.
  apply (aggregate_deterministic stable_Argsort reversed_ties_Argsort).
  repeat constructor; by_eval.
Defined.

(** ** The band of one standard deviation *)

Lemma nonneg_finite x : nonneg x → finite x.
Proof. by intros (q & -> & _). Qed.

Lemma fadd_finite x y : finite x → finite y → finite (fadd x y).
Proof. by intros [a ->]%finite_inv [b ->]%finite_inv. Qed.

Lemma fsub_finite x y : finite x → finite y → finite (fsub x y).
Proof. by intros [a ->]%finite_inv [b ->]%finite_inv. Qed.

Lemma fmul_finite x y : finite x → finite y → finite (fmul x y).
Proof. by intros [a ->]%finite_inv [b ->]%finite_inv. Qed.

Lemma fdiv_finite x n : finite x → finite (fdiv x (of_nat (S n))).
Proof.
  intros [a ->]%finite_inv. unfold of_nat, fdiv.
  by rewrite decide_False by apply of_nat_S_neq_0.
Qed.

Lemma fadd_nonneg x y : nonneg x → nonneg y → nonneg (fadd x y).
Proof.
  intros (a & -> & Ha) (b & -> & Hb). eexists. split; [done|].
  by apply Qcplus_nonneg_nonneg.
Qed.

Lemma fmul_square_nonneg x : finite x → nonneg (fmul x x).
Proof.
  intros [a ->]%finite_inv. eexists. split; [done|].
  destruct (Qclt_le_dec a 0) as [Hneg|Hpos].
  - replace (a * a) with ((- a) * (- a)) by ring.
    assert (0 ≤ - a).
    { apply Qclt_le_weak in Hneg. apply Qcopp_le_compat in Hneg.
      by replace (- 0) with 0 in Hneg by ring. }
    by apply Qcmult_nonneg_nonneg.
  - by apply Qcmult_nonneg_nonneg.
Qed.

Lemma fdiv_nonneg x n : nonneg x → nonneg (fdiv x (of_nat (S n))).
Proof.
  intros (a & -> & Ha). unfold of_nat, fdiv.
  rewrite decide_False by apply of_nat_S_neq_0. eexists. split; [done|].
  apply Qcdiv_nonneg; [done|]. fold (nq (S n)). apply nq_nonneg.
Qed.

Lemma Qsqrt_nonneg q : (0 <= Qsqrt q)%Q.
Proof.
  unfold Qsqrt. destruct (_ && _)%bool; unfold Qle; cbn; rewrite Z.mul_1_r;
    apply Z.sqrt_nonneg.
Qed.

Lemma fsqrt_nonneg x : nonneg x → nonneg (fsqrt x).
Proof.
  intros (a & -> & Ha). unfold fsqrt.
  rewrite decide_False by (by apply Qcle_not_lt).
  eexists. split; [done|].
  assert (0 <= Qred (Qsqrt a))%Q as Hq by (rewrite Qred_correct; apply Qsqrt_nonneg).
  exact Hq.
Qed.

Lemma zip_with_Forall (P Q R : float → Prop) (f : float → float → float) u v :
  (∀ a b, P a → Q b → R (f a b)) →
  Forall P u → Forall Q v → Forall R (zip_with f u v).
Proof.
  intros Hf Hu. revert v. induction Hu as [|a u Ha _ IH]; intros v Hv; [constructor|].
  destruct Hv as [|b v Hb Hv]; [constructor|]. cbn. constructor; [by apply Hf|by apply IH].
Qed.

Lemma foldl_vadd_Forall (P : float → Prop) acc rows :
  (∀ a b, P a → P b → P (fadd a b)) →
  Forall P acc → Forall (Forall P) rows → Forall P (foldl (zip_with fadd) acc rows).
Proof.
  intros HP. revert acc. induction rows as [|r rows IH]; intros acc Hacc Hrows; [done|].
  apply Forall_cons in Hrows as [Hr Hrows]. cbn. apply IH; [|done].
  by apply (zip_with_Forall P P P).
Qed.

Lemma sum0_Forall (P : float → Prop) rows :
  (∀ a b, P a → P b → P (fadd a b)) →
  Forall (Forall P) rows → Forall P (sum0 rows).
Proof.
  intros HP Hrows. destruct rows as [|r rows]; [constructor|].
  apply Forall_cons in Hrows as [Hr Hrows]. by apply foldl_vadd_Forall.
Qed.

Lemma mean0_finite rows : Forall (Forall finite) rows → Forall finite (mean0 rows).
Proof.
  intros Hrows. unfold mean0. destruct rows as [|r rows]; [constructor|].
  apply Forall_fmap. eapply Forall_impl.
  - apply (sum0_Forall finite); [apply fadd_finite|done].
  - intros s Hs. cbn [length]. by apply fdiv_finite.
Qed.

Lemma std0_nonneg rows : Forall (Forall finite) rows → Forall nonneg (std0 rows).
Proof.
  intros Hrows. unfold std0. destruct rows as [|r rows]; [constructor|].
  set (m := r :: rows) in *. apply Forall_fmap. eapply Forall_impl.
  - apply (sum0_Forall nonneg); [apply fadd_nonneg|].
    rewrite <- list_fmap_compose. apply Forall_fmap.
    eapply Forall_impl; [exact Hrows|]. intros row Hrow. unfold compose.
    pose proof (mean0_finite m Hrows) as Hmean.
    assert (Forall finite (zip_with fsub row (mean0 m))) as Hd
      by (by apply (zip_with_Forall finite finite finite); [apply fsub_finite|..]).
    clear -Hd. induction Hd as [|d ds Hd _ IH]; [constructor|]. cbn.
    constructor; [by apply fmul_square_nonneg|done].
  - intros s Hs. cbn [length]. cbn beta. by apply fsqrt_nonneg, fdiv_nonneg.
Qed.

Lemma linear_search_le key arr : (linear_search key arr ≤ length arr)%nat.
Proof. induction arr as [|a arr IH]; cbn; [lia|]. destruct (fgeb key a); lia. Qed.

Lemma np_interp1_finite (xp fp : list float) x :
  StronglySorted (λ a b, fltb a b = true) xp → Forall finite xp → Forall finite fp →
  finite x → finite (np_interp1 xp fp x).
Proof.
  intros Hs Hxp Hfp Hx. unfold np_interp1.
  destruct (np_isnan x); [done|].
  destruct (fgtb x _); [by apply lookup_total_finite|].
  destruct (fltb x _); [by apply lookup_total_finite|].
  set (j := (linear_search x xp - 1)%nat).
  destruct (decide (j = (length xp - 1)%nat)) as [E|Hj]; [by apply lookup_total_finite|].
  destruct (feqb _ x); [by apply lookup_total_finite|].
  pose proof (linear_search_le x xp) as Hle.
  assert (S j < length xp)%nat as HSj by (unfold j in *; lia).
  pose proof (StronglySorted_lookup_total _ xp j (S j) Hs ltac:(lia) HSj) as Hlt.
  destruct (finite_inv _ (lookup_total_finite xp j Hxp)) as [a Ea].
  destruct (finite_inv _ (lookup_total_finite xp (S j) Hxp)) as [b Eb].
  destruct (finite_inv _ (lookup_total_finite fp j Hfp)) as [c Ec].
  destruct (finite_inv _ (lookup_total_finite fp (S j) Hfp)) as [d Ed].
  destruct (finite_inv _ Hx) as [q ->].
  rewrite Ea, Eb, Ec, Ed in *. apply fltb_Fin in Hlt.
  cbn [fsub fneg fadd fdiv].
  rewrite decide_False.
  2:{ intros E. apply Qclt_not_eq in Hlt. apply Hlt.
      apply (f_equal (λ z, z + a)) in E. ring_simplify in E. done. }
  done.
Qed.

Section band.
Context `{!Argsort, !Segmentation}.

Lemma interp_precision_finite plots grid m :
  Forall (λ c, valid_curve c ∧ NoDup (recall c) ∧ Forall finite (precision c)) plots →
  Forall finite grid →
  interp_precision plots grid = Ok m → Forall (Forall finite) m.
Proof.
  intros Hplots Hgrid. unfold interp_precision.
  destruct (for_each _ plots) as [rows|] eqn:E; [|done]. cbn [rbind].
  intros [-> _]%np_vstack_Ok. apply for_each_inv in E.
  induction E as [|c row plots rows Hrow _ IH]; [constructor|].
  apply Forall_cons in Hplots as [(Hvalid & Hnd & Hpfin) Hplots].
  constructor; [|by apply IH].
  destruct Hvalid as (Hlen & Hge & Hrfin).
  rewrite (interp1d_eq _ _ Hlen Hge) in Hrow.
  destruct (existsb _ grid); [done|]. destruct (existsb _ grid); [done|].
  injection Hrow as <-. apply Forall_fmap. eapply Forall_impl; [exact Hgrid|].
  intros g Hg. apply np_interp1_finite; [|by apply np_take_finite..|done].
  by apply (xs_strictly_sorted _ (precision c)).
Qed.

Lemma mean_and_std_band plots grid mean lower upper :
  Forall (λ c, valid_curve c ∧ NoDup (recall c) ∧ Forall finite (precision c)) plots →
  Forall finite grid → (2 ≤ length grid)%nat →
  mean_and_std plots (inr grid) = Ok (mean, lower, upper) →
  recall mean = grid ∧ recall lower = grid ∧ recall upper = grid
  ∧ Forall2 (λ l m, fleb l m = true) (precision lower) (precision mean)
  ∧ Forall2 (λ m u, fleb m u = true) (precision mean) (precision upper).
Proof.
  intros Hplots Hgrid Hlen. unfold mean_and_std.
  destruct (interp_precision plots grid) as [m|] eqn:Hm; [|done]. cbn [rbind].
  pose proof (interp_precision_finite _ _ _ Hplots Hgrid Hm) as Hfin.
  pose proof (interp_precision_lengths _ _ _ Hm) as [Hne Hrows].
  pose proof (mean0_length m _ Hne Hrows) as Hlmean.
  pose proof (std0_length m _ Hne Hrows) as Hlstd.
  pose proof (mean0_finite m Hfin) as Hmean.
  pose proof (std0_nonneg m Hfin) as Hstd.
  destruct (bin_points_vstack plots) as [bps|]; [|done]. cbn [rbind].
  destruct (np_argmax _) as [idx|]; [|done]. cbn [rbind].
  destruct (getitem grid idx) as [r_idx|]; [|done]. cbn [rbind].
  destruct (getitem (mean0 m) idx) as [m_idx|]; [|done]. cbn [rbind].
  destruct (bin_points_mean bps) as [bm|]; [|done]. cbn [rbind].
  assert (∀ p t f fp bp c, length p = length grid →
            Plot_init grid p t f fp bp = Ok c → recall c = grid ∧ precision c = p)
    as Hinit.
  { intros p t f fp bp c Hp Hc.
    destruct (Plot_init_Ok grid p t f fp bp Hp) as (r' & p' & E & _ & _ & Hcase).
    { intros ->. cbn in Hlen. lia. }
    rewrite E in Hc. injection Hc as <-. cbn.
    rewrite decide_False in Hcase by lia. by destruct Hcase as [-> ->]. }
  destruct (Plot_init grid (mean0 m) _ _ _ _) as [c1|] eqn:E1; [|done]. cbn [rbind].
  destruct (Plot_init grid (zip_with fsub _ _) _ _ _ _) as [c2|] eqn:E2; [|done].
  cbn [rbind].
  destruct (Plot_init grid (zip_with fadd _ _) _ _ _ _) as [c3|] eqn:E3; [|done].
  cbn [rbind]. intros [= <- <- <-].
  apply Hinit in E1 as [-> ->]; [|done].
  apply Hinit in E2 as [-> ->]; [|rewrite length_zip_with; lia].
  apply Hinit in E3 as [-> ->]; [|rewrite length_zip_with; lia].
  split_and!; [done..| |].
  - apply Forall2_same_length_lookup_2; [rewrite length_zip_with; lia|].
    intros i l mu Hl Hmu. apply lookup_zip_with_Some in Hl as (a & s & -> & Ha & Hs).
    rewrite Ha in Hmu. injection Hmu as <-.
    destruct (finite_inv _ (Forall_lookup_1 _ _ _ _ Hmean Ha)) as [qa ->].
    destruct (Forall_lookup_1 _ _ _ _ Hstd Hs) as (qs & -> & Hqs).
    cbn. apply fleb_Fin. rewrite <- (Qcplus_0_r qa) at 2.
    apply Qcplus_le_compat; [done|].
    apply Qcopp_le_compat in Hqs. by replace (- 0) with 0 in Hqs by ring.
  - apply Forall2_same_length_lookup_2; [rewrite length_zip_with; lia|].
    intros i mu u Hmu Hu. apply lookup_zip_with_Some in Hu as (a & s & -> & Ha & Hs).
    rewrite Ha in Hmu. injection Hmu as <-.
    destruct (finite_inv _ (Forall_lookup_1 _ _ _ _ Hmean Ha)) as [qa ->].
    destruct (Forall_lookup_1 _ _ _ _ Hstd Hs) as (qs & -> & Hqs).
    cbn. apply fleb_Fin. rewrite <- (Qcplus_0_r qa) at 1.
    by apply Qcplus_le_compat.
Qed.
End band.

Lemma evaluate_curve_spans_recall_range_witness :
  ∃ pe be plot,
    @evaluate stable_Argsort spec_metrics scen2_pred scen2_bin scen2_gt
    = Ok (pe, be, plot)
    ∧ valid_curve plot ∧ f0 ∈ recall plot ∧ f1_ ∈ recall plot.
Proof.
  destruct (@evaluate stable_Argsort spec_metrics scen2_pred scen2_bin scen2_gt)
    as [[[pe be] plot]|e] eqn:E; [|vm_compute in E; discriminate].
  exists pe, be, plot. split; [reflexivity|].
  destruct (@evaluate_curve_spans_recall_range stable_Argsort spec_metrics
              scen2_pred scen2_bin scen2_gt pe be plot E) as (H1 & _ & H3 & H4 & _).
  split; [exact H1|]. split; [exact H3|exact H4].
Defined.

Lemma aggregate_of_evaluated_curves_witness :
  ∃ pe be plot,
    @evaluate stable_Argsort spec_metrics scen1_pred scen1_bin scen1_gt
    = Ok (pe, be, plot)
    ∧ ((∃ r, @mean_and_std stable_Argsort spec_metrics [plot] (inl 3) = Ok r)
       ↔ [plot] ≠ [] ∧ 3%nat ≠ 0%nat).
Proof.
  destruct (@evaluate stable_Argsort spec_metrics scen1_pred scen1_bin scen1_gt)
    as [[[pe be] plot]|e] eqn:E; [|vm_compute in E; discriminate].
  exists pe, be, plot. split; [reflexivity|].
  apply (@aggregate_of_evaluated_curves stable_Argsort spec_metrics [plot] 3).
  constructor; [|constructor].
  exists scen1_pred, scen1_bin, scen1_gt, pe, be. exact E.
Defined.

(** X17.  The band of one standard deviation: for curves with recall and
    precision of one length at least 2, holding numbers, the recall
    values pairwise different, and a grid of at least two numbers, the
    three curves [mean_and_std] returns all have the grid as recall
    sequence, and at every grid point the precision of the lower curve is
    at most that of the mean curve, which is at most that of the upper
    curve. *)
Theorem aggregate_band `{!Argsort, !Segmentation} plots grid mean lower upper :
  Forall (λ c, valid_curve c ∧ NoDup (recall c) ∧ Forall finite (precision c)) plots →
  Forall finite grid → (2 ≤ length grid)%nat →
  mean_and_std plots (inr grid) = Ok (mean, lower, upper) →
  recall mean = grid ∧ recall lower = grid ∧ recall upper = grid
  ∧ Forall2 (λ l m, fleb l m = true) (precision lower) (precision mean)
  ∧ Forall2 (λ m u, fleb m u = true) (precision mean) (precision upper).
Proof. apply mean_and_std_band. Qed.

Lemma aggregate_band_witness :
  ∃ mean lower upper,
    @mean_and_std stable_Argsort spec_metrics [scen3_c1; scen3_c2] (inr scen3_grid)
    = Ok (mean, lower, upper)
    ∧ recall lower = scen3_grid
    ∧ Forall2 (λ l m, fleb l m = true) (precision lower) (precision mean).
Proof.
  destruct (@mean_and_std stable_Argsort spec_metrics [scen3_c1; scen3_c2] (inr scen3_grid))
    as [[[mean lower] upper]|e] eqn:E; [|vm_compute in E; discriminate].
  exists mean, lower, upper. split; [reflexivity|].
  destruct (@aggregate_band stable_Argsort spec_metrics [scen3_c1; scen3_c2] scen3_grid
              mean lower upper) as (_ & H2 & _ & H4 & _).
  - repeat constructor; by_eval.
  - repeat constructor.
  - simpl. lia.
  - exact E.
  - split; [exact H2|exact H4].
Defined.

(** X18.  What the loader hands to [_evaluate_and_plot]: the values of
    a prediction read by [_read_image] are numbers between 0 and 1 (8-bit
    pixels divided by 255); and with [self.resize] set to a size, the
    prediction, the binarised prediction and the ground truth of
    [_load_gt] all have width times height elements. *)
Theorem loader_array_shapes `{!Imaging} resize _predictions _binarised gt_test
    f pred bin_ :
  _read_image resize _predictions _binarised gt_test f = Ok (Some (pred, bin_)) →
  Forall unit_interval pred
  ∧ ∀ w h, resize = Some (w, h) →
           length pred = (w * h)%nat ∧ length bin_ = (w * h)%nat
           ∧ length (_load_gt resize f) = (w * h)%nat.
Proof.
  intros Hread. destruct (_read_image_Some _ _ _ _ _ _ _ Hread) as [Hunit Hlen].
  split; [done|]. intros w h Hr. destruct (Hlen w h Hr) as [Hp Hb].
  split_and!; [done..|]. by apply _load_gt_length.
Qed.

Lemma loader_array_shapes_witness :
  ∃ pred bin_,
    @_read_image test_imaging (Some (2, 1)%nat) 0%nat 0%nat 0%nat 0%nat
    = Ok (Some (pred, bin_))
    ∧ Forall unit_interval pred ∧ length pred = 2%nat ∧ length bin_ = 2%nat.
Proof.
  destruct (@_read_image test_imaging (Some (2, 1)%nat) 0%nat 0%nat 0%nat 0%nat)
    as [[[pred bin_]|]|e] eqn:E;
    [|vm_compute in E; discriminate|vm_compute in E; discriminate].
  exists pred, bin_. split; [reflexivity|].
  destruct (@loader_array_shapes test_imaging (Some (2, 1)%nat) 0%nat 0%nat 0%nat 0%nat
              pred bin_ E) as [H1 H2].
  destruct (H2 2%nat 1%nat eq_refl) as (H3 & H4 & _).
  split; [exact H1|]. split; [exact H3|exact H4].
Defined.

(** X19.  Which files [_read_image] reads (lines 128-146): for the
    prediction and for the binarised prediction it takes the first path
    that is a file among the path itself and the paths got by setting the
    suffix to [.jpg], then [.jpeg], then [.png], each on the path of the
    round before; it returns [None] exactly when one of the two has no
    such file. *)
Theorem read_image_file_choice `{!Imaging} resize _predictions _binarised gt_test
    f pred_f bin_f :
  rebase _predictions f gt_test = Ok pred_f →
  rebase _binarised f gt_test = Ok bin_f →
  (_read_image resize _predictions _binarised gt_test f = Ok None
   ↔ Forall (λ p, is_file p = false) (candidates pred_f)
     ∨ Forall (λ p, is_file p = false) (candidates bin_f))
  ∧ ∀ pred bin_,
      _read_image resize _predictions _binarised gt_test f = Ok (Some (pred, bin_)) →
      ∃ pred_f' bin_f',
        head (filter (λ p, is_file p = true) (candidates pred_f)) = Some pred_f'
        ∧ head (filter (λ p, is_file p = true) (candidates bin_f)) = Some bin_f'
        ∧ pred = (λ v, fdiv (of_N v) (of_nat 255)) <$> pixels (_open_img resize pred_f' "L")
        ∧ bin_ = (λ v, bool_decide (v ≠ 0%N)) <$> pixels (_open_img resize bin_f' "1").
Proof.
  intros Hp Hb. unfold _read_image. rewrite Hp, Hb. cbn [rbind].
  rewrite !find_file_spec.
  assert (∀ l : list path,
            head (filter (λ p, is_file p = true) l) = None
            ↔ Forall (λ p, is_file p = false) l) as Hnone.
  { intros l. induction l as [|p l IH]; [done|].
    destruct (is_file p) eqn:E.
    - rewrite filter_cons_True by done. split; [done|].
      intros [? _]%Forall_cons. congruence.
    - rewrite filter_cons_False by congruence. rewrite IH, Forall_cons.
      split; [by intros ?|by intros [_ ?]]. }
  destruct (head (filter _ (candidates pred_f))) as [pf|] eqn:E1.
  - destruct (head (filter _ (candidates bin_f))) as [bf|] eqn:E2.
    + split.
      * split; [done|]. intros [Hno|Hno]; apply Hnone in Hno; congruence.
      * intros pred bin_ [= <- <-]. by exists pf, bf.
    + split; [|done]. split; [|done]. intros _. right. by apply Hnone.
  - split; [|done]. split; [|done]. intros _. left. by apply Hnone.
Qed.

Lemma read_image_file_choice_witness :
  (@_read_image test_imaging (Some (2, 1)%nat) 0%nat 0%nat 0%nat 2%nat = Ok None
   ↔ Forall (λ p, @is_file test_imaging p = false) (@candidates test_imaging 2%nat)
     ∨ Forall (λ p, @is_file test_imaging p = false) (@candidates test_imaging 2%nat)).
Proof.
  destruct (@read_image_file_choice test_imaging (Some (2, 1)%nat) 0%nat 0%nat 0%nat
              2%nat 2%nat 2%nat) as [Hiff _].
  - reflexivity.
  - reflexivity.
  - exact Hiff.
Defined.

Lemma browse_start_isdir (isdir : list Ascii.ascii → bool) rounds p d :
  browse_start isdir rounds p = Some d → isdir d = true.
Proof.
  revert p. induction rounds as [|rounds IH]; intros p; cbn [browse_start];
    destruct (isdir p) eqn:E; try done.
  - by intros [= <-].
  - by intros [= <-].
  - apply IH.
Qed.

(** X20.  [GUI._browse_dir] on an absolute path: when the paths made of
    separators only are directories, as [/] is, the loop of lines 351-352
    ends, whatever the entry holds after its leading separator, and the
    dialog starts in a directory. *)
Theorem browse_dir_returns_on_absolute_path (isdir : list Ascii.ascii → bool) p :
  (∀ q, q ≠ [] → all_sep q → isdir q = true) →
  ∃ rounds d, browse_start isdir rounds (sep :: p) = Some d ∧ isdir d = true.
Proof.
  intros Hroot.
  destruct (browse_start_absolute isdir Hroot (length p) p) as (rounds & d & Hd); [done|].
  exists rounds, d. split; [done|]. by eapply browse_start_isdir.
Qed.

Lemma browse_dir_returns_on_absolute_path_witness :
  ∃ rounds d,
    browse_start (λ q, bool_decide (all_sep q)) rounds
      (sep :: String.list_ascii_of_string "a/b") = Some d
    ∧ bool_decide (all_sep d) = true.
Proof.
  apply (browse_dir_returns_on_absolute_path (λ q, bool_decide (all_sep q))).
  intros q _ Hq. by apply bool_decide_eq_true.
Defined.

(** ** The loop over the models and the configurations *)

Section configurations_facts.
Context `{!Layout} {pickle : Type}.
Implicit Types (files : gmap Path pickle) (c : Path * (name * name)).
Implicit Types (is_dir : Path → bool) (compute : Path → name → name → result pickle).

Lemma for_files_app {C} (body : gmap Path pickle → C → gmap Path pickle * option exn)
    files (l1 l2 : list C) :
  for_files body files (l1 ++ l2)
  = match for_files body files l1 with
    | (files', None) => for_files body files' l2
    | raised => raised
    end.
Proof.
  revert files. induction l1 as [|x l1 IH]; intros files; cbn [for_files app]; [done|].
  destruct (body files x) as [files' [e|]]; [done|]. apply IH.
Qed.

Lemma for_files_bind {C D} (body : gmap Path pickle → D → gmap Path pickle * option exn)
    (f : C → list D) files (l : list C) :
  for_files (λ files x, for_files body files (f x)) files l
  = for_files body files (l ≫= f).
Proof.
  revert files. induction l as [|x l IH]; intros files; [done|].
  cbn [for_files]. change ((x :: l) ≫= f) with (f x ++ (l ≫= f)).
  rewrite for_files_app.
  destruct (for_files body files (f x)) as [files' [e|]]; [done|]. apply IH.
Qed.

Lemma for_files_fmap {C D} (body : gmap Path pickle → D → gmap Path pickle * option exn)
    (f : C → D) files (l : list C) :
  for_files body files (f <$> l) = for_files (λ files x, body files (f x)) files l.
Proof.
  revert files. induction l as [|x l IH]; intros files; [done|].
  cbn [for_files fmap list_fmap]. destruct (body files (f x)) as [files' [e|]]; [done|].
  apply IH.
Qed.

Lemma for_files_ext {C} (body1 body2 : gmap Path pickle → C → gmap Path pickle * option exn)
    files (l : list C) :
  (∀ files x, body1 files x = body2 files x) →
  for_files body1 files l = for_files body2 files l.
Proof.
  intros Hext. revert files. induction l as [|x l IH]; intros files; [done|].
  cbn [for_files]. rewrite Hext. destruct (body2 files x) as [files' [e|]]; [done|]. apply IH.
Qed.

Lemma for_files_ret {C D} (body : gmap Path pickle → D → gmap Path pickle * option exn)
    (f : C → D) files (l : list C) :
  for_files body files (l ≫= λ x, [f x]) = for_files (λ files x, body files (f x)) files l.
Proof.
  revert files. induction l as [|x l IH]; intros files; [done|].
  change ((x :: l) ≫= λ x, [f x]) with (f x :: (l ≫= λ x, [f x])).
  cbn [for_files]. destruct (body files (f x)) as [files' [e|]]; [done|]. apply IH.
Qed.

(** The nested loops visit the configurations one after the other. *)
Lemma evaluate_models_from overwrite is_dir compute files models :
  evaluate_models overwrite is_dir compute files models
  = evaluate_from overwrite is_dir compute files (configurations models).
Proof.
  unfold evaluate_models, evaluate_from, configurations.
  rewrite <- for_files_bind. apply for_files_ext. intros files' model.
  by rewrite for_files_ret.
Qed.

(** Without [overwrite], a configuration whose pickle file exists is
    skipped, and a pickle file is written only where there was none. *)
Lemma one_configuration_skip is_dir compute files c :
  is_Some (files !! pickle_of c) →
  one_configuration false is_dir compute files c.1 c.2 = (files, None).
Proof.
  intros Hc. unfold one_configuration, pickle_of in *. cbn [negb andb].
  by rewrite bool_decide_eq_true_2.
Qed.

Lemma one_configuration_attempt is_dir compute files c :
  files !! pickle_of c = None →
  one_configuration false is_dir compute files c.1 c.2
  = match evaluate_configuration is_dir compute c.1 c.2 with
    | Ok r => (<[pickle_of c := r]> files, None)
    | Raise e => (files, Some e)
    end.
Proof.
  intros Hc. unfold one_configuration, pickle_of in *. cbn [negb andb].
  rewrite bool_decide_eq_false_2; [done|]. rewrite Hc. by intros [? ?].
Qed.

Lemma one_configuration_subseteq is_dir compute files c files' o :
  one_configuration false is_dir compute files c.1 c.2 = (files', o) → files ⊆ files'.
Proof.
  destruct (files !! pickle_of c) as [r|] eqn:E.
  - rewrite one_configuration_skip by (by rewrite E). by intros [= <- _].
  - rewrite one_configuration_attempt by done.
    destruct (evaluate_configuration _ _ _ _) as [r|e]; intros [= <- _]; [|done].
    by apply insert_subseteq.
Qed.

Lemma evaluate_from_subseteq is_dir compute files cs files' o :
  evaluate_from false is_dir compute files cs = (files', o) → files ⊆ files'.
Proof.
  unfold evaluate_from. revert files.
  induction cs as [|c cs IH]; intros files; cbn [for_files]; [by intros [= <- _]|].
  destruct (one_configuration _ _ _ _ _ _) as [files1 [e|]] eqn:E.
  - intros [= <- _]. by eapply one_configuration_subseteq.
  - intros Hrest. etrans; [by eapply one_configuration_subseteq|by apply IH].
Qed.

Lemma evaluate_from_skip is_dir compute files cs :
  Forall (λ c, is_Some (files !! pickle_of c)) cs →
  evaluate_from false is_dir compute files cs = (files, None).
Proof.
  unfold evaluate_from. induction 1 as [|c cs Hc _ IH]; cbn [for_files]; [done|].
  by rewrite one_configuration_skip.
Qed.

Lemma evaluate_from_returned is_dir compute files cs files' :
  evaluate_from false is_dir compute files cs = (files', None) →
  Forall (λ c, is_Some (files' !! pickle_of c)) cs.
Proof.
  unfold evaluate_from. revert files.
  induction cs as [|c cs IH]; intros files; cbn [for_files]; [by constructor|].
  destruct (one_configuration _ _ _ _ _ _) as [files1 [e|]] eqn:E; [done|].
  intros Hrest. constructor; [|by eapply IH].
  assert (is_Some (files1 !! pickle_of c)) as Hc.
  { destruct (files !! pickle_of c) as [r|] eqn:Ec.
    - rewrite one_configuration_skip in E by (by rewrite Ec).
      injection E as <-. by rewrite Ec.
    - rewrite one_configuration_attempt in E by done.
      destruct (evaluate_configuration _ _ _ _) as [r|e]; [|done].
      injection E as <-. by rewrite lookup_insert_eq. }
  eapply lookup_weaken_is_Some; [exact Hc|]. by eapply evaluate_from_subseteq.
Qed.

Lemma evaluate_from_raised is_dir compute files cs files' e :
  evaluate_from false is_dir compute files cs = (files', Some e) →
  ∃ cs1 c cs2,
    cs = cs1 ++ c :: cs2
    ∧ Forall (λ c', is_Some (files' !! pickle_of c')) cs1
    ∧ files' !! pickle_of c = None
    ∧ evaluate_configuration is_dir compute c.1 c.2 = Raise e.
Proof.
  unfold evaluate_from. revert files.
  induction cs as [|c cs IH]; intros files; cbn [for_files]; [done|].
  destruct (one_configuration _ _ _ _ _ _) as [files1 [e1|]] eqn:E.
  - intros [= <- <-]. exists [], c, cs.
    destruct (files !! pickle_of c) as [r|] eqn:Ec.
    { rewrite one_configuration_skip in E by (by rewrite Ec). done. }
    rewrite one_configuration_attempt in E by done.
    destruct (evaluate_configuration _ _ _ _) as [r|e'] eqn:Ea; [done|].
    injection E as <- <-. done.
  - intros Hrest. destruct (IH _ Hrest) as (cs1 & c' & cs2 & -> & Hcs1 & Hc' & Ha).
    exists (c :: cs1), c', cs2. split; [done|]. split; [|done].
    constructor; [|done].
    pose proof (evaluate_from_returned is_dir compute files [c] files1) as Hc.
    unfold evaluate_from in Hc. cbn [for_files] in Hc. rewrite E in Hc.
    specialize (Hc eq_refl). apply Forall_cons in Hc as [Hc _].
    eapply lookup_weaken_is_Some; [exact Hc|].
    by eapply (evaluate_from_subseteq is_dir compute files1 (cs1 ++ c' :: cs2)).
Qed.

(** With [overwrite], every configuration is computed. *)
Lemma one_configuration_overwrite is_dir compute files c :
  one_configuration true is_dir compute files c.1 c.2
  = match evaluate_configuration is_dir compute c.1 c.2 with
    | Ok r => (<[pickle_of c := r]> files, None)
    | Raise e => (files, Some e)
    end.
Proof. done. Qed.

Lemma evaluate_from_overwrite_returns is_dir compute files cs :
  (∃ files', evaluate_from true is_dir compute files cs = (files', None))
  ↔ Forall (λ c, is_Some (pickled is_dir compute c)) cs.
Proof.
  unfold evaluate_from, pickled. revert files.
  induction cs as [|c cs IH]; intros files; cbn [for_files].
  { split; [by constructor|by exists files]. }
  rewrite one_configuration_overwrite, Forall_cons.
  destruct (evaluate_configuration _ _ _ _) as [r|e].
  - rewrite IH. split; [by split|by intros [_ ?]].
  - split; [by intros [? ?]|by intros [[? ?] _]].
Qed.

Lemma evaluate_from_overwrite_lookup is_dir compute files cs files' p :
  evaluate_from true is_dir compute files cs = (files', None) →
  files' !! p = match last (filter (λ c, pickle_of c = p) cs) with
                | Some c => pickled is_dir compute c
                | None => files !! p
                end.
Proof.
  unfold evaluate_from. revert files.
  induction cs as [|c cs IH]; intros files; cbn [for_files]; [by intros [= <-]|].
  rewrite one_configuration_overwrite.
  destruct (evaluate_configuration _ _ _ _) as [r|e] eqn:Ea; [|done].
  intros Hrest. rewrite (IH _ Hrest). rewrite filter_cons.
  destruct (decide (pickle_of c = p)) as [<-|Hne].
  - rewrite last_cons. destruct (last _); [done|].
    rewrite lookup_insert_eq. unfold pickled. by rewrite Ea.
  - destruct (last _); [done|]. by rewrite lookup_insert_ne.
Qed.
End configurations_facts.

(** X21.  A finished run is not repeated.  When the loop of [Main.__call__]
    over the models and the configurations (lines 66-115) ends without an
    exception and [overwrite] is not set, no pickle file that was there
    has changed, every configuration has its pickle file, and a second
    run skips every configuration: it ends without an exception and
    leaves the files as they are whatever has become of the prediction
    directories and their content. *)
Theorem finished_run_is_skipped `{!Layout} {pickle} is_dir compute
    (files files' : gmap Path pickle) models :
  evaluate_models false is_dir compute files models = (files', None) →
  files ⊆ files'
  ∧ Forall (λ c, is_Some (files' !! pickle_of c)) (configurations models)
  ∧ ∀ is_dir' compute',
      evaluate_models false is_dir' compute' files' models = (files', None).
Proof.
  rewrite evaluate_models_from. intros Hrun.
  pose proof (evaluate_from_returned _ _ _ _ _ Hrun) as Hall.
  split; [by eapply evaluate_from_subseteq|]. split; [done|].
  intros is_dir' compute'. rewrite evaluate_models_from. by apply evaluate_from_skip.
Qed.

Lemma finished_run_is_skipped_witness :
  ∃ files',
    @evaluate_models test_layout nat false (λ _, true) (λ _ _ _, Ok 7%nat) ∅ ["m1"; "m2"]
    = (files', None)
    ∧ @evaluate_models test_layout nat false (λ _, false) (λ _ _ _, Raise IndexError)
        files' ["m1"; "m2"]
      = (files', None).
Proof.
  exists (@evaluate_models test_layout nat false (λ _, true) (λ _ _ _, Ok 7%nat) ∅
            ["m1"; "m2"]).1.
  assert (@evaluate_models test_layout nat false (λ _, true) (λ _ _ _, Ok 7%nat) ∅
            ["m1"; "m2"]
          = ((@evaluate_models test_layout nat false (λ _, true) (λ _ _ _, Ok 7%nat) ∅
                ["m1"; "m2"]).1, None)) as E by by_eval.
  split; [exact E|].
  destruct (@finished_run_is_skipped test_layout nat _ _ _ _ _ E) as (_ & _ & Hagain).
  apply Hagain.
Defined.

(** X22.  A failed run resumes where it failed.  When the loop raises and
    [overwrite] is not set, no pickle file that was there has changed;
    the exception is that of one configuration, a missing directory or
    what its evaluation raised; all configurations before it have their
    pickle file and the failing one has none; so a second run skips the
    configurations before it and starts with the one that failed. *)
Theorem failed_run_resumes `{!Layout} {pickle} is_dir compute
    (files files' : gmap Path pickle) models e :
  evaluate_models false is_dir compute files models = (files', Some e) →
  files ⊆ files'
  ∧ ∃ cs1 c cs2,
      configurations models = cs1 ++ c :: cs2
      ∧ Forall (λ c', is_Some (files' !! pickle_of c')) cs1
      ∧ files' !! pickle_of c = None
      ∧ evaluate_configuration is_dir compute c.1 c.2 = Raise e
      ∧ ∀ is_dir' compute',
          evaluate_models false is_dir' compute' files' models
          = evaluate_from false is_dir' compute' files' (c :: cs2).
Proof.
  rewrite evaluate_models_from. intros Hrun.
  split; [by eapply evaluate_from_subseteq|].
  destruct (evaluate_from_raised _ _ _ _ _ _ Hrun) as (cs1 & c & cs2 & Hcs & Hcs1 & Hc & Ha).
  exists cs1, c, cs2. repeat (split; [done|]).
  intros is_dir' compute'. rewrite evaluate_models_from, Hcs.
  unfold evaluate_from at 1. rewrite for_files_app.
  pose proof (evaluate_from_skip is_dir' compute' files' cs1 Hcs1) as Hskip.
  unfold evaluate_from in Hskip. by rewrite Hskip.
Qed.

Lemma failed_run_resumes_witness :
  ∃ files',
    @evaluate_models test_layout nat false (λ _, true)
      (λ _ train _, if bool_decide (train = "SMD") then Raise IndexError else Ok 7%nat)
      ∅ ["m1"; "m2"]
    = (files', Some IndexError)
    ∧ files' !! "m1/Pickles/All_SLD.pkl" = Some 7%nat
    ∧ ∅ ⊆ files'.
Proof.
  exists (@evaluate_models test_layout nat false (λ _, true)
            (λ _ train _, if bool_decide (train = "SMD") then Raise IndexError else Ok 7%nat)
            ∅ ["m1"; "m2"]).1.
  assert (@evaluate_models test_layout nat false (λ _, true)
            (λ _ train _, if bool_decide (train = "SMD") then Raise IndexError else Ok 7%nat)
            ∅ ["m1"; "m2"]
          = ((@evaluate_models test_layout nat false (λ _, true)
                (λ _ train _,
                   if bool_decide (train = "SMD") then Raise IndexError else Ok 7%nat)
                ∅ ["m1"; "m2"]).1, Some IndexError)) as E by by_eval.
  split; [exact E|]. split; [by_eval|].
  destruct (@failed_run_resumes test_layout nat _ _ _ _ _ _ E) as (Hsub & _).
  exact Hsub.
Defined.

(** X23.  With [overwrite] set every configuration is computed: the loop
    ends without an exception exactly when every configuration has its
    two directories and its evaluation returns; then every pickle file
    of a configuration holds the result of the last configuration that
    writes to it, whatever it held before, and no other file has
    changed. *)
Theorem overwrite_recomputes `{!Layout} {pickle} is_dir compute
    (files : gmap Path pickle) models :
  ((∃ files', evaluate_models true is_dir compute files models = (files', None))
   ↔ Forall (λ c, is_Some (pickled is_dir compute c)) (configurations models))
  ∧ ∀ files' p,
      evaluate_models true is_dir compute files models = (files', None) →
      files' !! p = match last (filter (λ c, pickle_of c = p) (configurations models)) with
                    | Some c => pickled is_dir compute c
                    | None => files !! p
                    end.
Proof.
  split.
  - rewrite <- evaluate_from_overwrite_returns. by setoid_rewrite evaluate_models_from.
  - intros files' p. rewrite evaluate_models_from. apply evaluate_from_overwrite_lookup.
Qed.

Lemma overwrite_recomputes_witness :
  ∃ files',
    @evaluate_models test_layout nat true (λ _, true) (λ _ _ _, Ok 7%nat)
      {[ "m1/Pickles/All_SLD.pkl" := 1%nat; "README" := 2%nat ]} ["m1"]
    = (files', None)
    ∧ files' !! "m1/Pickles/All_SLD.pkl" = Some 7%nat
    ∧ files' !! "README" = Some 2%nat.
Proof.
  exists (@evaluate_models test_layout nat true (λ _, true) (λ _ _ _, Ok 7%nat)
            {[ "m1/Pickles/All_SLD.pkl" := 1%nat; "README" := 2%nat ]} ["m1"]).1.
  assert (@evaluate_models test_layout nat true (λ _, true) (λ _ _ _, Ok 7%nat)
            {[ "m1/Pickles/All_SLD.pkl" := 1%nat; "README" := 2%nat ]} ["m1"]
          = ((@evaluate_models test_layout nat true (λ _, true) (λ _ _ _, Ok 7%nat)
                {[ "m1/Pickles/All_SLD.pkl" := 1%nat; "README" := 2%nat ]} ["m1"]).1,
             None)) as E by by_eval.
  split; [exact E|].
  destruct (@overwrite_recomputes test_layout nat (λ _, true) (λ _ _ _, Ok 7%nat)
              {[ "m1/Pickles/All_SLD.pkl" := 1%nat; "README" := 2%nat ]} ["m1"])
    as [_ Hlookup].
  split; (etrans; [exact (Hlookup _ _ E)|by_eval]).
Defined.

(** ** The file dialog of [_browse_file] *)

(** X24.  [GUI._browse_file] starts from [os.path.dirname] of the entry.
    On an entry without a separator, be it the name of a file that
    exists, that is the empty string, which is no directory, so the loop
    of lines 360-361 never ends and the dialog is never opened; on an
    absolute path the loop ends and the dialog starts in a directory. *)
Theorem browse_file_start_directory (isdir : list Ascii.ascii → bool) entry :
  isdir [] = false → (∀ q, q ≠ [] → all_sep q → isdir q = true) →
  (sep ∉ entry → ∀ rounds, browse_file_start isdir rounds entry = None)
  ∧ (head entry = Some sep →
     ∃ rounds d, browse_file_start isdir rounds entry = Some d ∧ isdir d = true).
Proof.
  intros Hempty Hroot. unfold browse_file_start. split.
  - intros Hsep rounds. rewrite dirname_no_sep by done. by apply browse_start_empty.
  - destruct entry as [|c p]; [done|]. intros [= ->].
    destruct (dirname_absolute p) as (d & -> & _).
    destruct (browse_start_absolute isdir Hroot (length d) d) as (rounds & d' & Hd); [done|].
    exists rounds, d'. split; [done|]. by eapply browse_start_isdir.
Qed.

Lemma browse_file_start_directory_witness :
  browse_file_start (λ q, bool_decide (q ≠ [] ∧ all_sep q)) 1000
    (String.list_ascii_of_string "compute.py") = None
  ∧ ∃ rounds d,
      browse_file_start (λ q, bool_decide (q ≠ [] ∧ all_sep q)) rounds
        (sep :: String.list_ascii_of_string "Models/a.png") = Some d
      ∧ bool_decide (d ≠ [] ∧ all_sep d) = true.
Proof.
  assert (∀ q, q ≠ [] → all_sep q → bool_decide (q ≠ [] ∧ all_sep q) = true) as Hroot
    by (intros q Hq Hall; by apply bool_decide_eq_true).
  split.
  - apply (proj1 (browse_file_start_directory _ _ eq_refl Hroot)). by_eval.
  - apply (proj2 (browse_file_start_directory _ _ eq_refl Hroot)). reflexivity.
Defined.

(** * The claims on normalization and on the round trip *)

(** ** Where a recall value arises as 0/0 *)





Section normalization.
Context `{!Argsort, !Segmentation}.


End normalization.



(** ** One or two copies of a curve *)

(** The mean of one value and of two equal values is that value, whatever
    it is; no rounding takes place in either. *)
Lemma mean_of_one (r : float) : fdiv r (of_nat 1) = r.
Proof.
  destruct r as [a|[]|]; try done. unfold of_nat, fdiv.
  rewrite decide_False by apply of_nat_S_neq_0. f_equal.
  change (Z.of_nat 1) with 1%Z. rewrite Z2Qc_inj_1. field. done.
Qed.

Lemma mean_of_two (r : float) : fdiv (fadd r r) (of_nat 2) = r.
Proof.
  destruct r as [a|[]|]; try done. unfold of_nat, fadd, fdiv.
  rewrite decide_False by apply of_nat_S_neq_0. f_equal.
  change (Z.of_nat 2) with 2%Z.
  assert (Qc_of_Z 2 = 1 + 1) as -> by by_eval. field. by_eval.
Qed.

(** A value between two numbers is a number. *)
Lemma in_range_finite (x : list float) g : Forall finite x → in_range x g → finite g.
Proof.
  intros Hx (r1 & r2 & H1 & H2 & Hle1 & Hle2). rewrite Forall_forall in Hx.
  destruct (finite_inv _ (Hx r1 H1)) as [a ->], (finite_inv _ (Hx r2 H2)) as [b ->].
  by destruct g as [q|[]|].
Qed.

Section resampled.
Context `{!Argsort, !Segmentation}.
Variables (c : Plot) (grid : list float).
Hypothesis c_valid : valid_curve c.
Hypothesis c_finite : Forall finite (precision c).
Hypothesis c_NoDup : NoDup (recall c).
Hypothesis grid_in_range : Forall (in_range (recall c)) grid.

Lemma grid_finite : Forall finite grid.
Proof.
  destruct c_valid as (_ & _ & Hfin).
  eapply Forall_impl; [exact grid_in_range|]. intros g. by apply in_range_finite.
Qed.

(** The curve interpolated at the grid points. *)
Let row : list float :=
  np_interp1 (np_take (recall c) (argsort (recall c)))
    (np_take (precision c) (argsort (recall c))) <$> grid.

Lemma resampled_Ok : interp1d (recall c) (precision c) grid = Ok row.
Proof.
  destruct c_valid as (Hlen & Hge & Hfin).
  apply interp1d_in_range; [done..|apply grid_finite|done].
Qed.

Lemma resampled_length : length row = length grid.
Proof. apply length_fmap. Qed.

Lemma resampled_finite : Forall finite row.
Proof.
  destruct c_valid as (Hlen & Hge & Hfin).
  apply Forall_fmap, Forall_forall. intros g Hg.
  pose proof grid_finite as Hgfin. rewrite Forall_forall in Hgfin.
  apply np_interp1_finite;
    [by apply (xs_strictly_sorted (recall c) (precision c))|by apply xs_finite| |by auto].
  apply Forall_fmap, Forall_forall. intros i _. by apply lookup_total_finite.
Qed.

(** At a grid point that is a recall value of the curve the interpolated
    precision is the precision of the curve there. *)
Lemma resampled_node i j g :
  grid !! i = Some g → recall c !! j = Some g → row !! i = precision c !! j.
Proof.
  destruct c_valid as (Hlen & Hge & Hfin). intros Hi Hj.
  unfold row. rewrite list_lookup_fmap, Hi. cbn [fmap option_fmap option_map].
  pose proof (lookup_lt_Some _ _ _ Hj) as Hjlt.
  assert (j ∈ argsort (recall c)) as [k Hk]%list_elem_of_lookup.
  { rewrite argsort_perm. apply elem_of_seq. lia. }
  pose proof (lookup_lt_Some _ _ _ Hk) as Hklt.
  assert (np_take (recall c) (argsort (recall c)) !!! k = g) as Hxk.
  { apply list_lookup_total_correct. unfold np_take.
    rewrite list_lookup_fmap, Hk. cbn. by rewrite (list_lookup_total_correct _ _ _ Hj). }
  rewrite <- Hxk.
  rewrite np_interp1_node;
    [|by apply (xs_strictly_sorted (recall c) (precision c))|by apply xs_finite
     |by rewrite np_take_length].
  destruct (lookup_lt_is_Some_2 (precision c) j ltac:(lia)) as [v Hv]. rewrite Hv. f_equal.
  apply list_lookup_total_correct. unfold np_take.
  rewrite list_lookup_fmap, Hk. cbn. by rewrite (list_lookup_total_correct _ _ _ Hv).
Qed.

Lemma interp_precision_copies m :
  interp_precision (replicate (S m) c) grid = Ok (replicate (S m) row).
Proof.
  unfold interp_precision.
  rewrite (for_each_Ok _ _ (λ _, row)).
  2:{ intros c' ->%elem_of_replicate_inv. apply resampled_Ok. }
  cbn [rbind]. rewrite fmap_replicate. unfold np_vstack. cbn [replicate].
  assert (forallb (λ r', bool_decide (length r' = length row)) (replicate m row) = true)
    as ->; [|done].
  apply forallb_forall. intros r [-> _]%list_elem_of_In%elem_of_replicate.
  by apply bool_decide_eq_true.
Qed.

Lemma bin_points_mean_copies N (bp : float * float) :
  N = 1%nat ∨ N = 2%nat → bin_points_mean (replicate N (Some bp)) = Ok bp.
Proof.
  destruct bp as [r q]. intros [-> | ->]; unfold bin_points_mean, mean0; cbn.
  - by rewrite !mean_of_one.
  - by rewrite !mean_of_two.
Qed.

Lemma mean_and_std_copies N (bp : float * float) :
  N = 1%nat ∨ N = 2%nat → bin_point c = Some bp → grid ≠ [] →
  ∃ idx mean lower,
    np_argmax (zip_with (λ p r, F p r) row grid) = Ok idx
    ∧ mean_and_std (replicate N c) (inr grid) = Ok (mean, lower, lower)
    ∧ Plot_init grid row None None (Some (grid !!! idx, row !!! idx)) (Some bp) = Ok mean
    ∧ Plot_init grid row None None None None = Ok lower.
Proof.
  intros HN Hbp Hgrid.
  assert (∃ m, N = S m) as [m ->] by (destruct HN as [-> | ->]; eauto).
  pose proof resampled_finite as Hrow. pose proof resampled_length as Hlen.
  destruct (np_argmax_total (zip_with (λ p r, F p r) row grid)) as (idx & Hidx & Hilt).
  { intros E. apply (f_equal length) in E. rewrite length_zip_with, Hlen in E.
    destruct grid; [done|]. cbn in E. lia. }
  rewrite length_zip_with in Hilt.
  destruct (Plot_init_returns grid row None None (Some (grid !!! idx, row !!! idx)) (Some bp))
    as [mean Hmean]; [done..|].
  destruct (Plot_init_returns grid row None None None None) as [lower Hlower]; [done..|].
  exists idx, mean, lower. split; [done|]. split; [|done].
  unfold mean_and_std. rewrite interp_precision_copies. cbn [rbind].
  assert (bin_points_vstack (replicate (S m) c) = Ok (replicate (S m) (Some bp))) as ->.
  { unfold bin_points_vstack. cbn [replicate].
    change (c :: replicate m c) with (replicate (S m) c).
    assert (forallb (λ p0, bool_decide (is_Some (bin_point p0))) (replicate (S m) c)
            = true) as ->.
    { apply forallb_forall. intros c' [-> _]%list_elem_of_In%elem_of_replicate.
      apply bool_decide_eq_true. rewrite Hbp. by eexists. }
    cbn [orb]. by rewrite fmap_replicate, Hbp. }
  cbn [rbind]. rewrite mean0_replicate, std0_replicate, Hidx by done. cbn [rbind].
  rewrite !getitem_lt by lia. cbn [rbind].
  rewrite (bin_points_mean_copies (S m) bp HN). cbn [rbind].
  rewrite zip_with_fsub_zero, zip_with_fadd_zero by done.
  by rewrite Hmean, Hlower.
Qed.
End resampled.

(** C8, as amended.  A curve [c] (recall and precision of one length at
    least 2, finite values, pairwise different recall values, binarised
    marker present) is aggregated in [N >= 1] copies onto any grid of
    numbers within its recall range, the grid of line 54 included when
    that range is [0, 1].  The [N] interpolated rows are one and the same
    row, the precision of [c] interpolated at the grid points, which at a
    grid point that is a recall value of [c] is the precision of [c]
    there, so that on the grid that is the recall sequence of [c] it is
    the precision sequence of [c].  For one and for two copies, where the
    sum of equal values is exact also in binary64, the mean of the rows is
    that row and the standard deviation is 0 at every grid point; the mean
    curve is made, by the constructor, of the grid and of that row, with
    the grid point of greatest F1 and the binarised marker of [c] as
    markers; the lower and the upper curve are one and the same curve,
    made of the same two sequences, without markers; for a grid of at
    least two points the three curves have the grid as recall and the row
    as precision. *)
Theorem C8_aggregation_round_trip `{!Argsort, !Segmentation}
    (N : nat) (c : Plot) (bp : float * float) (grid : list float) :
  (1 ≤ N)%nat →
  valid_curve c → Forall finite (precision c) → NoDup (recall c) →
  bin_point c = Some bp →
  grid ≠ [] → Forall (in_range (recall c)) grid →
  ∃ row,
    interp1d (recall c) (precision c) grid = Ok row
    ∧ (∀ i j g, grid !! i = Some g → recall c !! j = Some g →
                row !! i = precision c !! j)
    ∧ (grid = recall c → row = precision c)
    ∧ interp_precision (replicate N c) grid = Ok (replicate N row)
    ∧ (N = 1%nat ∨ N = 2%nat →
       mean0 (replicate N row) = row
       ∧ std0 (replicate N row) = (λ _, f0) <$> row
       ∧ ∃ idx mean lower,
           np_argmax (zip_with (λ p r, F p r) row grid) = Ok idx
           ∧ mean_and_std (replicate N c) (inr grid) = Ok (mean, lower, lower)
           ∧ Plot_init grid row None None (Some (grid !!! idx, row !!! idx)) (Some bp)
             = Ok mean
           ∧ Plot_init grid row None None None None = Ok lower
           ∧ ((2 ≤ length grid)%nat →
              mean = {| recall := grid; precision := row; threshold := None;
                        f1 := zip_with F1_of row grid;
                        f1_point := Some (grid !!! idx, row !!! idx);
                        bin_point := Some bp |}
              ∧ lower = {| recall := grid; precision := row; threshold := None;
                           f1 := zip_with F1_of row grid;
                           f1_point := None; bin_point := None |})).
Proof.
  intros HN1 Hvalid Hpfin Hnd Hbp Hgrid Hrange.
  pose proof (resampled_Ok c grid Hvalid Hrange) as Hrow.
  pose proof (resampled_finite c grid Hvalid Hpfin Hnd Hrange) as Hrfin.
  pose proof (resampled_length c grid) as Hrlen.
  pose proof (resampled_node c grid Hvalid Hnd) as Hnode.
  pose proof (interp_precision_copies c grid Hvalid Hrange) as Hcopies.
  pose proof (mean_and_std_copies c grid Hvalid Hpfin Hnd Hrange N bp) as Hagg.
  set (row := np_interp1 (np_take (recall c) (argsort (recall c)))
                (np_take (precision c) (argsort (recall c))) <$> grid) in *.
  destruct N as [|m]; [lia|].
  exists row. split_and!; [done|done| |done|].
  - intros ->. apply list_eq. intros i.
    destruct (recall c !! i) as [g|] eqn:Hg; [by eapply Hnode|].
    apply lookup_ge_None in Hg. destruct Hvalid as (Hlen & _).
    rewrite (proj2 (lookup_ge_None row i)) by lia.
    symmetry. apply lookup_ge_None. lia.
  - intros HN.
    destruct (Hagg HN Hbp Hgrid) as (idx & mean & lower & Hidx & Hms & Hmean & Hlower).
    split; [by apply mean0_replicate|]. split; [by apply std0_replicate|].
    exists idx, mean, lower. split_and!; [done..|].
    intros Hge.
    assert (∀ fp bpt, Plot_init grid row None None fp bpt
              = Ok {| recall := grid; precision := row; threshold := None;
                      f1 := zip_with F1_of row grid; f1_point := fp; bin_point := bpt |})
      as Hplot.
    { intros fp bpt.
      destruct (Plot_init_Ok grid row None None fp bpt) as (r' & p' & -> & _ & _ & Hcase);
        [done|done|].
      rewrite decide_False in Hcase by lia. by destruct Hcase as [-> ->]. }
    rewrite Hplot in Hmean, Hlower. by injection Hmean as <-; injection Hlower as <-.
Qed.

Lemma C8_witness :
  ∃ mean lower,
    @mean_and_std stable_Argsort spec_metrics (replicate 2 scen3_c1) (inl 5%nat)
    = Ok (mean, lower, lower)
    ∧ recall mean = [0 // 1; 1 // 4; 1 // 2; 3 // 4; 1 // 1]
    ∧ precision mean = [1 // 1; 3 // 4; 1 // 2; 1 // 4; 0 // 1]
    ∧ bin_point mean = Some (0 // 1, 0 // 1)
    ∧ recall lower = recall mean ∧ precision lower = precision mean
    ∧ f1_point lower = None ∧ bin_point lower = None.
Proof.
  destruct (@C8_aggregation_round_trip stable_Argsort spec_metrics 2 scen3_c1
              (0 // 1, 0 // 1) (np_linspace01 5))
    as (row & Hrow & _ & _ & _ & Htwo).
  - lia.
  - repeat constructor.
  - repeat constructor.
  - by_eval.
  - reflexivity.
  - by_eval.
  - repeat constructor; exists (0 // 1), (1 // 1); split_and!; by_eval.
  - assert (row = [1 // 1; 3 // 4; 1 // 2; 1 // 4; 0 // 1]) as ->.
    { assert (@interp1d stable_Argsort (recall scen3_c1) (precision scen3_c1)
                (np_linspace01 5)
              = Ok [1 // 1; 3 // 4; 1 // 2; 1 // 4; 0 // 1]) as E by by_eval.
      rewrite E in Hrow. by injection Hrow as <-. }
    destruct Htwo as (_ & _ & idx & mean & lower & _ & Hagg & _ & _ & Hfields);
      [by right|].
    destruct Hfields as [-> ->]; [by_eval|].
    eexists _, _. split; [exact Hagg|]. split_and!; by_eval.
Defined.

(** One copy of the curve ([0,1], [1,0]) aggregated onto the grid
    [0, 0.5, 1]: the mean curve has three points, not the two of the input,
    and the lower curve, without markers, is not the mean curve.  And in
    binary64 the mean of three copies of the number nearest to 0.1 is the
    next number above it, with a deviation that is not 0, whereas the means
    of one and of two copies are that number. *)
Lemma C8_counterexample :
  (∃ mean lower upper,
     @mean_and_std stable_Argsort spec_metrics (replicate 1 scen3_c1) (inr scen3_grid)
     = Ok (mean, lower, upper)
     ∧ recall mean = [0 // 1; 1 // 2; 1 // 1]
     ∧ recall mean ≠ recall scen3_c1 ∧ mean ≠ scen3_c1 ∧ lower ≠ mean)
  ∧ mean64 (replicate 3 (fl (1 // 10))) ≠ fl (1 // 10)
  ∧ var64 (replicate 3 (fl (1 // 10))) ≠ f0
  ∧ mean64 (replicate 2 (fl (1 // 10))) = fl (1 // 10)
  ∧ mean64 (replicate 1 (fl (1 // 10))) = fl (1 // 10).
Proof.
  split.
  - eexists _, _, _. split; [vm_compute; reflexivity|]. split; [by_eval|].
    split_and!; by_eval.
  - split_and!; by_eval.
Qed.
